(** * The tournament heuristic for the RCPSP/t ([PrSolver::solve])

    A shallow embedding of [src/Solver.cc] and of the validator and the
    driver of [src/Main.cc], and the properties of the schedules the solver
    returns.

    Modelling conventions.
    - A C++ [int] is a [Z].  Signed overflow is undefined in C++; the model
      describes the executions in which no [int] overflows.
    - A C++ array ([int*], [double*], [int**]) is a total function from the
      index to the content.  The cells inside the allocated range are the
      array; the cells outside are whatever the memory holds there, so every
      statement holds for any content of the memory around an array.
    - An array obtained from [new T[n]] without an initialiser holds arbitrary
      values until it is written; these initial contents are the fields of
      [Memory], an argument of the solver.
    - A [double] is a primitive binary64 float ([PrimFloat.float]).
    - [std::queue<int>] is a list, pushed at the back and popped at the front.
    - The buffer [out] of the caller is not read by the solver; its cells
      record whether the solver has written them.
    - The random engine is a stream [rnd : nat -> Q] of draws from [0, 1),
      read in order; a draw is kept as an exact rational.
    - The three breadth-first loops need not terminate (on a cyclic graph
      they do not): they take a [fuel], the number of queue pops allowed. *)

From Stdlib Require Import ZArith List Lia Bool QArith Floats Permutation Sorted.
Import ListNotations.
Local Open Scope Z_scope.

(** ** Outcomes *)

(** What a part of [solve] can do: finish with a value, leave [solve] with
    [return false], use job [-1] as an index, or exhaust the fuel. *)
Inductive outcome (A : Type) : Type :=
| Done (a : A)
| Infeasible
| Fault
| OutOfFuel.
Arguments Done {A} a.
Arguments Infeasible {A}.
Arguments Fault {A}.
Arguments OutOfFuel {A}.

Definition bind {A B : Type} (c : outcome A) (k : A -> outcome B) : outcome B :=
  match c with
  | Done a => k a
  | Infeasible => Infeasible
  | Fault => Fault
  | OutOfFuel => OutOfFuel
  end.

Notation "x <- c ;; k" := (bind c (fun x => k))
  (at level 61, c at next level, right associativity).
Notation "' p <- c ;; k" := (bind c (fun p => k))
  (at level 61, p pattern, c at next level, right associativity).

(** The value [solve] returns: [true] with the cells [out[0 .. njobs)], or
    [false]; [Undefined] and [Exhausted] are the model's [Fault] and
    [OutOfFuel].  A cell of [out] is [Some f] once [solve] has written [f]
    to it, and [None] as long as [solve] has not written it. *)
Inductive solve_result : Type :=
| Found (out : list (option Z))
| NoSolution
| Undefined
| Exhausted.

(** ** Arrays and index ranges *)

Definition upd {A : Type} (a : Z -> A) (i : Z) (v : A) : Z -> A :=
  fun x => if x =? i then v else a x.

Definition upd2 {A : Type} (a : Z -> Z -> A) (k t : Z) (v : A) : Z -> Z -> A :=
  fun k' t' => if (k' =? k) && (t' =? t) then v else a k' t'.

(** [lo, lo+1, ..., hi-1], the values of [for (i = lo; i < hi; i++)]. *)
Definition range_from (lo hi : Z) : list Z :=
  map (fun i => lo + Z.of_nat i) (seq 0 (Z.to_nat (hi - lo))).

Definition range (n : Z) : list Z := range_from 0 n.

Definition in_range (n i : Z) : bool := (0 <=? i) && (i <? n).

(** [for (i = 0; i < n; i++) a[i] = v]. *)
Definition fill (n : Z) (v : Z) (a : Z -> Z) : Z -> Z :=
  fun i => if in_range n i then v else a i.

(** [for (i = 0; i < n; i++) dst[i] = src[i]], into cells that record
    whether they have been written. *)
Definition copy (n : Z) (src : Z -> Z) (dst : Z -> option Z) : Z -> option Z :=
  fun i => if in_range n i then Some (src i) else dst i.

(** [for (k < rows) for (t < cols) dst[k][t] = src[k][t]]. *)
Definition copy_grid (rows cols : Z) (src dst : Z -> Z -> Z) : Z -> Z -> Z :=
  fun k t => if in_range rows k && in_range cols t then src k t else dst k t.

(** ** The problem instance ([Problem.cc]) *)

(** The fields that the constructor of [Problem.cc] sets: three sizes, and
    the arrays [int* nsuccessors], [int** successors],
    [std::vector<int>* predecessors], [int* durations], [int*** requests]
    (job, resource, period of the job) and [int** capacities] (resource,
    period of the horizon). *)
Record Problem : Type := {
  njobs : Z;
  horizon : Z;
  nresources : Z;
  nsuccessors : Z -> Z;
  successors : Z -> Z -> Z;
  predecessors : Z -> list Z;
  durations : Z -> Z;
  requests : Z -> Z -> Z -> Z;
  capacities : Z -> Z -> Z
}.

(** The successors of a job, in the order of its array. *)
Definition succ_list (P : Problem) (job : Z) : list Z :=
  map (successors P job) (range (nsuccessors P job)).

(** ** Doubles *)

Local Open Scope float_scope.

(** [(double) z] for an [int] [z]; every [int] is a binary64 number. *)
Definition double_of_int (z : Z) : float :=
  if (z <? 0)%Z then - PrimFloat.of_uint63 (Uint63.of_Z (- z))
  else PrimFloat.of_uint63 (Uint63.of_Z z).

(** [(int) x] for a rational [x]: the conversion truncates toward zero. *)
Definition int_of_Q (x : Q) : Z := Z.quot (Qnum x) (Z.pos (Qden x)).

Definition NPASSES : nat := 1000.
(** [(int)(TOURN_FACTOR * n)] with [TOURN_FACTOR = 0.5]: the product is exact
    in binary64 and the conversion truncates toward zero. *)
Definition tourn_size (n : Z) : Z := Z.quot n 2.
(** The binary64 numbers nearest to [0.4] and to [0.6]. *)
Definition OMEGA1 : float := 0x1.999999999999ap-2.
Definition OMEGA2 : float := 0x1.3333333333333p-1.
(** [std::numeric_limits<double>::max()]. *)
Definition DBL_MAX : float := 0x1.fffffffffffffp+1023.
(** [INT32_MAX / 2]. *)
Definition INIT_MAKESPAN : Z := 1073741823.

Local Close Scope float_scope.

(** ** Memory handed out by [new] *)

(** What the arrays that [solve] allocates hold when [new] hands them out:
    [ef] before its cells are set to zero, and the arrays that are allocated
    without an initialiser. *)
Record Memory : Type := {
  ef0 : Z -> Z;
  ls0 : Z -> Z;
  ru0 : Z -> float;
  cpru0 : Z -> float;
  available0 : Z -> Z -> Z;
  eligible0 : Z -> Z;
  schedule0 : Z -> Z
}.

(** ** The feasibility loops *)

Section Feasibility.
Variable P : Problem.

(** Lines 68-76 and 237-245: no request of [job], finishing at [e], exceeds
    [grid]; [t] runs from [duration - 1] down to [0]. *)
Definition fits_finish (grid : Z -> Z -> Z) (job e : Z) : bool :=
  let duration := durations P job in
  forallb (fun k =>
    forallb (fun t => negb (requests P job k t >? grid k (e - duration + t)))
            (rev (range duration)))
    (range (nresources P)).

(** Lines 109-117: the same for [job] starting at [s]. *)
Definition fits_start (grid : Z -> Z -> Z) (job s : Z) : bool :=
  let duration := durations P job in
  forallb (fun k =>
    forallb (fun t => negb (requests P job k t >? grid k (s + t)))
            (range duration))
    (range (nresources P)).

(** Lines 66-82 and 235-259: [while (!feasibleFinal)].  One round tests the
    finish [e], moves it by one if a request does not fit, and leaves
    [solve] if it is beyond the horizon. *)
Fixpoint move_finish (fuel : nat) (grid : Z -> Z -> Z) (job e : Z) : outcome Z :=
  match fuel with
  | O => OutOfFuel
  | S fuel' =>
      let feasible := fits_finish grid job e in
      let e' := if feasible then e else e + 1 in
      if e' >? horizon P then Infeasible
      else if feasible then Done e'
      else move_finish fuel' grid job e'
  end.

(** Lines 107-124: the same loop for the start [s], moving down. *)
Fixpoint move_start (fuel : nat) (grid : Z -> Z -> Z) (job s : Z) : outcome Z :=
  match fuel with
  | O => OutOfFuel
  | S fuel' =>
      let feasible := fits_start grid job s in
      let s' := if feasible then s else s - 1 in
      if s' <? 0 then Infeasible
      else if feasible then Done s'
      else move_start fuel' grid job s'
  end.

(** Rounds that always suffice: the loop stops beyond the horizon. *)
Definition finish_rounds (e : Z) : nat := S (Z.to_nat (horizon P - e)).
Definition start_rounds (s : Z) : nat := S (Z.to_nat s).

End Feasibility.

(** ** Breadth-first traversal with re-visits *)

Section Bfs.
Context {St : Type}.
(** What one pop does: the new state and the jobs pushed, in order. *)
Variable body : Z -> St -> outcome (St * list Z).

Fixpoint bfs (fuel : nat) (q : list Z) (st : St) : outcome St :=
  match q with
  | [] => Done st
  | job :: q' =>
      match fuel with
      | O => OutOfFuel
      | S fuel' =>
          '(st', pushed) <- body job st ;;
          bfs fuel' (q' ++ pushed) st'
      end
  end.

(** The queue and the state after [n] pops, when there are that many. *)
Fixpoint bfs_after (n : nat) (q : list Z) (st : St) : option (list Z * St) :=
  match n with
  | O => Some (q, st)
  | S n' =>
      match q with
      | [] => None
      | job :: q' =>
          match body job st with
          | Done (st', pushed) => bfs_after n' (q' ++ pushed) st'
          | _ => None
          end
      end
  end.
End Bfs.

(** ** Preprocessing *)

Section Preprocessing.
Variable P : Problem.

(** Lines 86-89: one successor of [job] is raised and pushed. *)
Definition raise_successor (job : Z) (acc : (Z -> Z) * list Z) (successor : Z)
  : (Z -> Z) * list Z :=
  let '(ef, pushed) := acc in
  let f := ef job + durations P successor in
  ((if f >? ef successor then upd ef successor f else ef), pushed ++ [successor]).

(** Lines 61-90: one pop of the earliest-finish pass. *)
Definition ef_body (job : Z) (ef : Z -> Z) : outcome ((Z -> Z) * list Z) :=
  e <- move_finish P (finish_rounds P (ef job)) (capacities P) job (ef job) ;;
  Done (fold_left (raise_successor job) (succ_list P job) (upd ef job e, [])).

(** Lines 55-91; [new int[njobs]()] sets its cells to zero. *)
Definition ef_pass (m : Memory) (fuel : nat) : outcome (Z -> Z) :=
  bfs ef_body fuel [0] (fill (njobs P) 0 (ef0 m)).

(** Lines 128-130: one predecessor of [job] is lowered and pushed. *)
Definition lower_predecessor (job : Z) (acc : (Z -> Z) * list Z) (predecessor : Z)
  : (Z -> Z) * list Z :=
  let '(ls, pushed) := acc in
  let s := ls job - durations P predecessor in
  ((if s <? ls predecessor then upd ls predecessor s else ls), pushed ++ [predecessor]).

(** Lines 102-131: one pop of the latest-start pass. *)
Definition ls_body (job : Z) (ls : Z -> Z) : outcome ((Z -> Z) * list Z) :=
  s <- move_start P (start_rounds (ls job)) (capacities P) job (ls job) ;;
  Done (fold_left (lower_predecessor job) (predecessors P job) (upd ls job s, [])).

(** Lines 95-132. *)
Definition ls_pass (m : Memory) (fuel : nat) : outcome (Z -> Z) :=
  bfs ls_body fuel [njobs P - 1] (fill (njobs P) (horizon P) (ls0 m)).

Variables ef ls : Z -> Z.

(** Lines 146-152. *)
Definition demand_availability (job : Z) : Z * Z :=
  let duration := durations P job in
  fold_left
    (fun '(demand, availability) k =>
       (fold_left (fun d t => d + requests P job k t) (range duration) demand,
        fold_left (fun a t => a + capacities P k t)
                  (range_from (ef job - duration) (ls job + duration))
                  availability))
    (range (nresources P)) (0, 0).

Local Open Scope float_scope.

(** Lines 142-163: one pop of the resource-utilisation pass.  The loop of
    lines 157-158 runs its variable over [0 .. nsuccessors[job])] and reads
    [ru] at that variable. *)
Definition ru_body (job : Z) (ru : Z -> float) : outcome ((Z -> float) * list Z) :=
  let '(demand, availability) := demand_availability job in
  let ru1 :=
    upd ru job
        (OMEGA1 * ((double_of_int (nsuccessors P job) / double_of_int (nresources P))
                   * (double_of_int demand / double_of_int availability))) in
  let ru2 :=
    fold_left (fun ru successor => upd ru job (ru job + OMEGA2 * ru successor))
              (range (nsuccessors P job)) ru1 in
  let ru3 :=
    if PrimFloat.is_nan (ru2 job) || (ru2 job <? 0) then upd ru2 job 0 else ru2 in
  Done (ru3, predecessors P job).

(** Lines 136-164. *)
Definition ru_pass (m : Memory) (fuel : nat) : outcome (Z -> float) :=
  bfs ru_body fuel [(njobs P - 1)%Z] (ru0 m).

(** Lines 167-171. *)
Definition cpru_of (m : Memory) (ru : Z -> float) : Z -> float :=
  fun job =>
    if in_range (njobs P) job
    then double_of_int (horizon P - ls job) * ru job
    else cpru0 m job.

End Preprocessing.

(** Everything before the passes: [ef], [ls], [ru] and [cpru]. *)
Record Priorities : Type := {
  p_ef : Z -> Z;
  p_ls : Z -> Z;
  p_ru : Z -> float;
  p_cpru : Z -> float
}.

Definition preprocess (P : Problem) (m : Memory) (fuel : nat) : outcome Priorities :=
  ef <- ef_pass P m fuel ;;
  ls <- ls_pass P m fuel ;;
  ru <- ru_pass P ef ls m fuel ;;
  Done {| p_ef := ef; p_ls := ls; p_ru := ru; p_cpru := cpru_of P ls m ru |}.

(** ** The tournament passes *)

(** The buffers a pass works on, and the number of draws taken so far. *)
Record PassState : Type := {
  schedule : Z -> Z;
  available : Z -> Z -> Z;
  eligible : Z -> Z;
  drawn : nat
}.

Record SolveState : Type := {
  pass_state : PassState;
  bestMakespan : Z;
  out : Z -> option Z
}.

Section Tournament.
Variable P : Problem.
Variable cpru : Z -> float.
Variable rnd : nat -> Q.

(** Lines 204-206. *)
Definition predecessors_scheduled (schedule : Z -> Z) (j : Z) : bool :=
  fold_left (fun b predecessor => if schedule predecessor <? 0 then false else b)
            (predecessors P j) true.

(** Lines 203-207: the test on job [j]. *)
Definition is_eligible (schedule : Z -> Z) (j : Z) : bool :=
  (schedule j <? 0) && predecessors_scheduled schedule j.

(** Lines 202-208: one round of the loop over the jobs. *)
Definition note_eligible (schedule : Z -> Z) (acc : (Z -> Z) * Z) (j : Z)
  : (Z -> Z) * Z :=
  let '(eligible, neligible) := acc in
  if is_eligible schedule j
  then (upd eligible neligible j, neligible + 1)
  else (eligible, neligible).

(** Lines 201-209: the eligible jobs are written to the front of the
    buffer; the rest of the buffer keeps what it held. *)
Definition collect_eligible (schedule eligible : Z -> Z) : (Z -> Z) * Z :=
  fold_left (note_eligible schedule) (range_from 1 (njobs P)) (eligible, 0).

(** Line 213: the index of the draw [u]. *)
Definition choice (neligible : Z) (u : Q) : Z :=
  int_of_Q (u * inject_Z neligible).

(** Line 210. *)
Definition tournament (neligible : Z) : Z := Z.max (tourn_size neligible) 2.

(** Lines 211-215: [selected[0 .. nselected)], in the order it is written. *)
Definition draw_selected (eligible : Z -> Z) (neligible : Z) (c : nat) : list Z :=
  map (fun j => eligible (choice neligible (rnd (c + j))))
      (seq 0 (Z.to_nat (tournament neligible))).

(** Lines 218-226: the scan keeps the winner and its priority. *)
Definition scan_selected (selected : list Z) (start : Z * float) : Z * float :=
  fold_left
    (fun '(winner, bestPriority) sjob =>
       if PrimFloat.leb bestPriority (cpru sjob)
       then (sjob, cpru sjob)
       else (winner, bestPriority))
    selected start.

Definition pick_winner (selected : list Z) : Z :=
  fst (scan_selected selected (-1, (- DBL_MAX / 2)%float)).

(** Lines 229-233. *)
Definition initial_finish (schedule : Z -> Z) (winner : Z) : Z :=
  fold_left
    (fun finish predecessor =>
       let newFinish := schedule predecessor + durations P winner in
       if newFinish >? finish then newFinish else finish)
    (predecessors P winner) (-1).

(** Lines 263-266. *)
Definition commit (available : Z -> Z -> Z) (winner finish : Z) : Z -> Z -> Z :=
  let duration := durations P winner in
  fold_left
    (fun av k =>
       fold_left
         (fun av t =>
            upd2 av k (finish - duration + t)
                 (av k (finish - duration + t) - requests P winner k t))
         (range duration) av)
    (range (nresources P)) available.

(** Lines 199-267: one job is chosen and placed.  A scan that no sample
    passes leaves [winner = -1], which line 230 uses as an index: the step
    is a [Fault]. *)
Definition schedule_step (st : PassState) : outcome PassState :=
  let '(eligible, neligible) := collect_eligible (schedule st) (eligible st) in
  let selected := draw_selected eligible neligible (drawn st) in
  let winner := pick_winner selected in
  if winner <? 0 then Fault
  else
    let finish0 := initial_finish (schedule st) winner in
    finish <- move_finish P (finish_rounds P finish0) (available st) winner finish0 ;;
    Done {| schedule := upd (schedule st) winner finish;
            available := commit (available st) winner finish;
            eligible := eligible;
            drawn := (drawn st + length selected)%nat |}.

Fixpoint schedule_steps (n : nat) (st : PassState) : outcome PassState :=
  match n with
  | O => Done st
  | S n' => st' <- schedule_step st ;; schedule_steps n' st'
  end.

(** Lines 188-196: the start of a pass. *)
Definition reset_pass (st : PassState) : PassState :=
  {| schedule := upd (fill (njobs P) (-1) (schedule st)) 0 0;
     available := copy_grid (nresources P) (horizon P) (capacities P) (available st);
     eligible := eligible st;
     drawn := drawn st |}.

(** Lines 188-267. *)
Definition run_pass (st : PassState) : outcome PassState :=
  schedule_steps (Z.to_nat (njobs P - 1)) (reset_pass st).

(** Lines 269-272. *)
Definition keep_best (s : SolveState) (st : PassState) : SolveState :=
  if schedule st (njobs P - 1) <? bestMakespan s
  then {| pass_state := st;
          bestMakespan := schedule st (njobs P - 1);
          out := copy (njobs P) (schedule st) (out s) |}
  else {| pass_state := st; bestMakespan := bestMakespan s; out := out s |}.

(** Lines 187-273. *)
Fixpoint passes (n : nat) (s : SolveState) : outcome SolveState :=
  match n with
  | O => Done s
  | S n' => st <- run_pass (pass_state s) ;; passes n' (keep_best s st)
  end.

End Tournament.

Definition initial_state (m : Memory) : SolveState :=
  {| pass_state := {| schedule := schedule0 m; available := available0 m;
                      eligible := eligible0 m; drawn := 0 |};
     bestMakespan := INIT_MAKESPAN;
     out := fun _ => None |}.

(** [PrSolver::solve]: the content of [out[0 .. njobs)] when it returns
    [true]. *)
Definition solve (P : Problem) (m : Memory) (rnd : nat -> Q) (fuel : nat) : solve_result :=
  match (pr <- preprocess P m fuel ;;
         passes P (p_cpru pr) rnd NPASSES (initial_state m)) with
  | Done s =>
      if bestMakespan s <=? horizon P
      then Found (map (out s) (range (njobs P)))
      else NoSolution
  | Infeasible => NoSolution
  | Fault => Undefined
  | OutOfFuel => Exhausted
  end.

(** The winner of the step that starts in [st]. *)
Definition step_winner (P : Problem) (cpru : Z -> float) (rnd : nat -> Q)
           (st : PassState) : Z :=
  let '(eligible, neligible) := collect_eligible P (schedule st) (eligible st) in
  pick_winner cpru (draw_selected rnd eligible neligible (drawn st)).

(** The state in which pass number [i] (from 0) starts. *)
Definition before_pass (P : Problem) (cpru : Z -> float) (rnd : nat -> Q)
           (m : Memory) (i : nat) : outcome SolveState :=
  passes P cpru rnd i (initial_state m).

(** ** The validator ([checkValid] of Main.cc) *)

(** Lines 46-55. *)
Definition precedence_valid (P : Problem) (solution : Z -> Z) : bool :=
  forallb (fun job =>
    forallb (fun predecessor =>
               negb (solution job - durations P job <? solution predecessor))
            (predecessors P job))
    (range (njobs P)).

(** Lines 57-69; [None] once a cell of [available] has gone below zero. *)
Definition resources_valid (P : Problem) (solution : Z -> Z) : bool :=
  let step job k (av : option (Z -> Z -> Z)) t :=
    match av with
    | None => None
    | Some a =>
        let curr := solution job - durations P job + t in
        let a' := upd2 a k curr (a k curr - requests P job k t) in
        if a' k curr <? 0 then None else Some a'
    end in
  match fold_left (fun av job =>
          fold_left (fun av k => fold_left (step job k) (range (durations P job)) av)
                    (range (nresources P)) av)
          (range (njobs P)) (Some (capacities P)) with
  | Some _ => true
  | None => false
  end.

Definition checkValid (P : Problem) (solution : Z -> Z) : bool :=
  precedence_valid P solution && resources_valid P solution.

(** ** What the schedules are checked against *)

(** The demand on resource [k] at time [t] of the jobs that run at [t] when
    job [j] finishes at [fin j]. *)
Definition request_at (P : Problem) (fin : Z -> Z) (k t j : Z) : Z :=
  if (fin j - durations P j <=? t) && (t <? fin j)
  then requests P j k (t - (fin j - durations P j))
  else 0.

Definition sumZ (l : list Z) : Z := fold_right Z.add 0 l.

Definition load (P : Problem) (fin : Z -> Z) (k t : Z) : Z :=
  sumZ (map (request_at P fin k t) (range (njobs P))).

(** ** The data-model invariants, as checks on an instance *)

Definition nonempty {A : Type} (l : list A) : bool :=
  match l with [] => false | _ :: _ => true end.

Definition all_jobs (P : Problem) (f : Z -> bool) : bool :=
  forallb f (range (njobs P)).

(** Precedence is acyclic: [rk] ranks every job above its predecessors. *)
Definition acyclic (P : Problem) (rk : Z -> nat) : bool :=
  all_jobs P (fun j =>
    forallb (fun p => in_range (njobs P) p && Nat.ltb (rk p) (rk j))
            (predecessors P j)).

(** Job 0 is the only job without predecessors. *)
Definition single_source (P : Problem) : bool :=
  (2 <=? njobs P) && negb (nonempty (predecessors P 0))
  && forallb (fun j => nonempty (predecessors P j)) (range_from 1 (njobs P)).

(** Job [njobs - 1] is the only job without successors, and ranks highest. *)
Definition single_sink (P : Problem) (rk : Z -> nat) : bool :=
  forallb (fun j => nonempty (succ_list P j)) (range (njobs P - 1))
  && all_jobs P (fun j => Nat.leb (rk j) (rk (njobs P - 1))).

(** The successor arrays and the predecessor vectors hold the same arcs. *)
Definition linked (P : Problem) : bool :=
  all_jobs P (fun j =>
    forallb (fun p => existsb (Z.eqb j) (succ_list P p)) (predecessors P j)
    && forallb (fun s => in_range (njobs P) s
                         && existsb (Z.eqb j) (predecessors P s))
               (succ_list P j)).

Definition durations_ok (P : Problem) : bool :=
  all_jobs P (fun j => 0 <=? durations P j).

(** The source and the sink take no time. *)
Definition dummy_ends (P : Problem) : bool :=
  (durations P 0 =? 0) && (durations P (njobs P - 1) =? 0).

Definition capacities_ok (P : Problem) : bool :=
  forallb (fun k => forallb (fun t => 0 <=? capacities P k t) (range (horizon P)))
          (range (nresources P)).

(** A draw lies in [0, 1). *)
Definition unit_draws (rnd : nat -> Q) : Prop :=
  forall i, (0 <= rnd i)%Q /\ (rnd i < 1)%Q.

(** ** The utilisation formula of the specification *)

Local Open Scope float_scope.

(** The formula of section 4.3 of the specification, in its words, to
    compare with [ru_body]: the scores of the successors are read at the
    ids of the successors. *)
Definition ru_formula (P : Problem) (ef ls : Z -> Z) (ru : Z -> float) (j : Z) : float :=
  let '(demand, availability) := demand_availability P ef ls j in
  fold_left (fun acc s => acc + OMEGA2 * ru s) (succ_list P j)
            (OMEGA1 * ((double_of_int (nsuccessors P j) / double_of_int (nresources P))
                       * (double_of_int demand / double_of_int availability))).

Local Close Scope float_scope.

(** ** Instances *)

Definition nthZ {A : Type} (d : A) (l : list A) (i : Z) : A :=
  if i <? 0 then d else nth (Z.to_nat i) l d.

Definition len {A : Type} (l : list A) : Z := Z.of_nat (length l).

(** An instance from its rows: durations, successor lists, requests
    [job][resource][offset] and capacities [resource][time].  The parser is
    not among the sources; the predecessor vectors are derived here from the
    successor lists, in increasing order of the jobs. *)
Definition instance (hor : Z) (durs : list Z) (succs : list (list Z))
           (reqs : list (list (list Z))) (caps : list (list Z)) : Problem :=
  {| njobs := len durs;
     horizon := hor;
     nresources := len caps;
     nsuccessors := fun j => len (nthZ [] succs j);
     successors := fun j i => nthZ 0 (nthZ [] succs j) i;
     predecessors := fun j =>
       filter (fun p => existsb (Z.eqb j) (nthZ [] succs p)) (range (len durs));
     durations := nthZ 0 durs;
     requests := fun j k t => nthZ 0 (nthZ [] (nthZ [] reqs j) k) t;
     capacities := fun k t => nthZ 0 (nthZ [] caps k) t |}.

Definition zero_memory : Memory :=
  {| ef0 := fun _ => 0; ls0 := fun _ => 0;
     ru0 := fun _ => 0%float; cpru0 := fun _ => 0%float;
     available0 := fun _ _ => 0; eligible0 := fun _ => 0;
     schedule0 := fun _ => 0 |}.

Definition rank_by_index (j : Z) : nat := Z.to_nat j.

(** Draws: the index 0 first, the index in the middle from then on. *)
Definition first_then_middle (changes : nat) (i : nat) : Q :=
  if (i <? changes)%nat then 0%Q else (1 # 2)%Q.

(** Source, one job of five periods, sink; no resource. *)
Definition chain3 : Problem :=
  instance 10 [0; 5; 0] [[1]; [2]; []] [[]; []; []] [].

(** Source, one job of two periods that needs one unit, sink; the resource
    offers one unit in periods 1 and 2 only. *)
Definition window3 (hor : Z) : Problem :=
  instance hor [0; 2; 0] [[1]; [2]; []] [[[]]; [[1; 1]]; [[]]] [[0; 1; 1; 0; 0; 0]].

(** Two jobs of three periods between source and sink, one unit of one
    resource each, one unit offered in every period. *)
Definition diamond : Problem :=
  instance 8 [0; 3; 3; 0] [[1; 2]; [3]; [3]; []]
           [[[]]; [[1; 1; 1]]; [[1; 1; 1]]; [[]]] [[1; 1; 1; 1; 1; 1; 1; 1]].

(** A chain of two jobs of one period that need the one unit offered in
    every period. *)
Definition chain4 : Problem :=
  instance 4 [0; 1; 1; 0] [[1]; [2]; [3]; []]
           [[[]]; [[1]]; [[1]]; [[]]] [[1; 1; 1; 1]].

(** One job as long as the initial [bestMakespan], no resource. *)
Definition long_job : Problem :=
  instance INIT_MAKESPAN [0; INIT_MAKESPAN; 0] [[1]; [2]; []] [[]; []; []] [].

(** Fresh memory in which the cells of [ru] hold the bits of [+infinity]. *)
Definition hot_memory : Memory :=
  {| ef0 := fun _ => 0; ls0 := fun _ => 0;
     ru0 := fun _ => infinity; cpru0 := fun _ => 0%float;
     available0 := fun _ _ => 0; eligible0 := fun _ => 0;
     schedule0 := fun _ => 0 |}.

(** Three jobs in a chain that take no time and request nothing. *)
Definition idle3 : Problem :=
  instance 1 [0; 0; 0] [[1]; [2]; []] [[[]]; [[]]; [[]]] [[1]].


(** Job 1 takes one period and both units of period 0; job 2 takes two
    periods and one unit in each. *)
Definition squeeze : Problem :=
  instance 3 [0; 1; 2; 0] [[1; 2]; [3]; [3]; []]
           [[[]]; [[2]]; [[1; 1]]; [[]]] [[2; 1; 1]].

(** ** When preprocessing gives up *)

(** The loop of lines 67-82 drives [ef[job]] above the horizon: no finish
    from [ef[job]] up to the horizon fits. *)
Definition ef_overrun (P : Problem) (ef : Z -> Z) (job : Z) : Prop :=
  forall x, ef job <= x <= horizon P -> fits_finish P (capacities P) job x = false.

(** The loop of lines 108-124 drives [ls[job]] below zero. *)
Definition ls_underrun (P : Problem) (ls : Z -> Z) (job : Z) : Prop :=
  forall x, 0 <= x <= ls job -> fits_start P (capacities P) job x = false.


(** ** Invariants of the preprocessing passes *)

(** What holds of the popped jobs [D], the queue [q] and [ef] all along the
    earliest-finish pass. *)
Definition ef_inv (P : Problem) (D q : list Z) (ef : Z -> Z) : Prop :=
  (forall x, 0 <= x < njobs P -> 0 <= ef x) /\
  (forall j, In j (q ++ D) -> 0 <= j < njobs P /\ durations P j <= ef j) /\
  In 0 (q ++ D) /\
  (forall j s, In j D -> In s (succ_list P j) -> In s (q ++ D)).

(** The same for the latest-start pass. *)
Definition ls_inv (P : Problem) (D q : list Z) (ls : Z -> Z) : Prop :=
  (forall x, 0 <= x < njobs P -> ls x <= horizon P) /\
  (forall j, In j (q ++ D) -> 0 <= j < njobs P /\ ls j + durations P j <= horizon P) /\
  In (njobs P - 1) (q ++ D) /\
  (forall j p, In j D -> In p (predecessors P j) -> In p (q ++ D)).


(** ** The eligible jobs and the invariants of a pass *)

(** The eligible jobs, in the order the loop of line 202 finds them. *)
Definition eligible_jobs (P : Problem) (schedule : Z -> Z) : list Z :=
  filter (is_eligible P schedule) (range_from 1 (njobs P)).

(** The jobs [placed] so far are exactly the jobs with a finish time, and
    every one of them starts after its predecessors have finished. *)
Definition sched_inv (P : Problem) (placed : list Z) (schedule : Z -> Z) : Prop :=
  NoDup placed /\
  In 0 placed /\
  (forall j, 0 <= j < njobs P -> (0 <= schedule j <-> In j placed)) /\
  (forall j, In j placed -> 0 <= j < njobs P) /\
  (forall j p, In j placed -> In p (predecessors P j) ->
               In p placed /\ schedule p + durations P j <= schedule j).

(** What is left of every capacity is not negative, and is the capacity
    minus the requests of the placed jobs. *)
Definition avail_inv (P : Problem) (placed : list Z) (schedule : Z -> Z)
           (available : Z -> Z -> Z) : Prop :=
  forall k t, 0 <= k < nresources P -> 0 <= t < horizon P ->
    0 <= available k t /\
    available k t + sumZ (map (request_at P schedule k t) placed) = capacities P k t.

(** A complete schedule that respects precedence and capacities. *)
Definition valid_schedule (P : Problem) (fin : Z -> Z) : Prop :=
  (forall j, 0 <= j < njobs P -> 0 <= fin j) /\
  (forall j p, 0 <= j < njobs P -> In p (predecessors P j) ->
               fin p <= fin j - durations P j) /\
  (capacities_ok P = true ->
   forall k t, 0 <= k < nresources P -> 0 <= t < horizon P ->
               load P fin k t <= capacities P k t).


(** After [i] steps of a pass, [i + 1] jobs are placed. *)
Definition step_inv (P : Problem) (i : nat) (st : PassState) : Prop :=
  exists placed,
    sched_inv P placed (schedule st) /\
    length placed = S i /\
    (capacities_ok P = true -> avail_inv P placed (schedule st) (available st)).



(** ** The utilisation scores *)

(** A score that the test of line 159 lets through: a number that is not
    below zero. *)
Definition clamped (x : float) : Prop :=
  PrimFloat.is_nan x = false /\ PrimFloat.ltb x 0%float = false.

Definition ru_inv (P : Problem) (D q : list Z) (ru : Z -> float) : Prop :=
  (forall j, In j D -> clamped (ru j)) /\
  In (njobs P - 1) (q ++ D) /\
  (forall j p, In j D -> In p (predecessors P j) -> In p (q ++ D)).


(** ** The pops of a traversal *)





(** ** The validator, step by step *)

(** Lines 61-66 of Main.cc: one cell is charged and tested. *)
Definition check_cell (P : Problem) (solution : Z -> Z) (job k : Z)
           (av : option (Z -> Z -> Z)) (t : Z) : option (Z -> Z -> Z) :=
  match av with
  | None => None
  | Some a =>
      let curr := solution job - durations P job + t in
      let a' := upd2 a k curr (a k curr - requests P job k t) in
      if a' k curr <? 0 then None else Some a'
  end.

(** Lines 59-68 of Main.cc: the cells of one job. *)
Definition check_job (P : Problem) (solution : Z -> Z)
           (av : option (Z -> Z -> Z)) (job : Z) : option (Z -> Z -> Z) :=
  fold_left (fun av k =>
               fold_left (check_cell P solution job k) (range (durations P job)) av)
            (range (nresources P)) av.

(** Lines 57-69 of Main.cc, over the jobs [l]. *)
Definition check_jobs (P : Problem) (solution : Z -> Z) (l : list Z)
           (av : option (Z -> Z -> Z)) : option (Z -> Z -> Z) :=
  fold_left (check_job P solution) l av.

(** No request is negative. *)
Definition requests_ok (P : Problem) : bool :=
  all_jobs P (fun j =>
    forallb (fun k => forallb (fun t => 0 <=? requests P j k t)
                              (range (durations P j)))
            (range (nresources P))).

(** Every job that takes time runs within the horizon. *)
Definition runs_within (P : Problem) (fin : Z -> Z) : Prop :=
  forall j, 0 <= j < njobs P -> 0 < durations P j ->
            0 <= fin j - durations P j /\ fin j <= horizon P.


(** ** What a call leaves in [out] *)

(** What a finished pass leaves in [schedule]: a valid schedule in which the
    source finishes at 0 and no job finishes after the horizon. *)
Definition pass_schedule (P : Problem) (fin : Z -> Z) : Prop :=
  valid_schedule P fin /\ fin 0 = 0 /\
  forall j, 0 <= j < njobs P -> fin j <= horizon P.

(** [out] is not written, or holds the schedule of a finished pass. *)
Definition result_inv (P : Problem) (s : SolveState) : Prop :=
  (forall j, 0 <= j < njobs P -> out s j = None) \/
  exists fin, pass_schedule P fin /\
              forall j, 0 <= j < njobs P -> out s j = Some (fin j).

(** The schedule that pass number [i] (from 0) builds. *)
Definition nth_pass (P : Problem) (cpru : Z -> float) (rnd : nat -> Q)
           (m : Memory) (i : nat) : outcome PassState :=
  s <- before_pass P cpru rnd m i ;; run_pass P cpru rnd (pass_state s).


(** ** Fixed points of the time-window passes *)

(** Nothing is left to do for [j] in the earliest-finish pass: its finish
    fits the capacities within the horizon and every successor finishes a
    duration later at least. *)
Definition ef_settled (P : Problem) (ef : Z -> Z) (j : Z) : Prop :=
  fits_finish P (capacities P) j (ef j) = true /\
  ef j <= horizon P /\
  forall s, In s (succ_list P j) -> ef j + durations P s <= ef s.

(** The same for the latest-start pass. *)
Definition ls_settled (P : Problem) (ls : Z -> Z) (j : Z) : Prop :=
  fits_start P (capacities P) j (ls j) = true /\
  0 <= ls j /\
  forall p, In p (predecessors P j) -> ls p <= ls j - durations P p.

(** A popped job is settled, or back in the queue. *)
Definition ef_fix_inv (P : Problem) (D q : list Z) (ef : Z -> Z) : Prop :=
  ef_inv P D q ef /\ forall j, In j D -> ef_settled P ef j \/ In j q.

Definition ls_fix_inv (P : Problem) (D q : list Z) (ls : Z -> Z) : Prop :=
  ls_inv P D q ls /\ forall j, In j D -> ls_settled P ls j \/ In j q.

(** The queue holds jobs, and [ef] stays at or below the finish times [g]. *)
Definition ef_below (P : Problem) (g : Z -> Z) (D q : list Z) (ef : Z -> Z) : Prop :=
  (forall j, In j q -> 0 <= j < njobs P) /\
  forall j, 0 <= j < njobs P -> ef j <= g j.

(** The queue holds jobs, and [ls] stays at or above the starts [g]. *)
Definition ls_above (P : Problem) (g : Z -> Z) (D q : list Z) (ls : Z -> Z) : Prop :=
  (forall j, In j q -> 0 <= j < njobs P) /\
  forall j, 0 <= j < njobs P -> g j <= ls j.


(** ** Two runs side by side *)

(** Two runs end the same way, with results related by [R]. *)
Definition same_outcome {A : Type} (R : A -> A -> Prop) (x y : outcome A) : Prop :=
  match x, y with
  | Done a, Done b => R a b
  | Infeasible, Infeasible => True
  | Fault, Fault => True
  | OutOfFuel, OutOfFuel => True
  | _, _ => False
  end.

(** Two arrays hold the same in their first [n] cells. *)
Definition agree {A : Type} (n : Z) (f g : Z -> A) : Prop :=
  forall j, 0 <= j < n -> f j = g j.

Definition agree_grid (P : Problem) (a b : Z -> Z -> Z) : Prop :=
  forall k t, 0 <= k < nresources P -> 0 <= t < horizon P -> a k t = b k t.

(** Two passes have placed the same jobs at the same times and have taken
    as many draws; the cells of [eligible] are not compared. *)
Definition same_pass (P : Problem) (st st2 : PassState) : Prop :=
  agree (njobs P) (schedule st) (schedule st2) /\
  agree_grid P (available st) (available st2) /\
  drawn st = drawn st2.

Definition same_solve (P : Problem) (s s2 : SolveState) : Prop :=
  drawn (pass_state s) = drawn (pass_state s2) /\
  bestMakespan s = bestMakespan s2 /\
  agree (njobs P) (out s) (out s2).

(** Memory that differs from [zero_memory] in every array but [ru]. *)
Definition stale_memory : Memory :=
  {| ef0 := fun _ => 7; ls0 := fun _ => -3;
     ru0 := fun _ => 0%float; cpru0 := fun _ => infinity;
     available0 := fun _ _ => -1; eligible0 := fun _ => 99;
     schedule0 := fun _ => 5 |}.


(** ** The driver ([main] and [findInstancesAndSolveAll] of Main.cc) *)

(** The array [result] after [solve] has returned [true]: the cells that
    [solve] has written, and in the others what [new int[njobs]] had left
    there. *)
Definition result_array (result0 : Z -> Z) (out : list (option Z)) : Z -> Z :=
  fun j => match nthZ None out j with Some v => v | None => result0 j end.

(** What is reported for an instance. *)
Inductive report : Type :=
| Makespan (makespan : Z) (valid : bool)
| NoFeasible.

(** Lines 94-105 and 134-143 of Main.cc: the instance is solved, the cell
    [result[njobs - 1]] is reported as the makespan and the array is handed
    to [checkValid]; [None] where [solve] has no defined result. *)
Definition run_instance (P : Problem) (m : Memory) (rnd : nat -> Q) (fuel : nat)
           (result0 : Z -> Z) : option report :=
  match solve P m rnd fuel with
  | Found out =>
      let result := result_array result0 out in
      Some (Makespan (result (njobs P - 1)) (checkValid P result))
  | NoSolution => Some NoFeasible
  | Undefined => None
  | Exhausted => None
  end.


(** ** Signs of doubles *)

(** A double that is not below zero: NaN, a zero of either sign, a positive
    number or [+infinity]. *)
Definition not_negative (x : spec_float) : Prop :=
  match x with
  | S754_infinity true => False
  | S754_finite true _ _ => False
  | _ => True
  end.

(** * Properties *)

(** ** Ranges and arrays *)

Lemma in_range_iff (n i : Z) : in_range n i = true <-> 0 <= i < n.
Proof. unfold in_range. rewrite andb_true_iff, Z.leb_le, Z.ltb_lt. tauto. Qed.

Lemma In_range_from (lo hi x : Z) : In x (range_from lo hi) <-> lo <= x < hi.
Proof.
  unfold range_from. rewrite in_map_iff. split.
  - intros (i & <- & Hi). apply in_seq in Hi. lia.
  - intros H. exists (Z.to_nat (x - lo)). split; [lia|]. apply in_seq. lia.
Qed.

Lemma In_range (n x : Z) : In x (range n) <-> 0 <= x < n.
Proof. apply In_range_from. Qed.

Lemma NoDup_range_from (lo hi : Z) : NoDup (range_from lo hi).
Proof.
  unfold range_from. apply Finite.Injective_map_NoDup_in.
  - intros a b _ _ H. lia.
  - apply seq_NoDup.
Qed.

Lemma length_range (n : Z) : length (range n) = Z.to_nat n.
Proof. unfold range, range_from. rewrite length_map, length_seq. f_equal. lia. Qed.

Lemma range_from_cons (lo hi : Z) :
  lo < hi -> range_from lo hi = lo :: range_from (lo + 1) hi.
Proof.
  intros H. unfold range_from.
  replace (Z.to_nat (hi - lo)) with (S (Z.to_nat (hi - (lo + 1)))) by lia.
  cbn [seq map]. f_equal; [lia|].
  rewrite <- seq_shift, map_map. apply map_ext. intros a. lia.
Qed.

Lemma range_from_nil (lo hi : Z) : hi <= lo -> range_from lo hi = [].
Proof.
  intros H. unfold range_from. replace (Z.to_nat (hi - lo)) with O by lia. reflexivity.
Qed.

Lemma upd_same {A : Type} (a : Z -> A) (i : Z) (v : A) : upd a i v i = v.
Proof. unfold upd. now rewrite Z.eqb_refl. Qed.

Lemma upd_other {A : Type} (a : Z -> A) (i x : Z) (v : A) :
  x <> i -> upd a i v x = a x.
Proof. intros H. unfold upd. apply Z.eqb_neq in H. now rewrite H. Qed.

Lemma forallb_In {A : Type} (f : A -> bool) (l : list A) (x : A) :
  forallb f l = true -> In x l -> f x = true.
Proof. intros H. rewrite forallb_forall in H. auto. Qed.

Lemma all_jobs_at (P : Problem) (f : Z -> bool) (j : Z) :
  all_jobs P f = true -> 0 <= j < njobs P -> f j = true.
Proof. intros H Hj. apply (forallb_In _ _ _ H). now apply In_range. Qed.

(** ** The feasibility loops *)

Section FeasibilityFacts.
Variable P : Problem.
Variable grid : Z -> Z -> Z.
Variable job : Z.

Lemma fits_finish_iff (e : Z) :
  fits_finish P grid job e = true <->
  forall k t, 0 <= k < nresources P -> 0 <= t < durations P job ->
              requests P job k t <= grid k (e - durations P job + t).
Proof.
  unfold fits_finish. rewrite forallb_forall. split.
  - intros H k t Hk Ht. apply In_range in Hk. specialize (H k Hk).
    rewrite forallb_forall in H.
    assert (Hin : In t (rev (range (durations P job))))
      by (apply -> in_rev; now apply In_range).
    specialize (H t Hin). apply negb_true_iff in H. lia.
  - intros H k Hk. apply In_range in Hk. apply forallb_forall. intros t Ht.
    apply in_rev in Ht. apply In_range in Ht.
    specialize (H k t Hk Ht). apply negb_true_iff. lia.
Qed.

Lemma fits_start_iff (s : Z) :
  fits_start P grid job s = true <->
  forall k t, 0 <= k < nresources P -> 0 <= t < durations P job ->
              requests P job k t <= grid k (s + t).
Proof.
  unfold fits_start. rewrite forallb_forall. split.
  - intros H k t Hk Ht. apply In_range in Hk. specialize (H k Hk).
    rewrite forallb_forall in H. apply In_range in Ht.
    specialize (H t Ht). apply negb_true_iff in H. lia.
  - intros H k Hk. apply In_range in Hk. apply forallb_forall. intros t Ht.
    apply In_range in Ht.
    specialize (H k t Hk Ht). apply negb_true_iff. lia.
Qed.

(** The loop stops at the first finish that fits, from [e] upwards. *)
Lemma move_finish_done (fuel : nat) (e r : Z) :
  move_finish P fuel grid job e = Done r ->
  e <= r <= horizon P /\ fits_finish P grid job r = true /\
  forall x, e <= x < r -> fits_finish P grid job x = false.
Proof.
  revert e. induction fuel as [|fuel IH]; intros e; cbn [move_finish]; [discriminate|].
  destruct (fits_finish P grid job e) eqn:Hfit.
  - destruct (e >? horizon P) eqn:Hh; [discriminate|].
    intros [= <-]. split; [lia|]. split; [auto|]. intros x Hx. lia.
  - destruct (e + 1 >? horizon P) eqn:Hh; [discriminate|].
    intros H. apply IH in H. destruct H as (Hr & Hf & Hmin).
    split; [lia|]. split; [auto|].
    intros x Hx. destruct (Z.eq_dec x e) as [->|Hne]; auto. apply Hmin. lia.
Qed.

(** It leaves [solve] only when no finish from [e] to the horizon fits. *)
Lemma move_finish_infeasible (fuel : nat) (e : Z) :
  move_finish P fuel grid job e = Infeasible ->
  forall x, e <= x <= horizon P -> fits_finish P grid job x = false.
Proof.
  revert e. induction fuel as [|fuel IH]; intros e; cbn [move_finish]; [discriminate|].
  destruct (fits_finish P grid job e) eqn:Hfit.
  - destruct (e >? horizon P) eqn:Hh; [|discriminate]. intros _ x Hx. lia.
  - destruct (e + 1 >? horizon P) eqn:Hh.
    + intros _ x Hx. assert (x = e) by lia. now subst.
    + intros H x Hx. destruct (Z.eq_dec x e) as [->|Hne]; [auto|].
      apply (IH _ H x). lia.
Qed.

Lemma move_finish_rounds (fuel : nat) (e : Z) :
  (Z.to_nat (horizon P - e) < fuel)%nat ->
  move_finish P fuel grid job e <> OutOfFuel.
Proof.
  revert e. induction fuel as [|fuel IH]; intros e Hf; [lia|]. cbn [move_finish].
  destruct (fits_finish P grid job e).
  - destruct (e >? horizon P); discriminate.
  - destruct (e + 1 >? horizon P) eqn:Hh; [discriminate|]. apply IH. lia.
Qed.

Lemma move_finish_no_fault (fuel : nat) (e : Z) :
  move_finish P fuel grid job e <> Fault.
Proof.
  revert e. induction fuel as [|fuel IH]; intros e; cbn [move_finish]; [discriminate|].
  destruct (fits_finish P grid job e).
  - destruct (e >? horizon P); discriminate.
  - destruct (e + 1 >? horizon P); [discriminate|]. apply IH.
Qed.

(** With the rounds [solve] can need, the loop leaves [solve] if no finish
    up to the horizon fits. *)
Lemma move_finish_none (e : Z) :
  (forall x, e <= x <= horizon P -> fits_finish P grid job x = false) ->
  move_finish P (finish_rounds P e) grid job e = Infeasible.
Proof.
  intros Hno.
  destruct (move_finish P (finish_rounds P e) grid job e) as [r| | |] eqn:H; auto.
  - apply move_finish_done in H. destruct H as (Hr & Hf & _).
    rewrite Hno in Hf by lia. discriminate.
  - now apply move_finish_no_fault in H.
  - apply move_finish_rounds in H; [easy|]. unfold finish_rounds. lia.
Qed.

Lemma move_start_done (fuel : nat) (s r : Z) :
  move_start P fuel grid job s = Done r ->
  0 <= r <= s /\ fits_start P grid job r = true /\
  forall x, r < x <= s -> fits_start P grid job x = false.
Proof.
  revert s. induction fuel as [|fuel IH]; intros s; cbn [move_start]; [discriminate|].
  destruct (fits_start P grid job s) eqn:Hfit.
  - destruct (s <? 0) eqn:Hh; [discriminate|].
    intros [= <-]. split; [lia|]. split; [auto|]. intros x Hx. lia.
  - destruct (s - 1 <? 0) eqn:Hh; [discriminate|].
    intros H. apply IH in H. destruct H as (Hr & Hf & Hmin).
    split; [lia|]. split; [auto|].
    intros x Hx. destruct (Z.eq_dec x s) as [->|Hne]; auto. apply Hmin. lia.
Qed.

Lemma move_start_rounds (fuel : nat) (s : Z) :
  (Z.to_nat s < fuel)%nat -> move_start P fuel grid job s <> OutOfFuel.
Proof.
  revert s. induction fuel as [|fuel IH]; intros s Hf; [lia|]. cbn [move_start].
  destruct (fits_start P grid job s).
  - destruct (s <? 0); discriminate.
  - destruct (s - 1 <? 0) eqn:Hh; [discriminate|]. apply IH. lia.
Qed.

Lemma move_start_no_fault (fuel : nat) (s : Z) :
  move_start P fuel grid job s <> Fault.
Proof.
  revert s. induction fuel as [|fuel IH]; intros s; cbn [move_start]; [discriminate|].
  destruct (fits_start P grid job s).
  - destruct (s <? 0); discriminate.
  - destruct (s - 1 <? 0); [discriminate|]. apply IH.
Qed.

Lemma move_start_none (s : Z) :
  (forall x, 0 <= x <= s -> fits_start P grid job x = false) ->
  move_start P (start_rounds s) grid job s = Infeasible.
Proof.
  intros Hno.
  destruct (move_start P (start_rounds s) grid job s) as [r| | |] eqn:H; auto.
  - apply move_start_done in H. destruct H as (Hr & Hf & _).
    rewrite Hno in Hf by lia. discriminate.
  - now apply move_start_no_fault in H.
  - apply move_start_rounds in H; [easy|]. unfold start_rounds. lia.
Qed.

End FeasibilityFacts.

(** ** Breadth-first traversal *)

Section BfsFacts.
Context {St : Type}.
Variable body : Z -> St -> outcome (St * list Z).

(** An invariant over the popped jobs, the queue and the state that every
    pop keeps holds when the queue is empty. *)
Lemma bfs_invariant (Inv : list Z -> list Z -> St -> Prop) :
  (forall D job q st st' pushed,
      Inv D (job :: q) st -> body job st = Done (st', pushed) ->
      Inv (job :: D) (q ++ pushed) st') ->
  forall fuel D q st st',
    Inv D q st -> bfs body fuel q st = Done st' -> exists D', Inv D' [] st'.
Proof.
  intros Hstep fuel. induction fuel as [|fuel IH]; intros D q st st' HI Hrun.
  - destruct q; [|discriminate]. injection Hrun as <-. eauto.
  - destruct q as [|job q]; cbn [bfs] in Hrun.
    + injection Hrun as <-. eauto.
    + destruct (body job st) as [[st1 pushed]| | |] eqn:Hb; try discriminate.
      cbn [bind] in Hrun. eapply IH; [|exact Hrun]. eapply Hstep; eauto.
Qed.

(** A pop that leaves [solve] ends the traversal the same way. *)
Lemma bfs_after_infeasible (n : nat) :
  forall fuel q0 st0 job q st,
    bfs_after body n q0 st0 = Some (job :: q, st) ->
    body job st = Infeasible -> (n < fuel)%nat ->
    bfs body fuel q0 st0 = Infeasible.
Proof.
  induction n as [|n IH]; intros fuel q0 st0 job q st Hafter Hb Hf.
  - injection Hafter as -> ->. destruct fuel; [lia|]. cbn [bfs]. now rewrite Hb.
  - cbn [bfs_after] in Hafter. destruct q0 as [|j0 q0]; [discriminate|].
    destruct (body j0 st0) as [[st1 pushed]| | |] eqn:Hb0; try discriminate.
    destruct fuel; [lia|]. cbn [bfs]. rewrite Hb0. cbn [bind].
    eapply IH; eauto. lia.
Qed.
End BfsFacts.

(** ** Preprocessing gives up *)

Lemma ef_body_infeasible (P : Problem) (job : Z) (ef : Z -> Z) :
  ef_body P job ef = Infeasible <-> ef_overrun P ef job.
Proof.
  unfold ef_body, ef_overrun. split.
  - intros H.
    destruct (move_finish P (finish_rounds P (ef job)) (capacities P) job (ef job))
      eqn:Hm; try discriminate.
    now apply move_finish_infeasible with (fuel := finish_rounds P (ef job)).
  - intros H. now rewrite move_finish_none.
Qed.

Lemma move_start_infeasible (P : Problem) (grid : Z -> Z -> Z) (job : Z) (fuel : nat) :
  forall s, move_start P fuel grid job s = Infeasible ->
            forall x, 0 <= x <= s -> fits_start P grid job x = false.
Proof.
  induction fuel as [|fuel IH]; intros s; cbn [move_start]; [discriminate|].
  destruct (fits_start P grid job s) eqn:Hfit.
  - destruct (s <? 0) eqn:Hh; [|discriminate]. intros _ x Hx. lia.
  - destruct (s - 1 <? 0) eqn:Hh.
    + intros _ x Hx. assert (x = s) by lia. now subst.
    + intros H x Hx. destruct (Z.eq_dec x s) as [->|Hne]; [auto|].
      apply (IH _ H x). lia.
Qed.

Lemma ls_body_infeasible (P : Problem) (job : Z) (ls : Z -> Z) :
  ls_body P job ls = Infeasible <-> ls_underrun P ls job.
Proof.
  unfold ls_body, ls_underrun. split.
  - intros H.
    destruct (move_start P (start_rounds (ls job)) (capacities P) job (ls job))
      eqn:Hm; try discriminate.
    now apply move_start_infeasible with (fuel := start_rounds (ls job)).
  - intros H. now rewrite move_start_none.
Qed.

(** C9. If the earliest-finish pass drives some [ef[job]] above the horizon,
    or the latest-start pass drives some [ls[job]] below zero, preprocessing
    ends with [return false]: [solve] reports no solution whatever the random
    draws are, and no tournament pass is run. *)
Theorem preprocessing_abort
        (P : Problem) (m : Memory) (rnd : nat -> Q) (fuel n : nat) (job : Z) (q : list Z) :
  (n < fuel)%nat ->
  (exists ef,
      bfs_after (ef_body P) n [0] (fill (njobs P) 0 (ef0 m)) = Some (job :: q, ef) /\
      ef_overrun P ef job)
  \/ (exists ef ls,
         ef_pass P m fuel = Done ef /\
         bfs_after (ls_body P) n [njobs P - 1] (fill (njobs P) (horizon P) (ls0 m))
         = Some (job :: q, ls) /\
         ls_underrun P ls job) ->
  preprocess P m fuel = Infeasible /\ solve P m rnd fuel = NoSolution.
Proof.
  intros Hn H.
  assert (Hpre : preprocess P m fuel = Infeasible).
  { unfold preprocess. destruct H as [(ef & Hafter & Hover)|(ef & ls & Hef & Hafter & Hunder)].
    - unfold ef_pass.
      rewrite (bfs_after_infeasible _ n fuel _ _ _ _ _ Hafter); auto.
      now apply ef_body_infeasible.
    - rewrite Hef. cbn [bind]. unfold ls_pass.
      rewrite (bfs_after_infeasible _ n fuel _ _ _ _ _ Hafter); auto.
      now apply ls_body_infeasible. }
  split; [exact Hpre|]. unfold solve. now rewrite Hpre.
Qed.

Lemma preprocessing_abort_witness :
  preprocess (window3 2) zero_memory 5 = Infeasible /\
  solve (window3 2) zero_memory (fun _ => 0%Q) 5 = NoSolution.
Proof.
  apply (preprocessing_abort (window3 2) zero_memory (fun _ => 0%Q) 5 1 1 []).
  - lia.
  - left. eexists. split.
    + vm_compute. reflexivity.
    + intros x Hx. assert (x = 2) as -> by (cbn in Hx; lia). vm_compute. reflexivity.
Defined.

(** ** The bounds of the preprocessing passes *)


Section LsBounds.
Variable P : Problem.
Variable rk : Z -> nat.
Hypothesis Hacyclic : acyclic P rk = true.

Lemma predecessor_ranked (j p : Z) :
  0 <= j < njobs P -> In p (predecessors P j) ->
  0 <= p < njobs P /\ (rk p < rk j)%nat.
Proof.
  intros Hj Hp. pose proof (all_jobs_at _ _ _ Hacyclic Hj) as H. cbn beta in H.
  pose proof (forallb_In _ _ _ H Hp) as H1. cbn beta in H1.
  apply andb_true_iff in H1. destruct H1 as [H1 H2].
  apply in_range_iff in H1. apply Nat.ltb_lt in H2. auto.
Qed.

Lemma lower_predecessors_spec (job : Z) (l : list Z) :
  forall ls pushed ls' pushed',
    fold_left (lower_predecessor P job) l (ls, pushed) = (ls', pushed') ->
    ls job <= horizon P ->
    pushed' = pushed ++ l /\
    (forall x, ls' x <= ls x) /\
    (forall p, In p l -> ls' p + durations P p <= horizon P).
Proof.
  induction l as [|p l IH]; intros ls pushed ls' pushed' H Hjob; cbn [fold_left] in H.
  - injection H as <- <-. rewrite app_nil_r. repeat split; auto; try lia. intros p [].
  - cbn [lower_predecessor] in H.
    set (ls1 := if ls job - durations P p <? ls p
                then upd ls p (ls job - durations P p) else ls) in H.
    assert (Hmono : forall x, ls1 x <= ls x).
    { intros x. unfold ls1. destruct (ls job - durations P p <? ls p) eqn:Hc; [|lia].
      unfold upd. destruct (x =? p) eqn:Hx; [|lia]. apply Z.eqb_eq in Hx. subst. lia. }
    assert (Hp : ls1 p + durations P p <= horizon P).
    { unfold ls1.
      destruct (ls job - durations P p <? ls p) eqn:Hc; [rewrite upd_same|]; lia. }
    apply IH in H; [|specialize (Hmono job); lia].
    destruct H as (-> & Hm & Hl). rewrite <- app_assoc. split; [reflexivity|].
    split.
    + intros x. specialize (Hmono x). specialize (Hm x). lia.
    + intros p' [<-|Hin]; [specialize (Hm p); lia | auto].
Qed.

Lemma ls_inv_step (D : list Z) (job : Z) (q : list Z) (ls ls' : Z -> Z) (pushed : list Z) :
  ls_inv P D (job :: q) ls -> ls_body P job ls = Done (ls', pushed) ->
  ls_inv P (job :: D) (q ++ pushed) ls'.
Proof.
  intros (Hhor & Hdur & Hsink & Hcl) Hb. unfold ls_body in Hb.
  destruct (move_start P (start_rounds (ls job)) (capacities P) job (ls job))
    as [s| | |] eqn:Hm; try discriminate.
  cbn [bind] in Hb. injection Hb as Hb.
  apply move_start_done in Hm. destruct Hm as ([_ Hs] & _).
  destruct (Hdur job (or_introl eq_refl)) as [Hjob Hjd].
  assert (Hup : forall x, upd ls job s x <= ls x).
  { intros x. unfold upd. destruct (x =? job) eqn:Hx; [|lia].
    apply Z.eqb_eq in Hx. subst. lia. }
  apply lower_predecessors_spec in Hb;
    [|specialize (Hup job); specialize (Hhor job Hjob); lia].
  destruct Hb as (Hp & Hmono & Hnew). cbn [app] in Hp. subst pushed.
  assert (Hle : forall x, ls' x <= ls x).
  { intros x. specialize (Hup x). specialize (Hmono x). lia. }
  repeat split.
  - intros x Hx. specialize (Hhor x Hx). specialize (Hle x). lia.
  - rewrite <- app_assoc in H. apply in_app_or in H. destruct H as [H|H].
    + apply (Hdur j). right. apply in_or_app. now left.
    + apply in_app_or in H. destruct H as [H|H].
      * apply (predecessor_ranked job j Hjob H).
      * apply (Hdur j). destruct H as [<-|H]; [now left|]. right. apply in_or_app. now right.
  - rewrite <- app_assoc in H. apply in_app_or in H. destruct H as [H|H].
    + apply (Hdur j). right. apply in_or_app. now left.
    + apply in_app_or in H. destruct H as [H|H].
      * apply (predecessor_ranked job j Hjob H).
      * apply (Hdur j). destruct H as [<-|H]; [now left|]. right. apply in_or_app. now right.
  - rewrite <- app_assoc in H. apply in_app_or in H. destruct H as [H|H].
    + assert (Hj : In j ((job :: q) ++ D)) by (right; apply in_or_app; now left).
      destruct (Hdur j Hj) as [_ Hd]. specialize (Hle j). lia.
    + apply in_app_or in H. destruct H as [H|H]; [auto|].
      assert (Hj : In j ((job :: q) ++ D)).
      { destruct H as [<-|H]; [now left|]. right. apply in_or_app. now right. }
      destruct (Hdur j Hj) as [_ Hd]. specialize (Hle j). lia.
  - apply in_app_or in Hsink. rewrite <- app_assoc. apply in_or_app.
    destruct Hsink as [[<-|H0]|H0].
    + right. apply in_or_app. right. now left.
    + now left.
    + right. apply in_or_app. right. now right.
  - intros j p [<-|Hj] Hp.
    + rewrite <- app_assoc. apply in_or_app. right. apply in_or_app. now left.
    + specialize (Hcl j p Hj Hp). rewrite <- app_assoc.
      apply in_app_or in Hcl. apply in_or_app.
      destruct Hcl as [[<-|Hq]|HD].
      * right. apply in_or_app. right. now left.
      * now left.
      * right. apply in_or_app. right. now right.
Qed.
End LsBounds.

(** ** Every job is reached *)

Section Reach.
Variable P : Problem.
Variable rk : Z -> nat.
Hypothesis Hacyclic : acyclic P rk = true.
Hypothesis Hlinked : linked P = true.

Lemma existsb_eqb_In (j : Z) (l : list Z) : existsb (Z.eqb j) l = true -> In j l.
Proof.
  intros H. apply existsb_exists in H. destruct H as (x & Hx & Heq).
  apply Z.eqb_eq in Heq. now subst.
Qed.

Lemma predecessor_arc (j p : Z) :
  0 <= j < njobs P -> In p (predecessors P j) -> In j (succ_list P p).
Proof.
  intros Hj Hp. pose proof (all_jobs_at _ _ _ Hlinked Hj) as H. cbn beta in H.
  apply andb_true_iff in H. destruct H as [H _].
  apply existsb_eqb_In. apply (forallb_In _ _ _ H Hp).
Qed.

Lemma successor_arc (j s : Z) :
  0 <= j < njobs P -> In s (succ_list P j) ->
  0 <= s < njobs P /\ In j (predecessors P s).
Proof.
  intros Hj Hs. pose proof (all_jobs_at _ _ _ Hlinked Hj) as H. cbn beta in H.
  apply andb_true_iff in H. destruct H as [_ H].
  pose proof (forallb_In _ _ _ H Hs) as H1. cbn beta in H1.
  apply andb_true_iff in H1. destruct H1 as [H1 H2].
  apply in_range_iff in H1. split; [auto|]. now apply existsb_eqb_In.
Qed.

(** A set of jobs that holds the source and the successors of its members
    holds every job. *)
Lemma closed_from_source (Held : Z -> Prop) :
  single_source P = true ->
  Held 0 -> (forall j s, Held j -> In s (succ_list P j) -> Held s) ->
  forall j, 0 <= j < njobs P -> Held j.
Proof.
  intros Hsrc H0 Hcl.
  apply andb_true_iff in Hsrc. destruct Hsrc as [_ Hne].
  assert (Hind : forall k j, (rk j < k)%nat -> 0 <= j < njobs P -> Held j).
  { induction k as [|k IH]; intros j Hk Hj; [lia|].
    destruct (Z.eq_dec j 0) as [->|Hj0]; [exact H0|].
    assert (Hin : In j (range_from 1 (njobs P))) by (apply In_range_from; lia).
    pose proof (forallb_In _ _ _ Hne Hin) as Hp. cbn beta in Hp.
    destruct (predecessors P j) as [|p ps] eqn:Hps; [discriminate|].
    assert (Hpin : In p (predecessors P j)) by (rewrite Hps; now left).
    destruct (predecessor_ranked P rk Hacyclic j p Hj Hpin) as [Hpr Hrk].
    apply (Hcl p j); [apply IH; [lia|auto]|]. now apply predecessor_arc. }
  intros j Hj. apply (Hind (S (rk j))); [lia|auto].
Qed.

(** A set of jobs that holds the sink and the predecessors of its members
    holds every job. *)
Lemma closed_from_sink (Held : Z -> Prop) :
  single_sink P rk = true ->
  Held (njobs P - 1) -> (forall j p, Held j -> In p (predecessors P j) -> Held p) ->
  forall j, 0 <= j < njobs P -> Held j.
Proof.
  intros Hsnk H0 Hcl.
  apply andb_true_iff in Hsnk. destruct Hsnk as [Hne Htop].
  assert (Hind : forall k j, (rk (njobs P - 1) - rk j < k)%nat ->
                             0 <= j < njobs P -> Held j).
  { induction k as [|k IH]; intros j Hk Hj; [lia|].
    destruct (Z.eq_dec j (njobs P - 1)) as [->|Hjn]; [exact H0|].
    assert (Hin : In j (range (njobs P - 1))) by (apply In_range; lia).
    pose proof (forallb_In _ _ _ Hne Hin) as Hs. cbn beta in Hs.
    destruct (succ_list P j) as [|s ss] eqn:Hss; [discriminate|].
    assert (Hsin : In s (succ_list P j)) by (rewrite Hss; now left).
    destruct (successor_arc j s Hj Hsin) as [Hsr Hjs].
    destruct (predecessor_ranked P rk Hacyclic s j Hsr Hjs) as [_ Hrk].
    pose proof (all_jobs_at _ _ _ Htop Hsr) as Hmax. cbn beta in Hmax.
    apply Nat.leb_le in Hmax.
    apply (Hcl s j); [apply IH; [lia|auto]|auto]. }
  intros j Hj. apply (Hind (S (rk (njobs P - 1) - rk j))); [lia|auto].
Qed.
End Reach.

Section EfBounds.
Variable P : Problem.
Hypothesis Hlinked : linked P = true.

Lemma raise_successors_spec (job : Z) (l : list Z) :
  forall ef pushed ef' pushed',
    fold_left (raise_successor P job) l (ef, pushed) = (ef', pushed') ->
    0 <= ef job ->
    pushed' = pushed ++ l /\
    (forall x, ef x <= ef' x) /\
    (forall s, In s l -> durations P s <= ef' s).
Proof.
  induction l as [|s l IH]; intros ef pushed ef' pushed' H Hpos; cbn [fold_left] in H.
  - injection H as <- <-. rewrite app_nil_r. repeat split; auto; try lia. intros s [].
  - cbn [raise_successor] in H.
    set (ef1 := if ef job + durations P s >? ef s
                then upd ef s (ef job + durations P s) else ef) in H.
    assert (Hmono : forall x, ef x <= ef1 x).
    { intros x. unfold ef1. destruct (ef job + durations P s >? ef s) eqn:Hc; [|lia].
      unfold upd. destruct (x =? s) eqn:Hx; [|lia]. apply Z.eqb_eq in Hx. subst. lia. }
    assert (Hs : durations P s <= ef1 s).
    { unfold ef1.
      destruct (ef job + durations P s >? ef s) eqn:Hc; [rewrite upd_same|]; lia. }
    apply IH in H; [|specialize (Hmono job); lia].
    destruct H as (-> & Hm & Hl). rewrite <- app_assoc. split; [reflexivity|].
    split.
    + intros x. specialize (Hmono x). specialize (Hm x). lia.
    + intros s' [<-|Hin]; [specialize (Hm s); lia | auto].
Qed.

Lemma ef_inv_step (D : list Z) (job : Z) (q : list Z) (ef ef' : Z -> Z) (pushed : list Z) :
  ef_inv P D (job :: q) ef -> ef_body P job ef = Done (ef', pushed) ->
  ef_inv P (job :: D) (q ++ pushed) ef'.
Proof.
  intros (Hpos & Hdur & H0 & Hcl) Hb. unfold ef_body in Hb.
  destruct (move_finish P (finish_rounds P (ef job)) (capacities P) job (ef job))
    as [e| | |] eqn:Hm; try discriminate.
  cbn [bind] in Hb. injection Hb as Hb.
  apply move_finish_done in Hm. destruct Hm as ([He _] & _).
  destruct (Hdur job (or_introl eq_refl)) as [Hjob Hjd].
  assert (Hup : forall x, ef x <= upd ef job e x).
  { intros x. unfold upd. destruct (x =? job) eqn:Hx; [|lia].
    apply Z.eqb_eq in Hx. subst. lia. }
  apply raise_successors_spec in Hb;
    [|specialize (Hpos job Hjob); specialize (Hup job); lia].
  destruct Hb as (Hp & Hmono & Hnew). cbn [app] in Hp. subst pushed.
  assert (Hle : forall x, ef x <= ef' x).
  { intros x. specialize (Hup x). specialize (Hmono x). lia. }
  assert (Hold : forall j, In j ((job :: q) ++ D) ->
                           0 <= j < njobs P /\ durations P j <= ef' j).
  { intros j Hj. destruct (Hdur j Hj) as [Hr Hd]. specialize (Hle j). lia. }
  split; [|split; [|split]].
  - intros x Hx. specialize (Hpos x Hx). specialize (Hle x). lia.
  - intros j Hj. rewrite <- app_assoc in Hj. apply in_app_or in Hj.
    destruct Hj as [Hj|Hj].
    + apply Hold. right. apply in_or_app. now left.
    + apply in_app_or in Hj. destruct Hj as [Hj|Hj].
      * split; [apply (successor_arc P Hlinked job j Hjob Hj)|auto].
      * apply Hold. destruct Hj as [<-|Hj]; [now left|]. right. apply in_or_app. now right.
  - apply in_app_or in H0. rewrite <- app_assoc. apply in_or_app.
    destruct H0 as [[<-|H0]|H0].
    + right. apply in_or_app. right. now left.
    + now left.
    + right. apply in_or_app. right. now right.
  - intros j s [<-|Hj] Hs.
    + rewrite <- app_assoc. apply in_or_app. right. apply in_or_app. now left.
    + specialize (Hcl j s Hj Hs). rewrite <- app_assoc.
      apply in_app_or in Hcl. apply in_or_app.
      destruct Hcl as [[<-|Hq]|HD].
      * right. apply in_or_app. right. now left.
      * now left.
      * right. apply in_or_app. right. now right.
Qed.

Lemma ef_pass_closed (m : Memory) (fuel : nat) (ef : Z -> Z) :
  1 <= njobs P -> durations P 0 = 0 ->
  ef_pass P m fuel = Done ef ->
  exists D, ef_inv P D [] ef.
Proof.
  intros Hn H0 Hrun. unfold ef_pass in Hrun.
  eapply (bfs_invariant (ef_body P) (ef_inv P) ef_inv_step fuel [] [0]); [|exact Hrun].
  assert (Hfill : forall x, 0 <= x < njobs P -> fill (njobs P) 0 (ef0 m) x = 0).
  { intros x Hx. unfold fill. apply in_range_iff in Hx. now rewrite Hx. }
  split; [|split; [|split]].
  - intros x Hx. rewrite Hfill by auto. lia.
  - intros j [<-|[]]. rewrite Hfill by lia. lia.
  - now left.
  - intros j s [].
Qed.
End EfBounds.

(** C6. On a well-formed instance (acyclic, the source and the sink take no
    time, the source precedes and the sink follows every job), when the
    preprocessing passes end without [return false], every job [j] has
    [ef[j] >= durations[j]] and [ls[j] + durations[j] <= horizon]. *)
Theorem preprocessing_bounds
        (P : Problem) (rk : Z -> nat) (m : Memory) (fuel : nat) (pr : Priorities) :
  acyclic P rk = true -> linked P = true ->
  single_source P = true -> single_sink P rk = true -> dummy_ends P = true ->
  preprocess P m fuel = Done pr ->
  forall j, 0 <= j < njobs P ->
            durations P j <= p_ef pr j /\ p_ls pr j + durations P j <= horizon P.
Proof.
  intros Hacy Hlink Hsrc Hsnk Hends Hpre.
  unfold preprocess in Hpre.
  destruct (ef_pass P m fuel) as [ef| | |] eqn:Hef; try discriminate. cbn [bind] in Hpre.
  destruct (ls_pass P m fuel) as [ls| | |] eqn:Hls; try discriminate. cbn [bind] in Hpre.
  destruct (ru_pass P ef ls m fuel) as [ru| | |] eqn:Hru; try discriminate.
  cbn [bind] in Hpre. injection Hpre as <-. cbn [p_ef p_ls].
  apply andb_true_iff in Hends. destruct Hends as [Hd0 Hdn].
  apply Z.eqb_eq in Hd0. apply Z.eqb_eq in Hdn.
  assert (Hn : 2 <= njobs P).
  { apply andb_true_iff in Hsrc. destruct Hsrc as [Hsrc _].
    apply andb_true_iff in Hsrc. destruct Hsrc as [Hsrc _]. now apply Z.leb_le. }
  destruct (ef_pass_closed P Hlink m fuel ef ltac:(lia) Hd0 Hef)
    as (D & _ & Hdur & H0 & Hcl).
  cbn [app] in Hdur, H0, Hcl.
  assert (Hall : forall j, 0 <= j < njobs P -> In j D).
  { apply (closed_from_source P rk Hacy Hlink (fun j => In j D)); auto. }
  assert (Hlsinv : exists D', ls_inv P D' [] ls).
  { unfold ls_pass in Hls.
    eapply (bfs_invariant (ls_body P) (ls_inv P) (ls_inv_step P rk Hacy) fuel []
                          [njobs P - 1]); [|exact Hls].
    assert (Hfill : forall x, 0 <= x < njobs P ->
                              fill (njobs P) (horizon P) (ls0 m) x = horizon P).
    { intros x Hx. unfold fill. apply in_range_iff in Hx. now rewrite Hx. }
    repeat split.
    - intros x Hx. rewrite Hfill by auto. lia.
    - destruct H as [<-|[]]. lia.
    - destruct H as [<-|[]]. lia.
    - destruct H as [<-|[]]. rewrite Hfill by lia. lia.
    - now left.
    - intros j p []. }
  destruct Hlsinv as (D' & _ & Hdur' & Hn1 & Hcl'). cbn [app] in Hdur', Hn1, Hcl'.
  assert (Hall' : forall j, 0 <= j < njobs P -> In j D').
  { apply (closed_from_sink P rk Hacy Hlink (fun j => In j D')); auto. }
  intros j Hj. split; [apply Hdur; auto | apply Hdur'; auto].
Qed.

Lemma preprocessing_bounds_witness :
  match preprocess diamond zero_memory 20 with
  | Done pr => durations diamond 1 <= p_ef pr 1 /\
               p_ls pr 1 + durations diamond 1 <= horizon diamond
  | _ => False
  end.
Proof.
  destruct (preprocess diamond zero_memory 20) as [pr| | |] eqn:Hpre;
    try (vm_compute in Hpre; discriminate).
  apply (preprocessing_bounds diamond rank_by_index zero_memory 20 pr);
    try (vm_compute; reflexivity); auto.
  cbn; lia.
Defined.

(** ** The eligible set *)

Section Eligible.
Variable P : Problem.
Variable schedule : Z -> Z.

Lemma predecessors_scheduled_iff (j : Z) :
  predecessors_scheduled P schedule j = true <->
  forall p, In p (predecessors P j) -> 0 <= schedule p.
Proof.
  unfold predecessors_scheduled.
  assert (Hgen : forall l b,
             fold_left (fun b p => if schedule p <? 0 then false else b) l b = true <->
             b = true /\ forall p, In p l -> 0 <= schedule p).
  { induction l as [|p l IH]; intros b; cbn [fold_left].
    - split; [intros ->; split; [reflexivity|intros p []] | tauto].
    - rewrite IH. destruct (schedule p <? 0) eqn:Hp.
      + split; [intros [H _]; discriminate|]. intros [_ H].
        specialize (H p (or_introl eq_refl)). lia.
      + split.
        * intros [-> H]. split; [reflexivity|]. intros p' [<-|Hin]; [lia|auto].
        * intros [-> H]. split; [reflexivity|]. intros p' Hin. apply H. now right. }
  rewrite Hgen. tauto.
Qed.

Lemma is_eligible_iff (j : Z) :
  is_eligible P schedule j = true <->
  schedule j < 0 /\ forall p, In p (predecessors P j) -> 0 <= schedule p.
Proof.
  unfold is_eligible.
  rewrite andb_true_iff, Z.ltb_lt, predecessors_scheduled_iff. tauto.
Qed.

Lemma In_eligible_jobs (j : Z) :
  In j (eligible_jobs P schedule) <->
  1 <= j < njobs P /\ schedule j < 0 /\
  forall p, In p (predecessors P j) -> 0 <= schedule p.
Proof.
  unfold eligible_jobs. rewrite filter_In, In_range_from, is_eligible_iff. tauto.
Qed.

(** The buffer holds the eligible jobs at its front. *)
Lemma collect_fold (l : list Z) :
  forall el n el' n',
    fold_left (note_eligible P schedule) l (el, n) = (el', n') ->
    n' = n + len (filter (is_eligible P schedule) l) /\
    (forall i, i < n -> el' i = el i) /\
    (forall i, n <= i < n' ->
               el' i = nth (Z.to_nat (i - n)) (filter (is_eligible P schedule) l) 0).
Proof.
  unfold len.
  induction l as [|j l IH]; intros el n el' n' H; cbn [fold_left] in H.
  - injection H as <- <-. cbn. split; [lia|]. split; [auto|]. intros i Hi. lia.
  - cbn [filter]. cbn [note_eligible] in H.
    destruct (is_eligible P schedule j) eqn:Hc.
    + apply IH in H. destruct H as (-> & Hlow & Hnth). cbn [length].
      split; [lia|]. split.
      * intros i Hi. rewrite Hlow by lia. apply upd_other. lia.
      * intros i Hi. destruct (Z.eq_dec i n) as [->|Hne].
        -- replace (Z.to_nat (n - n)) with O by lia. cbn [nth].
           rewrite Hlow by lia. apply upd_same.
        -- rewrite Hnth by lia.
           replace (Z.to_nat (i - n)) with (S (Z.to_nat (i - (n + 1)))) by lia.
           reflexivity.
    + apply IH in H. exact H.
Qed.

Lemma collect_eligible_spec (el el' : Z -> Z) (n' : Z) :
  collect_eligible P schedule el = (el', n') ->
  n' = len (eligible_jobs P schedule) /\
  forall i, 0 <= i < n' -> In (el' i) (eligible_jobs P schedule).
Proof.
  unfold collect_eligible. intros H. apply collect_fold in H.
  destruct H as (-> & _ & Hnth). fold (eligible_jobs P schedule) in *.
  split; [lia|]. intros i Hi. rewrite Hnth by lia.
  apply nth_In. unfold len in Hi. lia.
Qed.
End Eligible.

(** ** Drawing and choosing *)

Lemma choice_in_range (n : Z) (u : Q) :
  (0 <= u)%Q -> (u < 1)%Q -> 0 < n -> 0 <= choice n u < n.
Proof.
  destruct u as [a b]. unfold Qle, Qlt, choice, int_of_Q. cbn. intros Ha Hb Hn.
  assert (H0 : 0 <= a) by lia. assert (H1 : a < Z.pos b) by lia.
  replace (Z.pos (b * 1)) with (Z.pos b) by lia.
  split.
  - apply Z.quot_pos; nia.
  - apply Z.quot_lt_upper_bound; nia.
Qed.

Lemma scan_selected_in (cpru : Z -> float) (selected : list Z) :
  forall start,
    fst (scan_selected cpru selected start) = fst start \/
    In (fst (scan_selected cpru selected start)) selected.
Proof.
  induction selected as [|s l IH]; intros [w b]; cbn [scan_selected fold_left].
  - now left.
  - fold (scan_selected cpru l).
    destruct (PrimFloat.leb b (cpru s)).
    + destruct (IH (s, cpru s)) as [H|H]; cbn [fst] in *; [right; left; auto|right; right; auto].
    + destruct (IH (w, b)) as [H|H]; cbn [fst] in *; [left; auto|right; right; auto].
Qed.

Lemma pick_winner_in (cpru : Z -> float) (selected : list Z) :
  0 <= pick_winner cpru selected -> In (pick_winner cpru selected) selected.
Proof.
  unfold pick_winner. intros H.
  destruct (scan_selected_in cpru selected (-1, (- DBL_MAX / 2)%float)) as [Heq|Hin]; auto.
  cbn [fst] in Heq. lia.
Qed.

Section StepFacts.
Variable P : Problem.
Variable cpru : Z -> float.
Variable rnd : nat -> Q.
Hypothesis Hdraws : unit_draws rnd.

(** A winner comes from the eligible jobs as soon as there is one. *)
Lemma winner_eligible (st : PassState) :
  eligible_jobs P (schedule st) <> [] ->
  0 <= step_winner P cpru rnd st ->
  In (step_winner P cpru rnd st) (eligible_jobs P (schedule st)).
Proof.
  unfold step_winner.
  destruct (collect_eligible P (schedule st) (eligible st)) as [el ne] eqn:Hc.
  apply collect_eligible_spec in Hc. destruct Hc as [Hne Hel].
  intros Hnonempty Hw. apply pick_winner_in in Hw.
  remember (pick_winner cpru (draw_selected rnd el ne (drawn st))) as w eqn:Ew.
  clear Ew. unfold draw_selected in Hw. apply in_map_iff in Hw.
  destruct Hw as (j & <- & _). apply Hel.
  destruct (Hdraws (drawn st + j)%nat) as [H0 H1].
  apply choice_in_range; auto.
  rewrite Hne. unfold len. destruct (eligible_jobs P (schedule st)); [congruence|cbn; lia].
Qed.

(** What a step that ends has done. *)
Lemma schedule_step_done (st st' : PassState) :
  schedule_step P cpru rnd st = Done st' ->
  let w := step_winner P cpru rnd st in
  0 <= w /\
  exists f,
    move_finish P (finish_rounds P (initial_finish P (schedule st) w))
                (available st) w (initial_finish P (schedule st) w) = Done f /\
    schedule st' = upd (schedule st) w f /\
    available st' = commit P (available st) w f.
Proof.
  unfold schedule_step, step_winner.
  destruct (collect_eligible P (schedule st) (eligible st)) as [el ne].
  set (w := pick_winner cpru (draw_selected rnd el ne (drawn st))).
  destruct (w <? 0) eqn:Hw; [discriminate|].
  destruct (move_finish P _ (available st) w _) as [f| | |] eqn:Hm; try discriminate.
  cbn [bind]. intros [= <-]. cbn [schedule available]. split; [lia|].
  exists f. auto.
Qed.

Lemma initial_finish_bounds (schedule : Z -> Z) (w : Z) :
  -1 <= initial_finish P schedule w /\
  (forall p, In p (predecessors P w) ->
             schedule p + durations P w <= initial_finish P schedule w) /\
  (initial_finish P schedule w = -1 \/
   exists p, In p (predecessors P w) /\
             initial_finish P schedule w = schedule p + durations P w).
Proof.
  unfold initial_finish.
  assert (Hgen : forall l f0,
    let f := fold_left
               (fun finish predecessor =>
                  let newFinish := schedule predecessor + durations P w in
                  if newFinish >? finish then newFinish else finish) l f0 in
    f0 <= f /\ (forall p, In p l -> schedule p + durations P w <= f) /\
    (f = f0 \/ exists p, In p l /\ f = schedule p + durations P w)).
  { induction l as [|p l IH]; intros f0; cbn [fold_left].
    - split; [lia|]. split; [intros p []|now left].
    - cbn zeta.
      specialize (IH (if schedule p + durations P w >? f0
                      then schedule p + durations P w else f0)).
      cbn zeta in IH. destruct IH as (Hle & Hall & Hex).
      destruct (schedule p + durations P w >? f0) eqn:Hc.
      + split; [lia|]. split.
        * intros p' [<-|Hin]; [lia|auto].
        * right. destruct Hex as [->|(p' & Hin & ->)].
          -- exists p. split; [now left|reflexivity].
          -- exists p'. split; [now right|reflexivity].
      + split; [lia|]. split.
        * intros p' [<-|Hin]; [lia|auto].
        * destruct Hex as [->|(p' & Hin & ->)]; [now left|].
          right. exists p'. split; [now right|reflexivity]. }
  specialize (Hgen (predecessors P w) (-1)). cbn zeta in Hgen.
  destruct Hgen as (H1 & H2 & H3). auto.
Qed.
End StepFacts.

(** ** Committing a placement *)

Ltac split_tests :=
  repeat match goal with
         | |- context [?a =? ?b] => destruct (Z.eqb_spec a b)
         | |- context [?a <=? ?b] => destruct (Z.leb_spec a b)
         | |- context [?a <? ?b] => destruct (Z.ltb_spec a b)
         end; cbn [andb negb]; try lia.

Section Commit.
Variable P : Problem.
Variable w : Z.

Lemma commit_row (k s d : Z) :
  forall n lo av k0 t0,
    n = Z.to_nat (d - lo) ->
    fold_left (fun av t => upd2 av k (s + t) (av k (s + t) - requests P w k t))
              (range_from lo d) av k0 t0
    = if (k0 =? k) && (s + lo <=? t0) && (t0 <? s + d)
      then av k0 t0 - requests P w k (t0 - s)
      else av k0 t0.
Proof.
  induction n as [|n IH]; intros lo av k0 t0 Hn.
  - rewrite range_from_nil by lia. cbn [fold_left]. split_tests.
  - rewrite range_from_cons by lia. cbn [fold_left]. rewrite IH by lia.
    unfold upd2. split_tests; subst; try lia.
    f_equal. f_equal. lia.
Qed.

Lemma commit_rows (s d nres : Z) :
  forall n lo av k0 t0,
    n = Z.to_nat (nres - lo) ->
    fold_left
      (fun av k =>
         fold_left (fun av t => upd2 av k (s + t) (av k (s + t) - requests P w k t))
                   (range d) av)
      (range_from lo nres) av k0 t0
    = if (lo <=? k0) && (k0 <? nres) && (s <=? t0) && (t0 <? s + d)
      then av k0 t0 - requests P w k0 (t0 - s)
      else av k0 t0.
Proof.
  induction n as [|n IH]; intros lo av k0 t0 Hn.
  - rewrite range_from_nil by lia. cbn [fold_left]. split_tests.
  - rewrite range_from_cons by lia. cbn [fold_left]. rewrite IH by lia.
    unfold range. rewrite (commit_row lo s d (Z.to_nat (d - 0)) 0) by reflexivity.
    split_tests; subst; try lia.
Qed.

(** [commit] takes the requests of [w], finishing at [f], from the cells
    in which [w] runs, and leaves the other cells. *)
Lemma commit_at (av : Z -> Z -> Z) (f k t : Z) :
  commit P av w f k t
  = if in_range (nresources P) k
       && (f - durations P w <=? t) && (t <? f)
    then av k t - requests P w k (t - (f - durations P w))
    else av k t.
Proof.
  unfold commit, range at 1.
  rewrite (commit_rows (f - durations P w) (durations P w) (nresources P)
                       (Z.to_nat (nresources P - 0)) 0) by reflexivity.
  unfold in_range. split_tests.
Qed.
End Commit.

(** ** The invariants of a pass *)

Lemma all_or_missing (placed l : list Z) :
  (forall x, In x l -> In x placed) \/ (exists x, In x l /\ ~ In x placed).
Proof.
  induction l as [|a l IH].
  - left. intros x [].
  - destruct (in_dec Z.eq_dec a placed) as [Ha|Ha].
    + destruct IH as [IH|(x & Hx & Hn)].
      * left. intros x [<-|Hx]; auto.
      * right. exists x. split; [now right|auto].
    + right. exists a. split; [now left|auto].
Qed.

Lemma sumZ_request_ext (P : Problem) (fin fin' : Z -> Z) (k t : Z) (l : list Z) :
  (forall j, In j l -> fin' j = fin j) ->
  sumZ (map (request_at P fin' k t) l) = sumZ (map (request_at P fin k t) l).
Proof.
  intros H. induction l as [|a l IH]; [reflexivity|].
  cbn [map sumZ fold_right]. fold (sumZ (map (request_at P fin' k t) l)).
  fold (sumZ (map (request_at P fin k t) l)).
  rewrite IH by (intros j Hj; apply H; now right).
  unfold request_at. rewrite (H a) by now left. reflexivity.
Qed.

Lemma sumZ_Permutation (l l' : list Z) : Permutation l l' -> sumZ l = sumZ l'.
Proof.
  induction 1; cbn [sumZ fold_right] in *; try lia.
  fold (sumZ l) in *. fold (sumZ l') in *. lia.
Qed.

Section PassInvariants.
Variable P : Problem.
Variable rk : Z -> nat.
Hypothesis Hacyclic : acyclic P rk = true.

(** While a job is missing, a job is eligible. *)
Lemma eligible_nonempty (placed : list Z) (schedule : Z -> Z) :
  sched_inv P placed schedule ->
  (length placed < Z.to_nat (njobs P))%nat ->
  eligible_jobs P schedule <> [].
Proof.
  intros (Hnd & H0 & Hiff & Hrange & Hprec) Hlen.
  assert (Hmiss : exists j, 0 <= j < njobs P /\ ~ In j placed).
  { destruct (all_or_missing placed (range (njobs P))) as [Hall|(x & Hx & Hn)].
    - exfalso. pose proof (NoDup_incl_length (NoDup_range_from 0 (njobs P)) Hall) as Hl.
      fold (range (njobs P)) in Hl. rewrite length_range in Hl. lia.
    - exists x. split; [now apply In_range|auto]. }
  assert (Hind : forall k j, (rk j < k)%nat -> 0 <= j < njobs P -> ~ In j placed ->
                             exists u, In u (eligible_jobs P schedule)).
  { induction k as [|k IH]; intros j Hk Hj Hnot; [lia|].
    destruct (all_or_missing placed (predecessors P j)) as [Hall|(p & Hp & Hn)].
    - exists j. apply In_eligible_jobs.
      assert (j <> 0) by (intros ->; auto).
      split; [lia|]. split.
      + destruct (Z_lt_le_dec (schedule j) 0) as [Hlt|Hge]; auto.
        exfalso. apply Hnot. now apply Hiff.
      + intros p Hp. apply Hiff; [|auto].
        apply (predecessor_ranked P rk Hacyclic j p Hj Hp).
    - destruct (predecessor_ranked P rk Hacyclic j p Hj Hp) as [Hpr Hrk].
      apply (IH p); auto. lia. }
  destruct Hmiss as (j & Hj & Hnot).
  destruct (Hind (S (rk j)) j) as (u & Hu); auto.
  intros Hnil. rewrite Hnil in Hu. destruct Hu.
Qed.

Hypothesis Hsource : single_source P = true.
Hypothesis Hdurations : durations_ok P = true.

Lemma njobs_ge_2 : 2 <= njobs P.
Proof.
  apply andb_true_iff in Hsource. destruct Hsource as [H _].
  apply andb_true_iff in H. destruct H as [H _]. now apply Z.leb_le.
Qed.

Lemma source_no_predecessor : predecessors P 0 = [].
Proof.
  apply andb_true_iff in Hsource. destruct Hsource as [H _].
  apply andb_true_iff in H. destruct H as [_ H].
  destruct (predecessors P 0); [reflexivity|discriminate].
Qed.

Lemma has_predecessor (j : Z) :
  1 <= j < njobs P -> exists p, In p (predecessors P j).
Proof.
  intros Hj. apply andb_true_iff in Hsource. destruct Hsource as [_ H].
  assert (Hin : In j (range_from 1 (njobs P))) by now apply In_range_from.
  pose proof (forallb_In _ _ _ H Hin) as Hp. cbn beta in Hp.
  destruct (predecessors P j) as [|p ps]; [discriminate|]. exists p. now left.
Qed.

Lemma duration_nonneg (j : Z) : 0 <= j < njobs P -> 0 <= durations P j.
Proof.
  intros Hj. pose proof (all_jobs_at _ _ _ Hdurations Hj) as H. cbn beta in H.
  now apply Z.leb_le.
Qed.

(** The start of a pass. *)
Lemma sched_inv_reset (schedule : Z -> Z) :
  sched_inv P [0] (upd (fill (njobs P) (-1) schedule) 0 0).
Proof.
  pose proof njobs_ge_2 as Hn.
  repeat split.
  - constructor; [intros []|constructor].
  - now left.
  - intros Hs. destruct (Z.eq_dec j 0) as [->|Hne]; [now left|].
    rewrite upd_other in Hs by auto. unfold fill in Hs.
    apply in_range_iff in H. rewrite H in Hs. lia.
  - intros [<-|[]]. rewrite upd_same. lia.
  - destruct H as [<-|[]]. lia.
  - destruct H as [<-|[]]. lia.
  - destruct H as [<-|[]]. rewrite source_no_predecessor in H0. destruct H0.
  - destruct H as [<-|[]]. rewrite source_no_predecessor in H0. destruct H0.
Qed.

(** Placing an eligible job at or after its initial finish. *)
Lemma sched_inv_step (placed : list Z) (schedule : Z -> Z) (w f : Z) :
  sched_inv P placed schedule ->
  In w (eligible_jobs P schedule) ->
  initial_finish P schedule w <= f ->
  sched_inv P (w :: placed) (upd schedule w f) /\ ~ In w placed.
Proof.
  intros (Hnd & H0 & Hiff & Hrange & Hprec) Hw Hf.
  apply In_eligible_jobs in Hw. destruct Hw as (Hwr & Hneg & Hpreds).
  assert (Hwn : ~ In w placed).
  { intros Hin. apply Hiff in Hin; lia. }
  destruct (initial_finish_bounds P schedule w) as (_ & Hmax & _).
  assert (Hpin : forall p, In p (predecessors P w) -> In p placed).
  { intros p Hp. apply Hiff; [|auto].
    apply (predecessor_ranked P rk Hacyclic w p); [lia|auto]. }
  assert (Hf0 : 0 <= f).
  { destruct (has_predecessor w Hwr) as (p & Hp).
    specialize (Hmax p Hp). specialize (Hpreds p Hp).
    pose proof (duration_nonneg w). lia. }
  split; [|exact Hwn]. repeat split.
  - now constructor.
  - now right.
  - intros Hs. destruct (Z.eq_dec j w) as [->|Hne]; [now left|].
    rewrite upd_other in Hs by auto. right. now apply Hiff.
  - intros [<-|Hin]; [rewrite upd_same; lia|].
    rewrite upd_other by (intros ->; auto). now apply Hiff.
  - destruct H as [<-|H]; [lia|]. apply (Hrange j H).
  - destruct H as [<-|H]; [lia|]. apply (Hrange j H).
  - destruct H as [<-|H].
    + right. auto.
    + right. apply (Hprec j p H H1).
  - destruct H as [<-|H].
    + rewrite upd_same. rewrite upd_other by (intros ->; auto).
      specialize (Hmax p H1). lia.
    + destruct (Hprec j p H H1) as [Hp Hle].
      rewrite !upd_other by (intros ->; auto). exact Hle.
Qed.

Lemma avail_inv_reset (schedule : Z -> Z) (available : Z -> Z -> Z) :
  capacities_ok P = true ->
  avail_inv P [0] (upd (fill (njobs P) (-1) schedule) 0 0)
            (copy_grid (nresources P) (horizon P) (capacities P) available).
Proof.
  intros Hcap k t Hk Ht. unfold copy_grid.
  pose proof Hk as Hk'. pose proof Ht as Ht'.
  apply in_range_iff in Hk'. apply in_range_iff in Ht'. rewrite Hk', Ht'. cbn [andb].
  split.
  - unfold capacities_ok in Hcap.
    assert (Hkin : In k (range (nresources P))) by now apply In_range.
    pose proof (forallb_In _ _ _ Hcap Hkin) as H1. cbn beta in H1.
    assert (Htin : In t (range (horizon P))) by now apply In_range.
    pose proof (forallb_In _ _ _ H1 Htin) as H2. cbn beta in H2. now apply Z.leb_le.
  - cbn [map sumZ fold_right]. unfold request_at. rewrite upd_same.
    split_tests.
Qed.

Lemma avail_inv_step (placed : list Z) (schedule : Z -> Z) (available : Z -> Z -> Z)
      (w f : Z) :
  avail_inv P placed schedule available ->
  ~ In w placed ->
  fits_finish P available w f = true ->
  avail_inv P (w :: placed) (upd schedule w f) (commit P available w f).
Proof.
  intros Hav Hwn Hfit k t Hk Ht. destruct (Hav k t Hk Ht) as [Hpos Hsum].
  rewrite commit_at. cbn [map sumZ fold_right].
  fold (sumZ (map (request_at P (upd schedule w f) k t) placed)).
  rewrite (sumZ_request_ext P schedule (upd schedule w f))
    by (intros j Hj; apply upd_other; intros ->; auto).
  unfold request_at at 1. rewrite upd_same.
  pose proof Hk as Hk'. apply in_range_iff in Hk'. rewrite Hk'. cbn [andb].
  destruct ((f - durations P w <=? t) && (t <? f)) eqn:Hrun.
  - apply andb_true_iff in Hrun. destruct Hrun as [H1 H2].
    apply Z.leb_le in H1. apply Z.ltb_lt in H2.
    pose proof (proj1 (fits_finish_iff P available w f) Hfit k
                      (t - (f - durations P w)) Hk) as Hreq.
    replace (f - durations P w + (t - (f - durations P w))) with t in Hreq by lia.
    specialize (Hreq ltac:(lia)). lia.
  - lia.
Qed.
End PassInvariants.

Lemma nth_range (n j : Z) : 0 <= j < n -> nth (Z.to_nat j) (range n) 0 = j.
Proof.
  intros Hj. unfold range, range_from.
  rewrite (nth_indep _ 0 (0 + Z.of_nat 0)) by (rewrite length_map, length_seq; lia).
  rewrite (map_nth (fun i => 0 + Z.of_nat i)). rewrite seq_nth by lia. lia.
Qed.

Lemma nthZ_map_range {A : Type} (d : A) (f : Z -> A) (n j : Z) :
  0 <= j < n -> nthZ d (map f (range n)) j = f j.
Proof.
  intros Hj. unfold nthZ. destruct (Z.ltb_spec j 0); [lia|].
  rewrite (nth_indep _ d (f 0)) by (rewrite length_map, length_range; lia).
  rewrite map_nth. now rewrite nth_range.
Qed.

Section PassFacts.
Variable P : Problem.
Variable rk : Z -> nat.
Variable cpru : Z -> float.
Variable rnd : nat -> Q.
Hypothesis Hacyclic : acyclic P rk = true.
Hypothesis Hsource : single_source P = true.
Hypothesis Hdurations : durations_ok P = true.
Hypothesis Hdraws : unit_draws rnd.

Lemma step_inv_reset (st : PassState) : step_inv P 0 (reset_pass P st).
Proof.
  exists [0]. cbn [reset_pass schedule available]. split; [|split].
  - now apply sched_inv_reset.
  - reflexivity.
  - intros Hcap. now apply avail_inv_reset.
Qed.

Lemma step_inv_eligible (i : nat) (st : PassState) :
  step_inv P i st -> (i < Z.to_nat (njobs P - 1))%nat ->
  eligible_jobs P (schedule st) <> [].
Proof.
  intros (placed & Hs & Hlen & _) Hi.
  apply (eligible_nonempty P rk Hacyclic placed); auto. lia.
Qed.

Lemma step_inv_step (i : nat) (st st' : PassState) :
  step_inv P i st -> (i < Z.to_nat (njobs P - 1))%nat ->
  schedule_step P cpru rnd st = Done st' ->
  step_inv P (S i) st'.
Proof.
  intros Hinv Hi Hstep.
  pose proof (step_inv_eligible i st Hinv Hi) as Hne.
  destruct Hinv as (placed & Hs & Hlen & Hav).
  apply schedule_step_done in Hstep. cbn zeta in Hstep.
  destruct Hstep as (Hw & f & Hm & Hsched & Havail).
  pose proof (winner_eligible P cpru rnd Hdraws st Hne Hw) as Hel.
  apply move_finish_done in Hm. destruct Hm as ([Hf _] & Hfit & _).
  destruct (sched_inv_step P rk Hacyclic Hsource Hdurations placed (schedule st) _ f
                           Hs Hel Hf) as [Hs' Hnot].
  exists (step_winner P cpru rnd st :: placed). rewrite Hsched, Havail.
  split; [exact Hs'|]. split; [cbn [length]; lia|].
  intros Hcap. apply avail_inv_step; auto.
Qed.

Lemma step_inv_steps (n : nat) :
  forall i st st',
    step_inv P i st -> (i + n <= Z.to_nat (njobs P - 1))%nat ->
    schedule_steps P cpru rnd n st = Done st' ->
    step_inv P (i + n) st'.
Proof.
  induction n as [|n IH]; intros i st st' Hinv Hi Hrun; cbn [schedule_steps] in Hrun.
  - injection Hrun as <-. now rewrite Nat.add_0_r.
  - destruct (schedule_step P cpru rnd st) as [st1| | |] eqn:Hstep; try discriminate.
    cbn [bind] in Hrun. replace (i + S n)%nat with (S i + n)%nat by lia.
    apply (IH (S i) st1); [|lia|exact Hrun].
    apply (step_inv_step i st); auto. lia.
Qed.

(** A pass that ends has built a valid schedule. *)
Lemma run_pass_valid (st st' : PassState) :
  run_pass P cpru rnd st = Done st' -> valid_schedule P (schedule st').
Proof.
  unfold run_pass. intros Hrun.
  pose proof (njobs_ge_2 P Hsource) as Hn.
  apply (step_inv_steps _ 0 _ _ (step_inv_reset st)) in Hrun; [|lia].
  destruct Hrun as (placed & (Hnd & H0 & Hiff & Hrange & Hprec) & Hlen & Hav).
  cbn [Nat.add] in Hlen.
  assert (Hall : forall j, 0 <= j < njobs P -> In j placed).
  { intros j Hj.
    apply (NoDup_length_incl Hnd (l' := range (njobs P))).
    - rewrite length_range. lia.
    - intros x Hx. apply In_range. auto.
    - now apply In_range. }
  split; [|split].
  - intros j Hj. apply Hiff; auto.
  - intros j p Hj Hp. destruct (Hprec j p (Hall j Hj) Hp). lia.
  - intros Hcap k t Hk Ht. destruct (Hav Hcap k t Hk Ht) as [Hpos Hsum].
    unfold load.
    assert (Hperm : Permutation (range (njobs P)) placed).
    { apply NoDup_Permutation; [apply NoDup_range_from|auto|].
      intros x. rewrite In_range. split; auto. }
    rewrite (sumZ_Permutation _ _ (Permutation_map _ Hperm)). lia.
Qed.



(** The best makespan never goes up, and stays at the initial value only
    if no pass got below it. *)
Lemma passes_best (n : nat) :
  forall s s', passes P cpru rnd n s = Done s' -> bestMakespan s' <= bestMakespan s.
Proof.
  induction n as [|n IH]; intros s s' Hrun; cbn [passes] in Hrun.
  - injection Hrun as <-. lia.
  - destruct (run_pass P cpru rnd (pass_state s)) as [st| | |] eqn:Hp; try discriminate.
    cbn [bind] in Hrun. apply IH in Hrun. unfold keep_best in Hrun.
    destruct (Z.ltb_spec (schedule st (njobs P - 1)) (bestMakespan s));
      cbn [bestMakespan] in Hrun; lia.
Qed.
End PassFacts.








(** ** The placement of the winner *)




(** ** The utilisation pass *)

Lemma ru_body_spec (P : Problem) (ef ls : Z -> Z) (job : Z) (ru ru' : Z -> float)
      (pushed : list Z) :
  ru_body P ef ls job ru = Done (ru', pushed) ->
  pushed = predecessors P job /\
  (forall x, x <> job -> ru' x = ru x) /\
  clamped (ru' job).
Proof.
  unfold ru_body. destruct (demand_availability P ef ls job) as [demand availability].
  set (base := (OMEGA1 * _)%float).
  assert (Hfold : forall l r x, x <> job ->
            fold_left (fun ru successor =>
                         upd ru job (ru job + OMEGA2 * ru successor)%float) l r x = r x).
  { induction l as [|s l IH]; intros r x Hx; cbn [fold_left]; [reflexivity|].
    rewrite IH by auto. now apply upd_other. }
  set (ru2 := fold_left _ _ _).
  intros H. injection H as <- <-. split; [reflexivity|]. split.
  - intros x Hx. destruct (PrimFloat.is_nan (ru2 job) || PrimFloat.ltb (ru2 job) 0).
    + rewrite upd_other by auto. unfold ru2. rewrite Hfold by auto. now apply upd_other.
    + unfold ru2. rewrite Hfold by auto. now apply upd_other.
  - unfold clamped.
    destruct (PrimFloat.is_nan (ru2 job) || PrimFloat.ltb (ru2 job) 0) eqn:Hc.
    + rewrite upd_same. split; reflexivity.
    + apply orb_false_iff in Hc. exact Hc.
Qed.

Lemma ru_inv_step (P : Problem) (ef ls : Z -> Z) (D : list Z) (job : Z) (q : list Z)
      (ru ru' : Z -> float) (pushed : list Z) :
  ru_inv P D (job :: q) ru -> ru_body P ef ls job ru = Done (ru', pushed) ->
  ru_inv P (job :: D) (q ++ pushed) ru'.
Proof.
  intros (Hclean & Hsink & Hcl) Hb. apply ru_body_spec in Hb.
  destruct Hb as (-> & Hsame & Hjob). split; [|split].
  - intros j [<-|Hj]; [exact Hjob|].
    destruct (Z.eq_dec j job) as [->|Hne]; [exact Hjob|].
    rewrite Hsame by auto. now apply Hclean.
  - apply in_app_or in Hsink. rewrite <- app_assoc. apply in_or_app.
    destruct Hsink as [[<-|H0]|H0].
    + right. apply in_or_app. right. now left.
    + now left.
    + right. apply in_or_app. right. now right.
  - intros j p [<-|Hj] Hp.
    + rewrite <- app_assoc. apply in_or_app. right. apply in_or_app. now left.
    + specialize (Hcl j p Hj Hp). rewrite <- app_assoc.
      apply in_app_or in Hcl. apply in_or_app.
      destruct Hcl as [[<-|Hq]|HD].
      * right. apply in_or_app. right. now left.
      * now left.
      * right. apply in_or_app. right. now right.
Qed.




(** C4 at [chain4].  The claim adds [OMEGA2 * ru[2]] to the score of job 1,
    whose successor is job 2; lines 157-158 add [OMEGA2 * ru[0]]: the loop
    variable, which counts the successors, is used as the job to read. *)
Theorem ru_reads_the_counter :
  exists pr, preprocess chain4 zero_memory 10 = Done pr /\
    succ_list chain4 1 = [2] /\
    PrimFloat.eqb (p_ru pr 1) 0x1.1111111111111p-3%float = true /\
    PrimFloat.eqb (ru_formula chain4 (p_ef pr) (p_ls pr) (p_ru pr) 1)
                  (0x1.1111111111111p-3 + OMEGA2 * p_ru pr 2)%float = true /\
    PrimFloat.eqb (p_ru pr 1) (ru_formula chain4 (p_ef pr) (p_ls pr) (p_ru pr) 1) = false.
Proof.
  destruct (preprocess chain4 zero_memory 10) as [pr| | |] eqn:Hpre;
    try (vm_compute in Hpre; discriminate).
  exists pr. split; [reflexivity|]. split; [reflexivity|].
  vm_compute in Hpre. injection Hpre as <-. repeat split; vm_compute; reflexivity.
Qed.

(** ** The order of the doubles *)

Section FloatOrder.
Import SpecFloat.

Ltac compare_cases :=
  repeat match goal with
         | H : context [Z.compare ?a ?b] |- _ => destruct (Z.compare_spec a b)
         | |- context [Z.compare ?a ?b] => destruct (Z.compare_spec a b)
         | H : context [Pos.compare_cont Eq ?a ?b] |- _ =>
             change (Pos.compare_cont Eq a b) with (Pos.compare a b) in H
         | |- context [Pos.compare_cont Eq ?a ?b] =>
             change (Pos.compare_cont Eq a b) with (Pos.compare a b)
         | H : context [Pos.compare ?a ?b] |- _ => destruct (Pos.compare_spec a b)
         | |- context [Pos.compare ?a ?b] => destruct (Pos.compare_spec a b)
         end;
  cbn [CompOpp] in *; try discriminate; try reflexivity; try lia.

Lemma SFleb_trans (a b c : spec_float) :
  SFleb a b = true -> SFleb b c = true -> SFleb a c = true.
Proof.
  unfold SFleb, SFcompare.
  destruct a as [[]|[]| |[] ma ea], b as [[]|[]| |[] mb eb], c as [[]|[]| |[] mc ec];
    intros H1 H2; try discriminate; try reflexivity; compare_cases.
Qed.

Lemma SFcompare_refl (a : spec_float) :
  a <> S754_nan -> SFcompare a a = Some Eq.
Proof.
  destruct a as [[]|[]| |[] m e]; intros H; try reflexivity; try congruence;
    unfold SFcompare; rewrite Z.compare_refl;
    change (Pos.compare_cont Eq m m) with (Pos.compare m m);
    now rewrite Pos.compare_refl.
Qed.




Lemma is_nan_spec (x : float) :
  PrimFloat.is_nan x = false <-> Prim2SF x <> S754_nan.
Proof.
  unfold PrimFloat.is_nan. rewrite negb_false_iff, FloatAxioms.eqb_spec. unfold SFeqb.
  split.
  - intros H Hn. rewrite Hn in H. discriminate.
  - intros H. now rewrite SFcompare_refl.
Qed.

Lemma leb_trans (x y z : float) :
  PrimFloat.leb x y = true -> PrimFloat.leb y z = true -> PrimFloat.leb x z = true.
Proof. rewrite !FloatAxioms.leb_spec. apply SFleb_trans. Qed.

Lemma leb_numbers (x y : float) :
  PrimFloat.leb x y = true ->
  PrimFloat.is_nan x = false /\ PrimFloat.is_nan y = false.
Proof.
  rewrite FloatAxioms.leb_spec, !is_nan_spec. unfold SFleb. intros H.
  split; intros Hn; rewrite Hn in H;
    [|destruct (Prim2SF x) as [[]|[]| |[] ? ?]]; discriminate.
Qed.




End FloatOrder.

(** ** The winner of the tournament *)

Section Scan.
Variable cpru : Z -> float.

Lemma scan_selected_cons (s : Z) (l : list Z) (w : Z) (b : float) :
  scan_selected cpru (s :: l) (w, b)
  = scan_selected cpru l (if PrimFloat.leb b (cpru s) then (s, cpru s) else (w, b)).
Proof. reflexivity. Qed.

End Scan.




(** Scenario 5 of the specification: jobs 1 and 2 of [diamond] have the
    same priority; sampled in this order, job 2 wins. *)
Example tie_goes_to_the_later_sample :
  exists pr, preprocess diamond zero_memory 20 = Done pr /\
    let st := reset_pass diamond (pass_state (initial_state zero_memory)) in
    let (el, ne) := collect_eligible diamond (schedule st) (eligible st) in
    draw_selected (first_then_middle 1) el ne (drawn st) = [1; 2] /\
    PrimFloat.eqb (p_cpru pr 1) (p_cpru pr 2) = true /\
    step_winner diamond (p_cpru pr) (first_then_middle 1) st = 2.
Proof.
  destruct (preprocess diamond zero_memory 20) as [pr| | |] eqn:Hpre;
    try (vm_compute in Hpre; discriminate).
  exists pr. split; [reflexivity|].
  vm_compute in Hpre. injection Hpre as <-. vm_compute. auto.
Qed.

(** ** When [solve] succeeds *)

Section Success.
Variable P : Problem.
Variable cpru : Z -> float.
Variable rnd : nat -> Q.

(** The passes, unfolded at the last one. *)
Lemma passes_snoc (n : nat) :
  forall s,
    passes P cpru rnd (S n) s
    = (si <- passes P cpru rnd n s ;;
       st <- run_pass P cpru rnd (pass_state si) ;;
       Done (keep_best P si st)).
Proof.
  induction n as [|n IH]; intros s.
  - cbn [passes bind]. now destruct (run_pass P cpru rnd (pass_state s)).
  - change (passes P cpru rnd (S (S n)) s)
      with (st <- run_pass P cpru rnd (pass_state s) ;;
            passes P cpru rnd (S n) (keep_best P s st)).
    cbn [passes]. destruct (run_pass P cpru rnd (pass_state s)) as [st| | |];
      cbn [bind]; try reflexivity.
    apply IH.
Qed.

Lemma passes_prefix (n : nat) :
  forall s s' i,
    passes P cpru rnd n s = Done s' -> (i < n)%nat ->
    exists si st, passes P cpru rnd i s = Done si /\
                  run_pass P cpru rnd (pass_state si) = Done st.
Proof.
  induction n as [|n IH]; intros s s' i Hrun Hi; [lia|].
  rewrite passes_snoc in Hrun.
  destruct (passes P cpru rnd n s) as [sn| | |] eqn:Hn; try discriminate.
  cbn [bind] in Hrun.
  destruct (run_pass P cpru rnd (pass_state sn)) as [st| | |] eqn:Hp; try discriminate.
  destruct (Nat.eq_dec i n) as [->|Hne].
  - exists sn, st. auto.
  - apply (IH s sn i); auto. lia.
Qed.

Lemma passes_all (n : nat) :
  forall s,
    (forall i, (i < n)%nat ->
               exists si st, passes P cpru rnd i s = Done si /\
                             run_pass P cpru rnd (pass_state si) = Done st) ->
    exists s', passes P cpru rnd n s = Done s'.
Proof.
  induction n as [|n IH]; intros s Hall.
  - exists s. reflexivity.
  - destruct (IH s) as (sn & Hn); [intros i Hi; apply Hall; lia|].
    destruct (Hall n) as (si & st & Hsi & Hp); [lia|].
    rewrite Hn in Hsi. injection Hsi as <-.
    exists (keep_best P sn st). rewrite passes_snoc, Hn. cbn [bind]. now rewrite Hp.
Qed.

Hypothesis Hjobs : 2 <= njobs P.

(** A pass that ends leaves the sink without a finish or within the
    horizon, and the horizon is not below [-1]. *)
Lemma steps_sink (n : nat) :
  forall st st',
    schedule_steps P cpru rnd n st = Done st' ->
    schedule st (njobs P - 1) <= Z.max (horizon P) (-1) ->
    schedule st' (njobs P - 1) <= Z.max (horizon P) (-1) /\
    ((0 < n)%nat -> -1 <= horizon P).
Proof.
  induction n as [|n IH]; intros st st' Hrun Hs; cbn [schedule_steps] in Hrun.
  - injection Hrun as <-. split; [auto|lia].
  - destruct (schedule_step P cpru rnd st) as [st1| | |] eqn:Hstep; try discriminate.
    cbn [bind] in Hrun. apply schedule_step_done in Hstep. cbn zeta in Hstep.
    destruct Hstep as (_ & f & Hm & Hsched & _).
    apply move_finish_done in Hm. destruct Hm as (Hf & _).
    destruct (initial_finish_bounds P (schedule st) (step_winner P cpru rnd st))
      as (Hlow & _).
    apply IH in Hrun.
    + split; [apply Hrun|]. intros _. lia.
    + rewrite Hsched. unfold upd.
      destruct (njobs P - 1 =? step_winner P cpru rnd st); lia.
Qed.

Lemma run_pass_sink (st st' : PassState) :
  run_pass P cpru rnd st = Done st' -> schedule st' (njobs P - 1) <= horizon P.
Proof.
  unfold run_pass. intros Hrun. apply steps_sink in Hrun.
  - destruct Hrun as [H1 H2]. assert (-1 <= horizon P) by (apply H2; lia). lia.
  - cbn [reset_pass schedule]. rewrite upd_other by lia. unfold fill.
    assert (Hr : in_range (njobs P) (njobs P - 1) = true) by (apply in_range_iff; lia).
    rewrite Hr. lia.
Qed.

Lemma passes_within_horizon (n : nat) :
  forall s s',
    passes P cpru rnd (S n) s = Done s' -> bestMakespan s' <= horizon P.
Proof.
  intros s s' Hrun. rewrite passes_snoc in Hrun.
  destruct (passes P cpru rnd n s) as [sn| | |]; try discriminate. cbn [bind] in Hrun.
  destruct (run_pass P cpru rnd (pass_state sn)) as [st| | |] eqn:Hp; try discriminate.
  cbn [bind] in Hrun. injection Hrun as <-. apply run_pass_sink in Hp.
  unfold keep_best.
  destruct (Z.ltb_spec (schedule st (njobs P - 1)) (bestMakespan sn));
    cbn [bestMakespan]; lia.
Qed.
End Success.

(** C3, as the code has it.  Once preprocessing has ended, [solve] returns
    [true] if and only if every one of the [NPASSES] passes runs to its end.
    A pass in which a placement finds no finish within the horizon ends
    [solve] with [false], whatever the passes before it have built. *)
Theorem solve_succeeds_iff
        (P : Problem) (m : Memory) (rnd : nat -> Q) (fuel : nat) (pr : Priorities) :
  2 <= njobs P ->
  preprocess P m fuel = Done pr ->
  ((exists result, solve P m rnd fuel = Found result) <->
   (forall i, (i < NPASSES)%nat ->
              exists s st,
                before_pass P (p_cpru pr) rnd m i = Done s /\
                run_pass P (p_cpru pr) rnd (pass_state s) = Done st)).
Proof.
  intros Hjobs Hpre. unfold solve, before_pass. rewrite Hpre. cbn [bind]. split.
  - intros (result & Hsolve) i Hi.
    destruct (passes P (p_cpru pr) rnd NPASSES (initial_state m)) as [s| | |] eqn:Hp;
      try discriminate.
    apply (passes_prefix P (p_cpru pr) rnd NPASSES _ s i Hp Hi).
  - intros Hall. apply passes_all in Hall. destruct Hall as (s & Hp). rewrite Hp.
    pose proof (passes_within_horizon P (p_cpru pr) rnd Hjobs _ _ _ Hp) as Hle.
    apply Z.leb_le in Hle. rewrite Hle. eauto.
Qed.

Lemma solve_succeeds_iff_witness :
  match preprocess chain3 zero_memory 10 with
  | Done pr =>
      (exists result, solve chain3 zero_memory (fun _ => 0%Q) 10 = Found result) <->
      (forall i, (i < NPASSES)%nat ->
                 exists s st,
                   before_pass chain3 (p_cpru pr) (fun _ => 0%Q) zero_memory i = Done s /\
                   run_pass chain3 (p_cpru pr) (fun _ => 0%Q) (pass_state s) = Done st)
  | _ => False
  end.
Proof.
  destruct (preprocess chain3 zero_memory 10) as [pr| | |] eqn:Hpre;
    try (vm_compute in Hpre; discriminate).
  apply (solve_succeeds_iff chain3 zero_memory (fun _ => 0%Q) 10 pr); [cbn; lia|exact Hpre].
Defined.

(** The claim C3 has [solve] return [true] as soon as one pass has built a
    valid schedule within the horizon.  On [squeeze] the first pass places
    job 1 first and ends with the valid schedule [0; 1; 3; 3], of makespan 3,
    the horizon; the second pass places job 2 first, finds no finish for
    job 1 within the horizon, and [solve] returns [false]. *)
Lemma failed_pass_after_valid_pass :
  exists pr st,
    preprocess squeeze zero_memory 20 = Done pr /\
    run_pass squeeze (p_cpru pr) (first_then_middle 6)
             (pass_state (initial_state zero_memory)) = Done st /\
    map (schedule st) (range (njobs squeeze)) = [0; 1; 3; 3] /\
    checkValid squeeze (schedule st) = true /\
    schedule st (njobs squeeze - 1) <= horizon squeeze /\
    solve squeeze zero_memory (first_then_middle 6) 20 = NoSolution.
Proof.
  destruct (preprocess squeeze zero_memory 20) as [pr| | |] eqn:Hpre;
    try (vm_compute in Hpre; discriminate).
  destruct (run_pass squeeze (p_cpru pr) (first_then_middle 6)
                     (pass_state (initial_state zero_memory))) as [st| | |] eqn:Hpass;
    try (vm_compute in Hpre; injection Hpre as <-; vm_compute in Hpass; discriminate).
  exists pr, st. split; [reflexivity|]. split; [exact Hpass|].
  vm_compute in Hpre. injection Hpre as <-.
  vm_compute in Hpass. injection Hpass as <-.
  repeat split; try (vm_compute; reflexivity). vm_compute. discriminate.
Qed.

(** ** The scenarios of the specification *)

Example scenario_chain :
  solve chain3 zero_memory (fun _ => 0%Q) 10 = Found [Some 0; Some 5; Some 5].
Proof. vm_compute. reflexivity. Qed.

Example scenario_window :
  solve (window3 6) zero_memory (fun _ => 0%Q) 10 = Found [Some 0; Some 3; Some 3].
Proof. vm_compute. reflexivity. Qed.

Example scenario_short_horizon :
  solve (window3 2) zero_memory (fun _ => 0%Q) 10 = NoSolution.
Proof. vm_compute. reflexivity. Qed.

Example scenario_diamond :
  solve diamond zero_memory (fun _ => 0%Q) 20 = Found [Some 0; Some 3; Some 6; Some 6].
Proof. vm_compute. reflexivity. Qed.

(** The initial [bestMakespan] stands for "no schedule yet".  A pass whose
    makespan is not below it is not copied to [out] (line 269), and [solve]
    returns [true] having written nothing: the properties of the finish times
    written to [out] say nothing then. *)
Example nothing_written_at_the_sentinel :
  solve long_job zero_memory (fun _ => 0%Q) 10 = Found [None; None; None].
Proof. lazy. reflexivity. Qed.

(** ** The traversals end *)

Section BfsEnds.
Context {St : Type}.
Variable body : Z -> St -> outcome (St * list Z).
Variable next : Z -> list Z.
Variable height : Z -> nat.
Variable ok : Z -> Prop.
Hypothesis body_pushes :
  forall j st st' pushed, body j st = Done (st', pushed) -> pushed = next j.
Hypothesis body_fuel : forall j st, body j st <> OutOfFuel.
Hypothesis next_lower :
  forall j s, ok j -> In s (next j) -> ok s /\ (height s < height j)%nat.






End BfsEnds.

Lemma raise_successors_pushed (P : Problem) (job : Z) (l : list Z) :
  forall ef pushed,
    snd (fold_left (raise_successor P job) l (ef, pushed)) = pushed ++ l.
Proof.
  induction l as [|s l IH]; intros ef pushed; cbn [fold_left].
  - cbn. now rewrite app_nil_r.
  - cbn [raise_successor]. rewrite IH, <- app_assoc. reflexivity.
Qed.

Lemma lower_predecessors_pushed (P : Problem) (job : Z) (l : list Z) :
  forall ls pushed,
    snd (fold_left (lower_predecessor P job) l (ls, pushed)) = pushed ++ l.
Proof.
  induction l as [|s l IH]; intros ls pushed; cbn [fold_left].
  - cbn. now rewrite app_nil_r.
  - cbn [lower_predecessor]. rewrite IH, <- app_assoc. reflexivity.
Qed.

Section PassesEnd.
Variable P : Problem.
Variable rk : Z -> nat.
Hypothesis Hacyclic : acyclic P rk = true.
Hypothesis Hlinked : linked P = true.
Hypothesis Hsink : single_sink P rk = true.
Hypothesis Hjobs : 1 <= njobs P.





End PassesEnd.




(** ** The validator *)

Lemma resources_valid_jobs (P : Problem) (solution : Z -> Z) :
  resources_valid P solution
  = match check_jobs P solution (range (njobs P)) (Some (capacities P)) with
    | Some _ => true
    | None => false
    end.
Proof. reflexivity. Qed.

Lemma forallb_agree {A : Type} (f g : A -> bool) (l : list A) :
  (forall x, In x l -> f x = g x) -> forallb f l = forallb g l.
Proof.
  induction l as [|a l IH]; intros H; [reflexivity|]. cbn [forallb].
  rewrite (H a) by now left. rewrite IH; [reflexivity|]. intros x Hx. apply H. now right.
Qed.

Section Validator.
Variable P : Problem.
Variable solution : Z -> Z.

Lemma check_cells_none (job k : Z) (l : list Z) :
  fold_left (check_cell P solution job k) l None = None.
Proof. induction l as [|t l IH]; [reflexivity|exact IH]. Qed.

Lemma check_rows_none (job : Z) (l : list Z) :
  fold_left (fun av k =>
               fold_left (check_cell P solution job k) (range (durations P job)) av)
            l None = None.
Proof.
  induction l as [|k l IH]; [reflexivity|]. cbn [fold_left].
  now rewrite check_cells_none.
Qed.

Lemma check_jobs_none (l : list Z) : check_jobs P solution l None = None.
Proof.
  unfold check_jobs. induction l as [|j l IH]; [reflexivity|]. cbn [fold_left].
  unfold check_job at 2. now rewrite check_rows_none.
Qed.

(** The cells of one row: charged as [commit] charges them, as long as
    every request fits what the row holds. *)
Lemma check_row (job k : Z) :
  forall n lo a,
    n = Z.to_nat (durations P job - lo) ->
    fold_left (check_cell P solution job k) (range_from lo (durations P job)) (Some a)
    = if forallb (fun t => requests P job k t
                           <=? a k (solution job - durations P job + t))
                 (range_from lo (durations P job))
      then Some (fold_left
                   (fun av t =>
                      upd2 av k (solution job - durations P job + t)
                           (av k (solution job - durations P job + t)
                            - requests P job k t))
                   (range_from lo (durations P job)) a)
      else None.
Proof.
  induction n as [|n IH]; intros lo a Hn.
  - rewrite range_from_nil by lia. reflexivity.
  - rewrite range_from_cons by lia. cbn [fold_left forallb check_cell].
    set (s := solution job - durations P job).
    assert (Hcell : upd2 a k (s + lo) (a k (s + lo) - requests P job k lo) k (s + lo)
                    = a k (s + lo) - requests P job k lo)
      by (unfold upd2; now rewrite !Z.eqb_refl).
    rewrite Hcell.
    destruct (Z.leb_spec (requests P job k lo) (a k (s + lo))) as [Hle|Hgt].
    + destruct (Z.ltb_spec (a k (s + lo) - requests P job k lo) 0); [lia|].
      cbn [andb]. rewrite IH by lia.
      rewrite (forallb_agree
                 (fun t => requests P job k t
                           <=? upd2 a k (s + lo) (a k (s + lo) - requests P job k lo)
                                    k (s + t))
                 (fun t => requests P job k t <=? a k (s + t))); [reflexivity|].
      intros t Ht. apply In_range_from in Ht. unfold upd2.
      destruct (Z.eqb_spec (s + t) (s + lo)); [lia|]. now rewrite andb_false_r.
    + destruct (Z.ltb_spec (a k (s + lo) - requests P job k lo) 0); [|lia].
      cbn [andb]. apply check_cells_none.
Qed.

Lemma check_row_all (job k : Z) (a : Z -> Z -> Z) :
  fold_left (check_cell P solution job k) (range (durations P job)) (Some a)
  = if forallb (fun t => requests P job k t
                         <=? a k (solution job - durations P job + t))
               (range (durations P job))
    then Some (fold_left
                 (fun av t =>
                    upd2 av k (solution job - durations P job + t)
                         (av k (solution job - durations P job + t)
                          - requests P job k t))
                 (range (durations P job)) a)
    else None.
Proof. apply (check_row job k (Z.to_nat (durations P job - 0)) 0 a). reflexivity. Qed.

Lemma fits_rows (job : Z) (a : Z -> Z -> Z) (l : list Z) :
  forallb (fun k =>
             forallb (fun t => requests P job k t
                               <=? a k (solution job - durations P job + t))
                     (range (durations P job))) l = true <->
  forall k t, In k l -> 0 <= t < durations P job ->
              requests P job k t <= a k (solution job - durations P job + t).
Proof.
  rewrite forallb_forall. split.
  - intros H k t Hk Ht. specialize (H k Hk). rewrite forallb_forall in H.
    apply Z.leb_le. apply H. now apply In_range.
  - intros H k Hk. apply forallb_forall. intros t Ht. apply In_range in Ht.
    apply Z.leb_le. auto.
Qed.

(** The rows of one job. *)
Lemma check_job_rows (job : Z) :
  forall n lo a,
    n = Z.to_nat (nresources P - lo) ->
    fold_left (fun av k =>
                 fold_left (check_cell P solution job k) (range (durations P job)) av)
              (range_from lo (nresources P)) (Some a)
    = if forallb (fun k =>
                    forallb (fun t => requests P job k t
                                      <=? a k (solution job - durations P job + t))
                            (range (durations P job)))
                 (range_from lo (nresources P))
      then Some (fold_left
                   (fun av k =>
                      fold_left
                        (fun av t =>
                           upd2 av k (solution job - durations P job + t)
                                (av k (solution job - durations P job + t)
                                 - requests P job k t))
                        (range (durations P job)) av)
                   (range_from lo (nresources P)) a)
      else None.
Proof.
  induction n as [|n IH]; intros lo a Hn.
  - rewrite range_from_nil by lia. reflexivity.
  - rewrite range_from_cons by lia. cbn [fold_left forallb].
    rewrite check_row_all.
    destruct (forallb (fun t => requests P job lo t
                                <=? a lo (solution job - durations P job + t))
                      (range (durations P job))) eqn:Hrow; cbn [andb].
    + rewrite IH by lia.
      rewrite (forallb_agree
                 (fun k => forallb (fun t => requests P job k t <=? _ k _)
                                   (range (durations P job)))
                 (fun k => forallb (fun t => requests P job k t
                                             <=? a k (solution job - durations P job + t))
                                   (range (durations P job)))); [reflexivity|].
      intros k Hk. apply In_range_from in Hk. apply forallb_agree. intros t Ht.
      unfold range. rewrite (commit_row P job lo (solution job - durations P job)
                                        (durations P job)
                                        (Z.to_nat (durations P job - 0)) 0)
        by reflexivity.
      destruct (Z.eqb_spec k lo); [lia|]. reflexivity.
    + apply check_rows_none.
Qed.

(** The validator charges a job as the solver does: it passes the job if
    the job fits what is left, and then takes its requests as [commit]
    does. *)
Lemma check_job_commit (a : Z -> Z -> Z) (job : Z) :
  check_job P solution (Some a) job
  = if fits_finish P a job (solution job)
    then Some (commit P a job (solution job))
    else None.
Proof.
  unfold check_job.
  change (range (nresources P)) with (range_from 0 (nresources P)).
  rewrite (check_job_rows job (Z.to_nat (nresources P - 0)) 0 a) by reflexivity.
  assert (Hb : forallb (fun k =>
                  forallb (fun t => requests P job k t
                                    <=? a k (solution job - durations P job + t))
                          (range (durations P job))) (range (nresources P))
               = fits_finish P a job (solution job)).
  { apply eq_true_iff_eq. rewrite fits_rows, fits_finish_iff. split.
    - intros H k t Hk Ht. apply H; [now apply (In_range (nresources P))|auto].
    - intros H k t Hk Ht. apply H; [now apply (In_range (nresources P)) in Hk|auto]. }
  change (range (nresources P)) with (range_from 0 (nresources P)) in Hb.
  rewrite Hb. reflexivity.
Qed.

(** What the jobs [l] leave of [a] when the validator passes them. *)
Lemma check_jobs_passed (l : list Z) :
  forall a a',
    check_jobs P solution l (Some a) = Some a' ->
    (forall k t, 0 <= k < nresources P ->
                 a' k t = a k t - sumZ (map (request_at P solution k t) l)) /\
    ((forall k t, 0 <= k < nresources P -> 0 <= t < horizon P -> 0 <= a k t) ->
     forall k t, 0 <= k < nresources P -> 0 <= t < horizon P -> 0 <= a' k t).
Proof.
  induction l as [|j l IH]; intros a a' H.
  - injection H as <-. split; [|auto]. intros k t Hk. cbn. lia.
  - unfold check_jobs in H. cbn [fold_left] in H. rewrite check_job_commit in H.
    destruct (fits_finish P a j (solution j)) eqn:Hfit;
      [|fold (check_jobs P solution l None) in H; rewrite check_jobs_none in H;
        discriminate].
    fold (check_jobs P solution l (Some (commit P a j (solution j)))) in H.
    apply IH in H. destruct H as [Hval Hpos]. split.
    + intros k t Hk. rewrite (Hval k t Hk), commit_at. cbn [map sumZ fold_right].
      fold (sumZ (map (request_at P solution k t) l)). unfold request_at at 2.
      apply in_range_iff in Hk. rewrite Hk. cbn [andb].
      destruct ((solution j - durations P j <=? t) && (t <? solution j)); lia.
    + intros Ha. apply Hpos. intros k t Hk Ht. rewrite commit_at.
      pose proof Hk as Hk'. apply in_range_iff in Hk'. rewrite Hk'. cbn [andb].
      destruct ((solution j - durations P j <=? t) && (t <? solution j)) eqn:Hrun;
        [|auto].
      apply andb_true_iff in Hrun. destruct Hrun as [H1 H2].
      apply Z.leb_le in H1. apply Z.ltb_lt in H2.
      pose proof (proj1 (fits_finish_iff P a j (solution j)) Hfit k
                        (t - (solution j - durations P j)) Hk ltac:(lia)) as Hreq.
      replace (solution j - durations P j + (t - (solution j - durations P j)))
        with t in Hreq by lia.
      lia.
Qed.

Lemma precedence_valid_iff :
  precedence_valid P solution = true <->
  forall j p, 0 <= j < njobs P -> In p (predecessors P j) ->
              solution p <= solution j - durations P j.
Proof.
  unfold precedence_valid. rewrite forallb_forall. split.
  - intros H j p Hj Hp. apply In_range in Hj. specialize (H j Hj).
    rewrite forallb_forall in H. specialize (H p Hp).
    apply negb_true_iff, Z.ltb_ge in H. lia.
  - intros H j Hj. apply In_range in Hj. apply forallb_forall. intros p Hp.
    apply negb_true_iff, Z.ltb_ge. specialize (H j p Hj Hp). lia.
Qed.
End Validator.

(** X1. A schedule that [checkValid] accepts, on an instance without
    negative capacity, lets every job start after its predecessors have
    finished and keeps the requests of the running jobs within the capacity
    in every period of the horizon. *)
Theorem checkValid_sound (P : Problem) (solution : Z -> Z) :
  capacities_ok P = true ->
  checkValid P solution = true ->
  (forall j p, 0 <= j < njobs P -> In p (predecessors P j) ->
               solution p <= solution j - durations P j) /\
  (forall k t, 0 <= k < nresources P -> 0 <= t < horizon P ->
               load P solution k t <= capacities P k t).
Proof.
  intros Hcap Hvalid. unfold checkValid in Hvalid.
  apply andb_true_iff in Hvalid. destruct Hvalid as [Hprec Hres].
  split; [now apply precedence_valid_iff|].
  rewrite resources_valid_jobs in Hres.
  destruct (check_jobs P solution (range (njobs P)) (Some (capacities P)))
    as [a'|] eqn:Hjobs; [|discriminate].
  apply check_jobs_passed in Hjobs. destruct Hjobs as [Hval Hpos].
  intros k t Hk Ht. unfold load.
  assert (H0 : 0 <= a' k t).
  { apply Hpos; auto. intros k0 t0 Hk0 Ht0. unfold capacities_ok in Hcap.
    assert (Hkin : In k0 (range (nresources P))) by now apply In_range.
    pose proof (forallb_In _ _ _ Hcap Hkin) as H1. cbn beta in H1.
    assert (Htin : In t0 (range (horizon P))) by now apply In_range.
    pose proof (forallb_In _ _ _ H1 Htin) as H2. cbn beta in H2. now apply Z.leb_le. }
  rewrite (Hval k t Hk) in H0. lia.
Qed.

Lemma checkValid_sound_witness :
  load diamond (nthZ 0 [0; 3; 6; 6]) 0 4 <= capacities diamond 0 4.
Proof.
  apply (checkValid_sound diamond (nthZ 0 [0; 3; 6; 6])); try (vm_compute; reflexivity);
    cbn; lia.
Defined.

Section ValidatorAccepts.
Variable P : Problem.
Variable solution : Z -> Z.
Hypothesis Hrequests : requests_ok P = true.
Hypothesis Hwithin : runs_within P solution.

Lemma request_nonneg (j k t : Z) :
  0 <= j < njobs P -> 0 <= k < nresources P -> 0 <= t < durations P j ->
  0 <= requests P j k t.
Proof.
  intros Hj Hk Ht. pose proof (all_jobs_at _ _ j Hrequests Hj) as H. cbn beta in H.
  assert (Hkin : In k (range (nresources P))) by now apply In_range.
  pose proof (forallb_In _ _ _ H Hkin) as H1. cbn beta in H1.
  assert (Htin : In t (range (durations P j))) by now apply In_range.
  pose proof (forallb_In _ _ _ H1 Htin) as H2. cbn beta in H2. now apply Z.leb_le.
Qed.

Lemma request_at_nonneg (j k t : Z) :
  0 <= j < njobs P -> 0 <= k < nresources P -> 0 <= request_at P solution k t j.
Proof.
  intros Hj Hk. unfold request_at.
  destruct ((solution j - durations P j <=? t) && (t <? solution j)) eqn:Hrun; [|lia].
  apply andb_true_iff in Hrun. destruct Hrun as [H1 H2].
  apply Z.leb_le in H1. apply Z.ltb_lt in H2. apply request_nonneg; auto. lia.
Qed.

Lemma requests_at_nonneg (l : list Z) (k t : Z) :
  (forall j, In j l -> 0 <= j < njobs P) -> 0 <= k < nresources P ->
  0 <= sumZ (map (request_at P solution k t) l).
Proof.
  intros Hl Hk. induction l as [|j l IH]; [cbn; lia|].
  cbn [map sumZ fold_right]. fold (sumZ (map (request_at P solution k t) l)).
  pose proof (request_at_nonneg j k t (Hl j (or_introl eq_refl)) Hk).
  assert (0 <= sumZ (map (request_at P solution k t) l))
    by (apply IH; intros; apply Hl; now right).
  lia.
Qed.

(** Jobs whose requests together fit what is left are all passed. *)
Lemma check_jobs_accepts (l : list Z) :
  forall a,
    (forall j, In j l -> 0 <= j < njobs P) ->
    (forall k t, 0 <= k < nresources P -> 0 <= t < horizon P ->
                 sumZ (map (request_at P solution k t) l) <= a k t) ->
    exists a', check_jobs P solution l (Some a) = Some a'.
Proof.
  induction l as [|j l IH]; intros a Hl Hfit; [now exists a|].
  unfold check_jobs. cbn [fold_left]. rewrite check_job_commit.
  assert (Hj : 0 <= j < njobs P) by (apply Hl; now left).
  assert (Hfj : fits_finish P a j (solution j) = true).
  { apply fits_finish_iff. intros k t Hk Ht.
    destruct (Hwithin j Hj ltac:(lia)) as [Hs Hf].
    specialize (Hfit k (solution j - durations P j + t) Hk ltac:(lia)).
    cbn [map sumZ fold_right] in Hfit.
    fold (sumZ (map (request_at P solution k (solution j - durations P j + t)) l))
      in Hfit.
    assert (Hat : request_at P solution k (solution j - durations P j + t) j
                  = requests P j k t).
    { unfold request_at.
      destruct (Z.leb_spec (solution j - durations P j)
                           (solution j - durations P j + t)); [|lia].
      destruct (Z.ltb_spec (solution j - durations P j + t) (solution j)); [|lia].
      cbn [andb]. f_equal. lia. }
    rewrite Hat in Hfit.
    assert (0 <= sumZ (map (request_at P solution k
                                       (solution j - durations P j + t)) l))
      by (apply requests_at_nonneg; [intros; apply Hl; now right|auto]).
    lia. }
  rewrite Hfj. fold (check_jobs P solution l (Some (commit P a j (solution j)))).
  apply IH; [intros; apply Hl; now right|].
  intros k t Hk Ht. rewrite commit_at. specialize (Hfit k t Hk Ht).
  cbn [map sumZ fold_right] in Hfit.
  fold (sumZ (map (request_at P solution k t) l)) in Hfit.
  unfold request_at at 1 in Hfit.
  pose proof Hk as Hk'. apply in_range_iff in Hk'. rewrite Hk'. cbn [andb].
  destruct ((solution j - durations P j <=? t) && (t <? solution j)); lia.
Qed.

Lemma checkValid_accepts :
  (forall j p, 0 <= j < njobs P -> In p (predecessors P j) ->
               solution p <= solution j - durations P j) ->
  (forall k t, 0 <= k < nresources P -> 0 <= t < horizon P ->
               load P solution k t <= capacities P k t) ->
  checkValid P solution = true.
Proof.
  intros Hprec Hload. unfold checkValid. apply andb_true_iff. split.
  - now apply precedence_valid_iff.
  - rewrite resources_valid_jobs.
    destruct (check_jobs_accepts (range (njobs P)) (capacities P)) as [a' Ha'].
    + intros j Hj. now apply In_range in Hj.
    + exact Hload.
    + now rewrite Ha'.
Qed.
End ValidatorAccepts.

(** X2. On an instance without negative requests, [checkValid] accepts
    every schedule in which the jobs that take time run within the horizon,
    no job starts before a predecessor has finished, and the requests of
    the running jobs stay within the capacity in every period of the
    horizon: the validator rejects no feasible schedule. *)
Theorem checkValid_complete (P : Problem) (solution : Z -> Z) :
  requests_ok P = true ->
  runs_within P solution ->
  (forall j p, 0 <= j < njobs P -> In p (predecessors P j) ->
               solution p <= solution j - durations P j) ->
  (forall k t, 0 <= k < nresources P -> 0 <= t < horizon P ->
               load P solution k t <= capacities P k t) ->
  checkValid P solution = true.
Proof. intros Hreq Hwithin Hprec Hload. now apply checkValid_accepts. Qed.

Lemma checkValid_complete_witness :
  checkValid squeeze (nthZ 0 [0; 1; 3; 3]) = true.
Proof.
  apply (checkValid_complete squeeze (nthZ 0 [0; 1; 3; 3])).
  - vm_compute. reflexivity.
  - intros j Hj Hd. change (njobs squeeze) with 4 in Hj.
    assert (Hcases : j = 0 \/ j = 1 \/ j = 2 \/ j = 3) by lia.
    destruct Hcases as [-> | [-> | [-> | ->]]]; vm_compute in Hd |- *;
      try discriminate; split; discriminate.
  - intros j p Hj Hp. change (njobs squeeze) with 4 in Hj.
    assert (Hcases : j = 0 \/ j = 1 \/ j = 2 \/ j = 3) by lia.
    destruct Hcases as [-> | [-> | [-> | ->]]]; vm_compute in Hp;
      repeat (destruct Hp as [<- | Hp]; [vm_compute; discriminate|]);
      destruct Hp.
  - intros k t Hk Ht. change (nresources squeeze) with 1 in Hk.
    change (horizon squeeze) with 3 in Ht.
    assert (k = 0) by lia. subst k.
    assert (Hcases : t = 0 \/ t = 1 \/ t = 2) by lia.
    destruct Hcases as [-> | [-> | ->]]; vm_compute; discriminate.
Defined.

(** ** The schedules of the passes *)

Section PassResult.
Variable P : Problem.
Variable rk : Z -> nat.
Variable cpru : Z -> float.
Variable rnd : nat -> Q.
Hypothesis Hacyclic : acyclic P rk = true.
Hypothesis Hsource : single_source P = true.
Hypothesis Hdurations : durations_ok P = true.
Hypothesis Hdraws : unit_draws rnd.

(** The source keeps its finish 0, and no finish goes above the horizon. *)
Lemma steps_bounded (n : nat) :
  forall i st st',
    step_inv P i st -> (i + n <= Z.to_nat (njobs P - 1))%nat ->
    schedule_steps P cpru rnd n st = Done st' ->
    schedule st 0 = 0 ->
    (forall j, 1 <= j < njobs P -> schedule st j <= Z.max (horizon P) (-1)) ->
    schedule st' 0 = 0 /\
    (forall j, 1 <= j < njobs P -> schedule st' j <= Z.max (horizon P) (-1)).
Proof.
  induction n as [|n IH]; intros i st st' Hinv Hi Hrun H0 Hup;
    cbn [schedule_steps] in Hrun.
  - injection Hrun as <-. auto.
  - destruct (schedule_step P cpru rnd st) as [st1| | |] eqn:Hstep; try discriminate.
    cbn [bind] in Hrun.
    assert (Hinv1 : step_inv P (S i) st1)
      by (apply (step_inv_step P rk cpru rnd Hacyclic Hsource Hdurations Hdraws i st);
          auto; lia).
    pose proof (step_inv_eligible P rk Hacyclic i st Hinv ltac:(lia)) as Hne.
    apply schedule_step_done in Hstep. cbn zeta in Hstep.
    destruct Hstep as (Hw & f & Hm & Hsched & _).
    pose proof (winner_eligible P cpru rnd Hdraws st Hne Hw) as Hel.
    apply In_eligible_jobs in Hel. destruct Hel as (Hw1 & _).
    apply move_finish_done in Hm. destruct Hm as (Hf & _).
    apply (IH (S i) st1 st'); auto; [lia| |].
    + rewrite Hsched. rewrite upd_other by lia. exact H0.
    + intros j Hj. rewrite Hsched. unfold upd.
      destruct (j =? step_winner P cpru rnd st); [lia|auto].
Qed.

Lemma run_pass_schedule (st st' : PassState) :
  run_pass P cpru rnd st = Done st' -> pass_schedule P (schedule st').
Proof.
  intros Hrun.
  pose proof (run_pass_valid P rk cpru rnd Hacyclic Hsource Hdurations Hdraws
                             st st' Hrun) as Hvalid.
  pose proof (njobs_ge_2 P Hsource) as Hn.
  unfold run_pass in Hrun.
  assert (Hreset : step_inv P 0 (reset_pass P st)) by now apply step_inv_reset.
  apply (steps_bounded _ 0 _ _ Hreset) in Hrun.
  - destruct Hrun as [H0 Hup]. split; [exact Hvalid|]. split; [exact H0|].
    intros j Hj. destruct Hvalid as (Hpos & _).
    pose proof (Hpos (njobs P - 1) ltac:(lia)) as Hsink.
    pose proof (Hup (njobs P - 1) ltac:(lia)) as Hsink'.
    destruct (Z.eq_dec j 0) as [->|Hne]; [lia|].
    specialize (Hpos j Hj). specialize (Hup j ltac:(lia)). lia.
  - lia.
  - cbn [reset_pass schedule]. apply upd_same.
  - intros j Hj. cbn [reset_pass schedule]. rewrite upd_other by lia. unfold fill.
    assert (Hr : in_range (njobs P) j = true) by (apply in_range_iff; lia).
    rewrite Hr. lia.
Qed.

Lemma keep_best_result (s : SolveState) (st : PassState) :
  result_inv P s -> pass_schedule P (schedule st) -> result_inv P (keep_best P s st).
Proof.
  intros Hs Hv. unfold keep_best.
  destruct (schedule st (njobs P - 1) <? bestMakespan s).
  - right. exists (schedule st). split; [auto|]. cbn [out]. intros j Hj.
    unfold copy. apply in_range_iff in Hj. now rewrite Hj.
  - exact Hs.
Qed.

Lemma passes_result (n : nat) :
  forall s s', result_inv P s -> passes P cpru rnd n s = Done s' -> result_inv P s'.
Proof.
  induction n as [|n IH]; intros s s' Hs Hrun; cbn [passes] in Hrun.
  - now injection Hrun as <-.
  - destruct (run_pass P cpru rnd (pass_state s)) as [st| | |] eqn:Hp; try discriminate.
    cbn [bind] in Hrun.
    apply (IH _ _ (keep_best_result s st Hs (run_pass_schedule _ _ Hp)) Hrun).
Qed.
End PassResult.

(** What [out] holds after a call that returns [true], for a caller that
    reads the finish times [fin] from it. *)
Lemma found_schedule (P : Problem) (rk : Z -> nat) (m : Memory) (rnd : nat -> Q)
      (fuel : nat) (result : list (option Z)) (fin : Z -> Z) :
  acyclic P rk = true -> single_source P = true -> durations_ok P = true ->
  unit_draws rnd ->
  solve P m rnd fuel = Found result ->
  (forall j, 0 <= j < njobs P -> nthZ None result j = Some (fin j)) ->
  exists fin', pass_schedule P fin' /\ forall j, 0 <= j < njobs P -> fin j = fin' j.
Proof.
  intros Hacy Hsrc Hdur Hdraws Hsolve Hfin. unfold solve in Hsolve.
  pose proof (njobs_ge_2 P Hsrc) as Hn.
  destruct (preprocess P m fuel) as [pr| | |]; try discriminate. cbn [bind] in Hsolve.
  destruct (passes P (p_cpru pr) rnd NPASSES (initial_state m)) as [s| | |] eqn:Hp;
    try discriminate.
  destruct (Z.leb_spec (bestMakespan s) (horizon P)) as [Hle|]; [|discriminate].
  injection Hsolve as <-.
  assert (Hinv : result_inv P s).
  { apply (passes_result P rk (p_cpru pr) rnd Hacy Hsrc Hdur Hdraws NPASSES
                         (initial_state m) s); [now left|exact Hp]. }
  destruct Hinv as [Hnone|(fin' & Hv & Hout)].
  - specialize (Hfin 0 ltac:(lia)). rewrite nthZ_map_range in Hfin by lia.
    rewrite Hnone in Hfin by lia. discriminate.
  - exists fin'. split; [auto|]. intros j Hj. specialize (Hfin j Hj).
    rewrite nthZ_map_range in Hfin by auto. rewrite (Hout j Hj) in Hfin. congruence.
Qed.

(** X3. The solver and the validator agree: on a well-formed instance
    (acyclic, job 0 the only source and of zero duration, no negative
    duration, capacity or request), the finish times that a successful call
    of [PrSolver::solve] has written to [out] are accepted by [checkValid]. *)
Theorem found_passes_checkValid
        (P : Problem) (rk : Z -> nat) (m : Memory) (rnd : nat -> Q)
        (fuel : nat) (result : list (option Z)) (fin : Z -> Z) :
  acyclic P rk = true -> single_source P = true -> durations_ok P = true ->
  dummy_ends P = true -> capacities_ok P = true -> requests_ok P = true ->
  unit_draws rnd ->
  solve P m rnd fuel = Found result ->
  (forall j, 0 <= j < njobs P -> nthZ None result j = Some (fin j)) ->
  checkValid P fin = true.
Proof.
  intros Hacy Hsrc Hdur Hends Hcap Hreq Hdraws Hsolve Hfin.
  destruct (found_schedule P rk m rnd fuel result fin Hacy Hsrc Hdur Hdraws Hsolve Hfin)
    as (fin' & ((Hpos & Hprec & Hload) & H0 & Hup) & Heq).
  assert (Hpred : forall j p, 0 <= j < njobs P -> In p (predecessors P j) ->
                              fin p <= fin j - durations P j).
  { intros j p Hj Hp. destruct (predecessor_ranked P rk Hacy j p Hj Hp) as [Hpr _].
    rewrite (Heq j Hj), (Heq p Hpr). auto. }
  apply checkValid_accepts; auto.
  - intros j Hj Hd. split; [|rewrite (Heq j Hj); auto].
    assert (Hj1 : 1 <= j < njobs P).
    { unfold dummy_ends in Hends. apply andb_true_iff in Hends.
      destruct Hends as [He _]. apply Z.eqb_eq in He.
      destruct (Z.eq_dec j 0); [subst; lia|lia]. }
    destruct (has_predecessor P Hsrc j Hj1) as (p & Hp).
    destruct (predecessor_ranked P rk Hacy j p Hj Hp) as [Hpr _].
    specialize (Hpred j p Hj Hp). specialize (Hpos p Hpr).
    rewrite <- (Heq p Hpr) in Hpos. lia.
  - intros k t Hk Ht. specialize (Hload Hcap k t Hk Ht). unfold load in *.
    rewrite (sumZ_request_ext P fin' fin); [exact Hload|].
    intros j Hj. apply In_range in Hj. auto.
Qed.

Lemma found_passes_checkValid_witness :
  checkValid diamond (nthZ 0 [0; 3; 6; 6]) = true.
Proof.
  apply (found_passes_checkValid diamond rank_by_index zero_memory (fun _ => 0%Q) 20
                                 [Some 0; Some 3; Some 6; Some 6]);
    try (vm_compute; reflexivity).
  - intros i. split; [discriminate|reflexivity].
  - intros j Hj. change (njobs diamond) with 4 in Hj.
    assert (Hcases : j = 0 \/ j = 1 \/ j = 2 \/ j = 3) by lia.
    destruct Hcases as [-> | [-> | [-> | ->]]]; reflexivity.
Defined.

(** X4. The shape of a result: on an instance whose precedence is acyclic,
    with job 0 the only source, job [njobs - 1] the only sink and no
    negative duration, the finish times that a successful call has written
    to [out] put the source at 0 and every job between 0 and the finish of
    the sink, which is at most the horizon: [out[njobs - 1]] is the makespan
    of the schedule. *)
Theorem found_makespan_at_sink
        (P : Problem) (rk : Z -> nat) (m : Memory) (rnd : nat -> Q)
        (fuel : nat) (result : list (option Z)) (fin : Z -> Z) :
  acyclic P rk = true -> linked P = true ->
  single_source P = true -> single_sink P rk = true -> durations_ok P = true ->
  unit_draws rnd ->
  solve P m rnd fuel = Found result ->
  (forall j, 0 <= j < njobs P -> nthZ None result j = Some (fin j)) ->
  fin 0 = 0 /\
  fin (njobs P - 1) <= horizon P /\
  forall j, 0 <= j < njobs P -> 0 <= fin j <= fin (njobs P - 1).
Proof.
  intros Hacy Hlink Hsrc Hsnk Hdur Hdraws Hsolve Hfin.
  pose proof (njobs_ge_2 P Hsrc) as Hn.
  destruct (found_schedule P rk m rnd fuel result fin Hacy Hsrc Hdur Hdraws Hsolve Hfin)
    as (fin' & ((Hpos & Hprec & _) & H0 & Hup) & Heq).
  split; [rewrite Heq by lia; exact H0|].
  split; [rewrite Heq by lia; apply Hup; lia|].
  assert (Hsink : forall j, 0 <= j < njobs P ->
                            0 <= j < njobs P /\ fin' j <= fin' (njobs P - 1)).
  { apply (closed_from_sink P rk Hacy Hlink
             (fun j => 0 <= j < njobs P /\ fin' j <= fin' (njobs P - 1)) Hsnk).
    - split; lia.
    - intros j p [Hj Hle] Hp.
      destruct (predecessor_ranked P rk Hacy j p Hj Hp) as [Hpr _].
      split; [exact Hpr|]. specialize (Hprec j p Hj Hp).
      pose proof (duration_nonneg P Hdur j Hj). lia. }
  intros j Hj. rewrite (Heq j Hj), (Heq (njobs P - 1)) by lia.
  split; [auto|]. now apply Hsink.
Qed.

Lemma found_makespan_at_sink_witness :
  nthZ 0 [0; 3; 6; 6] 0 = 0 /\
  nthZ 0 [0; 3; 6; 6] (njobs diamond - 1) <= horizon diamond /\
  forall j, 0 <= j < njobs diamond ->
            0 <= nthZ 0 [0; 3; 6; 6] j <= nthZ 0 [0; 3; 6; 6] (njobs diamond - 1).
Proof.
  apply (found_makespan_at_sink diamond rank_by_index zero_memory (fun _ => 0%Q) 20
                                [Some 0; Some 3; Some 6; Some 6]);
    try (vm_compute; reflexivity).
  - intros i. split; [discriminate|reflexivity].
  - intros j Hj. change (njobs diamond) with 4 in Hj.
    assert (Hcases : j = 0 \/ j = 1 \/ j = 2 \/ j = 3) by lia.
    destruct Hcases as [-> | [-> | [-> | ->]]]; reflexivity.
Defined.

(** ** The best of the passes *)

Section FirstBest.
Variable P : Problem.
Variable cpru : Z -> float.
Variable rnd : nat -> Q.
Variable m : Memory.

Lemma nth_pass_at (n : nat) (sn : SolveState) (st : PassState) :
  passes P cpru rnd n (initial_state m) = Done sn ->
  run_pass P cpru rnd (pass_state sn) = Done st ->
  nth_pass P cpru rnd m n = Done st.
Proof. intros Hn Hp. unfold nth_pass, before_pass. rewrite Hn. exact Hp. Qed.

(** After [n] passes [bestMakespan] is at most the makespan of each, and
    [out], once written, holds the schedule of the first pass that reached
    it. *)
Lemma passes_first_best (n : nat) :
  forall s,
    passes P cpru rnd n (initial_state m) = Done s ->
    (forall i, (i < n)%nat ->
               exists st, nth_pass P cpru rnd m i = Done st /\
                          bestMakespan s <= schedule st (njobs P - 1)) /\
    (((forall j, 0 <= j < njobs P -> out s j = None) /\
      bestMakespan s = INIT_MAKESPAN) \/
     exists i st,
       (i < n)%nat /\ nth_pass P cpru rnd m i = Done st /\
       bestMakespan s = schedule st (njobs P - 1) /\
       (forall j, 0 <= j < njobs P -> out s j = Some (schedule st j)) /\
       (forall i' st', (i' < i)%nat -> nth_pass P cpru rnd m i' = Done st' ->
                       schedule st (njobs P - 1) < schedule st' (njobs P - 1))).
Proof.
  induction n as [|n IH]; intros s Hrun.
  - cbn [passes] in Hrun. injection Hrun as <-. split; [intros i Hi; lia|].
    left. split; reflexivity.
  - rewrite passes_snoc in Hrun.
    destruct (passes P cpru rnd n (initial_state m)) as [sn| | |] eqn:Hn;
      try discriminate.
    cbn [bind] in Hrun.
    destruct (run_pass P cpru rnd (pass_state sn)) as [st| | |] eqn:Hp;
      try discriminate.
    cbn [bind] in Hrun. injection Hrun as <-.
    pose proof (nth_pass_at n sn st Hn Hp) as Hnth.
    destruct (IH sn eq_refl) as [Hall Hout].
    unfold keep_best.
    destruct (Z.ltb_spec (schedule st (njobs P - 1)) (bestMakespan sn)) as [Hlt|Hge];
      cbn [bestMakespan out].
    + split.
      * intros i Hi. destruct (Nat.eq_dec i n) as [->|Hne].
        -- exists st. split; [exact Hnth|lia].
        -- destruct (Hall i ltac:(lia)) as (sti & Hi1 & Hi2).
           exists sti. split; [exact Hi1|lia].
      * right. exists n, st. split; [lia|]. split; [exact Hnth|].
        split; [reflexivity|]. split.
        -- intros j Hj. unfold copy. apply in_range_iff in Hj. now rewrite Hj.
        -- intros i' st' Hi' Hst'. destruct (Hall i' Hi') as (sti & Hi1 & Hi2).
           rewrite Hst' in Hi1. injection Hi1 as <-. lia.
    + split.
      * intros i Hi. destruct (Nat.eq_dec i n) as [->|Hne].
        -- exists st. split; [exact Hnth|lia].
        -- apply Hall. lia.
      * destruct Hout as [Hnone|(i & sti & Hi & H1 & H2 & H3 & H4)]; [now left|].
        right. exists i, sti. split; [lia|]. auto.
Qed.
End FirstBest.

(** X5. Which schedule a successful call returns: when [out] has been
    written, it holds the schedule of one of the [NPASSES] passes, all of
    which have run to their end; no pass has built a schedule of smaller
    makespan, and every earlier pass has built one of larger makespan: the
    result is the schedule of the first pass of least makespan. *)
Theorem result_is_first_best
        (P : Problem) (m : Memory) (rnd : nat -> Q) (fuel : nat) (pr : Priorities)
        (result : list (option Z)) (j0 v : Z) :
  preprocess P m fuel = Done pr ->
  solve P m rnd fuel = Found result ->
  0 <= j0 < njobs P -> nthZ None result j0 = Some v ->
  exists i st,
    (i < NPASSES)%nat /\ nth_pass P (p_cpru pr) rnd m i = Done st /\
    (forall j, 0 <= j < njobs P -> nthZ None result j = Some (schedule st j)) /\
    (forall i', (i' < NPASSES)%nat ->
                exists st', nth_pass P (p_cpru pr) rnd m i' = Done st' /\
                            schedule st (njobs P - 1) <= schedule st' (njobs P - 1)) /\
    (forall i' st', (i' < i)%nat -> nth_pass P (p_cpru pr) rnd m i' = Done st' ->
                    schedule st (njobs P - 1) < schedule st' (njobs P - 1)).
Proof.
  intros Hpre Hsolve Hj0 Hv. unfold solve in Hsolve. rewrite Hpre in Hsolve.
  cbn [bind] in Hsolve.
  destruct (passes P (p_cpru pr) rnd NPASSES (initial_state m)) as [s| | |] eqn:Hp;
    try discriminate.
  destruct (bestMakespan s <=? horizon P); [|discriminate].
  injection Hsolve as <-.
  destruct (passes_first_best P (p_cpru pr) rnd m NPASSES s Hp) as [Hall Hout].
  destruct Hout as [[Hnone _]|(i & st & Hi & Hnth & Hbest & Hout & Hfirst)].
  - rewrite nthZ_map_range in Hv by auto. rewrite Hnone in Hv by auto. discriminate.
  - exists i, st. split; [exact Hi|]. split; [exact Hnth|]. split; [|split].
    + intros j Hj. rewrite nthZ_map_range by auto. auto.
    + intros i' Hi'. destruct (Hall i' Hi') as (st' & H1 & H2).
      exists st'. split; [exact H1|lia].
    + exact Hfirst.
Qed.

Lemma result_is_first_best_witness :
  match preprocess diamond zero_memory 20 with
  | Done pr =>
      exists i st,
        (i < NPASSES)%nat /\
        nth_pass diamond (p_cpru pr) (fun _ => 0%Q) zero_memory i = Done st /\
        (forall j, 0 <= j < njobs diamond ->
                   nthZ None [Some 0; Some 3; Some 6; Some 6] j = Some (schedule st j)) /\
        (forall i', (i' < NPASSES)%nat ->
                    exists st',
                      nth_pass diamond (p_cpru pr) (fun _ => 0%Q) zero_memory i'
                      = Done st' /\
                      schedule st (njobs diamond - 1) <= schedule st' (njobs diamond - 1)) /\
        (forall i' st',
            (i' < i)%nat ->
            nth_pass diamond (p_cpru pr) (fun _ => 0%Q) zero_memory i' = Done st' ->
            schedule st (njobs diamond - 1) < schedule st' (njobs diamond - 1))
  | _ => False
  end.
Proof.
  destruct (preprocess diamond zero_memory 20) as [pr| | |] eqn:Hpre;
    try (vm_compute in Hpre; discriminate).
  apply (result_is_first_best diamond zero_memory (fun _ => 0%Q) 20 pr
                              [Some 0; Some 3; Some 6; Some 6] 0 0 Hpre).
  - vm_compute. reflexivity.
  - vm_compute. split; [discriminate|reflexivity].
  - reflexivity.
Defined.


(** ** The time windows as fixed points *)

Lemma raise_successors_exact (P : Problem) (job : Z) (l : list Z) :
  forall ef pushed ef' pushed',
    fold_left (raise_successor P job) l (ef, pushed) = (ef', pushed') ->
    ~ In job l ->
    ef' job = ef job /\
    (forall x, ~ In x l -> ef' x = ef x) /\
    (forall x, ef x <= ef' x) /\
    (forall s, In s l -> ef job + durations P s <= ef' s).
Proof.
  induction l as [|s l IH]; intros ef pushed ef' pushed' H Hjob; cbn [fold_left] in H.
  - injection H as <- <-. repeat split; auto; try lia. intros s [].
  - cbn [raise_successor] in H.
    set (ef1 := if ef job + durations P s >? ef s
                then upd ef s (ef job + durations P s) else ef) in H.
    assert (Hne : job <> s) by (intros ->; apply Hjob; now left).
    assert (Hother : forall x, x <> s -> ef1 x = ef x).
    { intros x Hx. unfold ef1. destruct (ef job + durations P s >? ef s); [|reflexivity].
      now apply upd_other. }
    assert (Hmono : forall x, ef x <= ef1 x).
    { intros x. unfold ef1. destruct (ef job + durations P s >? ef s) eqn:Hc; [|lia].
      unfold upd. destruct (x =? s) eqn:Hx; [|lia]. apply Z.eqb_eq in Hx. subst. lia. }
    assert (Hs : ef job + durations P s <= ef1 s).
    { unfold ef1.
      destruct (ef job + durations P s >? ef s) eqn:Hc; [rewrite upd_same|]; lia. }
    apply IH in H; [|intros Hin; apply Hjob; now right].
    destruct H as (Hj & Hout & Hm & Hl). rewrite (Hother job Hne) in Hj, Hl.
    split; [exact Hj|]. split; [|split].
    + intros x Hx. rewrite Hout by (intros Hin; apply Hx; now right).
      apply Hother. intros ->. apply Hx. now left.
    + intros x. specialize (Hmono x). specialize (Hm x). lia.
    + intros s' [<-|Hin]; [specialize (Hm s); lia | auto].
Qed.

Lemma lower_predecessors_exact (P : Problem) (job : Z) (l : list Z) :
  forall ls pushed ls' pushed',
    fold_left (lower_predecessor P job) l (ls, pushed) = (ls', pushed') ->
    ~ In job l ->
    ls' job = ls job /\
    (forall x, ~ In x l -> ls' x = ls x) /\
    (forall x, ls' x <= ls x) /\
    (forall p, In p l -> ls' p <= ls job - durations P p).
Proof.
  induction l as [|p l IH]; intros ls pushed ls' pushed' H Hjob; cbn [fold_left] in H.
  - injection H as <- <-. repeat split; auto; try lia. intros p [].
  - cbn [lower_predecessor] in H.
    set (ls1 := if ls job - durations P p <? ls p
                then upd ls p (ls job - durations P p) else ls) in H.
    assert (Hne : job <> p) by (intros ->; apply Hjob; now left).
    assert (Hother : forall x, x <> p -> ls1 x = ls x).
    { intros x Hx. unfold ls1. destruct (ls job - durations P p <? ls p); [|reflexivity].
      now apply upd_other. }
    assert (Hmono : forall x, ls1 x <= ls x).
    { intros x. unfold ls1. destruct (Z.ltb_spec (ls job - durations P p) (ls p)); [|lia].
      unfold upd. destruct (x =? p) eqn:Hx; [|lia]. apply Z.eqb_eq in Hx. subst. lia. }
    assert (Hp : ls1 p <= ls job - durations P p).
    { unfold ls1.
      destruct (Z.ltb_spec (ls job - durations P p) (ls p)); [rewrite upd_same|]; lia. }
    apply IH in H; [|intros Hin; apply Hjob; now right].
    destruct H as (Hj & Hout & Hm & Hl). rewrite (Hother job Hne) in Hj, Hl.
    split; [exact Hj|]. split; [|split].
    + intros x Hx. rewrite Hout by (intros Hin; apply Hx; now right).
      apply Hother. intros ->. apply Hx. now left.
    + intros x. specialize (Hmono x). specialize (Hm x). lia.
    + intros p' [<-|Hin]; [specialize (Hm p); lia | auto].
Qed.

Section Fixpoints.
Variable P : Problem.
Variable rk : Z -> nat.
Hypothesis Hacyclic : acyclic P rk = true.
Hypothesis Hlinked : linked P = true.

Lemma not_own_predecessor (j : Z) : 0 <= j < njobs P -> ~ In j (predecessors P j).
Proof.
  intros Hj Hin. destruct (predecessor_ranked P rk Hacyclic j j Hj Hin) as [_ H]. lia.
Qed.

Lemma not_own_successor (j : Z) : 0 <= j < njobs P -> ~ In j (succ_list P j).
Proof.
  intros Hj Hin. destruct (successor_arc P Hlinked j j Hj Hin) as [_ H].
  now apply (not_own_predecessor j).
Qed.

Lemma ef_fix_step (D : list Z) (job : Z) (q : list Z) (ef ef' : Z -> Z)
      (pushed : list Z) :
  ef_fix_inv P D (job :: q) ef -> ef_body P job ef = Done (ef', pushed) ->
  ef_fix_inv P (job :: D) (q ++ pushed) ef'.
Proof.
  intros [Hinv Hfix] Hb. split; [now apply (ef_inv_step P Hlinked D job q ef)|].
  destruct Hinv as (_ & Hdur & _).
  destruct (Hdur job (or_introl eq_refl)) as [Hjob _].
  unfold ef_body in Hb.
  destruct (move_finish P (finish_rounds P (ef job)) (capacities P) job (ef job))
    as [e| | |] eqn:Hm; try discriminate.
  cbn [bind] in Hb. injection Hb as Hb.
  apply move_finish_done in Hm. destruct Hm as ([He Hhor] & Hfit & _).
  pose proof (raise_successors_pushed P job (succ_list P job) (upd ef job e) [])
    as Hpushed.
  rewrite Hb in Hpushed. cbn [snd app] in Hpushed. subst pushed.
  apply raise_successors_exact in Hb; [|now apply not_own_successor].
  destruct Hb as (Hj & Hout & Hmono & Hsucc). rewrite upd_same in Hj, Hsucc.
  assert (Hjob' : ef_settled P ef' job).
  { unfold ef_settled. rewrite Hj. split; [exact Hfit|]. split; [exact Hhor|exact Hsucc]. }
  intros j [<-|Hj']; [now left|].
  destruct (Z.eq_dec j job) as [->|Hne]; [now left|].
  destruct (Hfix j Hj') as [(Hf & Hh & Hs)|[Heq|Hq]].
  - destruct (in_dec Z.eq_dec j (succ_list P job)) as [Hin|Hnot].
    + right. apply in_or_app. now right.
    + left. unfold ef_settled. rewrite (Hout j Hnot), upd_other by auto.
      split; [exact Hf|]. split; [exact Hh|].
      intros s Hs'. specialize (Hs s Hs'). specialize (Hmono s).
      assert (ef s <= upd ef job e s).
      { unfold upd. destruct (s =? job) eqn:Hx; [|lia]. apply Z.eqb_eq in Hx. subst. lia. }
      lia.
  - congruence.
  - right. apply in_or_app. now left.
Qed.

Lemma ls_fix_step (D : list Z) (job : Z) (q : list Z) (ls ls' : Z -> Z)
      (pushed : list Z) :
  ls_fix_inv P D (job :: q) ls -> ls_body P job ls = Done (ls', pushed) ->
  ls_fix_inv P (job :: D) (q ++ pushed) ls'.
Proof.
  intros [Hinv Hfix] Hb. split; [now apply (ls_inv_step P rk Hacyclic D job q ls)|].
  destruct Hinv as (_ & Hdur & _).
  destruct (Hdur job (or_introl eq_refl)) as [Hjob _].
  unfold ls_body in Hb.
  destruct (move_start P (start_rounds (ls job)) (capacities P) job (ls job))
    as [s0| | |] eqn:Hm; try discriminate.
  cbn [bind] in Hb. injection Hb as Hb.
  apply move_start_done in Hm. destruct Hm as ([Hlow Hs0] & Hfit & _).
  pose proof (lower_predecessors_pushed P job (predecessors P job) (upd ls job s0) [])
    as Hpushed.
  rewrite Hb in Hpushed. cbn [snd app] in Hpushed. subst pushed.
  apply lower_predecessors_exact in Hb; [|now apply not_own_predecessor].
  destruct Hb as (Hj & Hout & Hmono & Hpred). rewrite upd_same in Hj, Hpred.
  assert (Hjob' : ls_settled P ls' job).
  { unfold ls_settled. rewrite Hj. split; [exact Hfit|]. split; [exact Hlow|exact Hpred]. }
  intros j [<-|Hj']; [now left|].
  destruct (Z.eq_dec j job) as [->|Hne]; [now left|].
  destruct (Hfix j Hj') as [(Hf & Hh & Hs)|[Heq|Hq]].
  - destruct (in_dec Z.eq_dec j (predecessors P job)) as [Hin|Hnot].
    + right. apply in_or_app. now right.
    + left. unfold ls_settled. rewrite (Hout j Hnot), upd_other by auto.
      split; [exact Hf|]. split; [exact Hh|].
      intros p Hp'. specialize (Hs p Hp'). specialize (Hmono p).
      assert (upd ls job s0 p <= ls p).
      { unfold upd. destruct (p =? job) eqn:Hx; [|lia]. apply Z.eqb_eq in Hx. subst. lia. }
      lia.
  - congruence.
  - right. apply in_or_app. now left.
Qed.

(** When the earliest-finish pass ends, every job is settled. *)
Lemma ef_pass_fixpoint (m : Memory) (fuel : nat) (ef : Z -> Z) :
  single_source P = true -> durations P 0 = 0 ->
  ef_pass P m fuel = Done ef ->
  forall j, 0 <= j < njobs P -> ef_settled P ef j.
Proof.
  intros Hsrc H0 Hrun. pose proof (njobs_ge_2 P Hsrc) as Hn. unfold ef_pass in Hrun.
  assert (Hend : exists D, ef_fix_inv P D [] ef).
  { eapply (bfs_invariant (ef_body P) (ef_fix_inv P) ef_fix_step fuel [] [0]);
      [|exact Hrun].
    assert (Hfill : forall x, 0 <= x < njobs P -> fill (njobs P) 0 (ef0 m) x = 0).
    { intros x Hx. unfold fill. apply in_range_iff in Hx. now rewrite Hx. }
    split; [|intros j []]. split; [|split; [|split]].
    - intros x Hx. rewrite Hfill by auto. lia.
    - intros j [<-|[]]. rewrite Hfill by lia. lia.
    - now left.
    - intros j s []. }
  destruct Hend as (D & (_ & _ & Hin0 & Hcl) & Hfix). cbn [app] in Hin0, Hcl.
  assert (Hall : forall j, 0 <= j < njobs P -> In j D).
  { apply (closed_from_source P rk Hacyclic Hlinked (fun j => In j D)); auto. }
  intros j Hj. destruct (Hfix j (Hall j Hj)) as [H|[]]. exact H.
Qed.

(** When the latest-start pass ends, every job is settled. *)
Lemma ls_pass_fixpoint (m : Memory) (fuel : nat) (ls : Z -> Z) :
  single_sink P rk = true -> 1 <= njobs P -> durations P (njobs P - 1) = 0 ->
  ls_pass P m fuel = Done ls ->
  forall j, 0 <= j < njobs P -> ls_settled P ls j.
Proof.
  intros Hsnk Hn Hdn Hrun. unfold ls_pass in Hrun.
  assert (Hend : exists D, ls_fix_inv P D [] ls).
  { eapply (bfs_invariant (ls_body P) (ls_fix_inv P) ls_fix_step fuel []
                          [njobs P - 1]); [|exact Hrun].
    assert (Hfill : forall x, 0 <= x < njobs P ->
                              fill (njobs P) (horizon P) (ls0 m) x = horizon P).
    { intros x Hx. unfold fill. apply in_range_iff in Hx. now rewrite Hx. }
    split; [|intros j []]. split; [|split; [|split]].
    - intros x Hx. rewrite Hfill by auto. lia.
    - intros j [<-|[]]. rewrite Hfill by lia. lia.
    - now left.
    - intros j p []. }
  destruct Hend as (D & (_ & _ & Hin0 & Hcl) & Hfix). cbn [app] in Hin0, Hcl.
  assert (Hall : forall j, 0 <= j < njobs P -> In j D).
  { apply (closed_from_sink P rk Hacyclic Hlinked (fun j => In j D)); auto. }
  intros j Hj. destruct (Hfix j (Hall j Hj)) as [H|[]]. exact H.
Qed.
End Fixpoints.

Lemma raise_successors_below (P : Problem) (g : Z -> Z) (job : Z) (l : list Z) :
  forall ef pushed ef' pushed',
    fold_left (raise_successor P job) l (ef, pushed) = (ef', pushed') ->
    0 <= job < njobs P ->
    (forall s, In s l -> 0 <= s < njobs P /\ g job + durations P s <= g s) ->
    (forall j, 0 <= j < njobs P -> ef j <= g j) ->
    forall j, 0 <= j < njobs P -> ef' j <= g j.
Proof.
  induction l as [|s l IH]; intros ef pushed ef' pushed' H Hjob Hl Hle;
    cbn [fold_left] in H.
  - now injection H as <- <-.
  - cbn [raise_successor] in H. apply (IH _ _ _ _ H Hjob).
    + intros s' Hs'. apply Hl. now right.
    + intros j Hj. destruct (Hl s (or_introl eq_refl)) as [Hs Hg].
      destruct (ef job + durations P s >? ef s); [|auto].
      unfold upd. destruct (Z.eqb_spec j s) as [->|]; [|auto].
      specialize (Hle job Hjob). lia.
Qed.

Lemma lower_predecessors_above (P : Problem) (g : Z -> Z) (job : Z) (l : list Z) :
  forall ls pushed ls' pushed',
    fold_left (lower_predecessor P job) l (ls, pushed) = (ls', pushed') ->
    0 <= job < njobs P ->
    (forall p, In p l -> 0 <= p < njobs P /\ g p + durations P p <= g job) ->
    (forall j, 0 <= j < njobs P -> g j <= ls j) ->
    forall j, 0 <= j < njobs P -> g j <= ls' j.
Proof.
  induction l as [|p l IH]; intros ls pushed ls' pushed' H Hjob Hl Hle;
    cbn [fold_left] in H.
  - now injection H as <- <-.
  - cbn [lower_predecessor] in H. apply (IH _ _ _ _ H Hjob).
    + intros p' Hp'. apply Hl. now right.
    + intros j Hj. destruct (Hl p (or_introl eq_refl)) as [Hp Hg].
      destruct (ls job - durations P p <? ls p); [|auto].
      unfold upd. destruct (Z.eqb_spec j p) as [->|]; [|auto].
      specialize (Hle job Hjob). lia.
Qed.

Section Bounds.
Variable P : Problem.
Variable g : Z -> Z.

Lemma ef_below_step (D : list Z) (job : Z) (q : list Z) (ef ef' : Z -> Z)
      (pushed : list Z) :
  linked P = true ->
  (forall j, 0 <= j < njobs P -> fits_finish P (capacities P) j (g j) = true) ->
  (forall j s, 0 <= j < njobs P -> In s (succ_list P j) ->
               g j + durations P s <= g s) ->
  ef_below P g D (job :: q) ef -> ef_body P job ef = Done (ef', pushed) ->
  ef_below P g (job :: D) (q ++ pushed) ef'.
Proof.
  intros Hlinked Hfits Hprec [Hq Hle] Hb.
  assert (Hjob : 0 <= job < njobs P) by (apply Hq; now left).
  unfold ef_body in Hb.
  destruct (move_finish P (finish_rounds P (ef job)) (capacities P) job (ef job))
    as [e| | |] eqn:Hm; try discriminate.
  cbn [bind] in Hb. injection Hb as Hb.
  apply move_finish_done in Hm. destruct Hm as ([He _] & _ & Hfirst).
  pose proof (raise_successors_pushed P job (succ_list P job) (upd ef job e) [])
    as Hpushed.
  rewrite Hb in Hpushed. cbn [snd app] in Hpushed. subst pushed.
  split.
  - intros j Hj. apply in_app_or in Hj. destruct Hj as [Hj|Hj].
    + apply Hq. now right.
    + apply (successor_arc P Hlinked job j Hjob Hj).
  - apply (raise_successors_below P g job _ _ _ _ _ Hb Hjob).
    + intros s Hs. split; [apply (successor_arc P Hlinked job s Hjob Hs)|auto].
    + intros j Hj. unfold upd. destruct (Z.eqb_spec j job) as [->|]; [|auto].
      destruct (Z_le_gt_dec e (g job)) as [|Hgt]; [auto|].
      specialize (Hle job Hjob).
      pose proof (Hfits job Hjob) as Hfj.
      rewrite (Hfirst (g job)) in Hfj by lia. discriminate.
Qed.

Lemma ls_above_step (rk : Z -> nat) (D : list Z) (job : Z) (q : list Z)
      (ls ls' : Z -> Z) (pushed : list Z) :
  acyclic P rk = true ->
  (forall j, 0 <= j < njobs P -> fits_start P (capacities P) j (g j) = true) ->
  (forall j p, 0 <= j < njobs P -> In p (predecessors P j) ->
               g p + durations P p <= g j) ->
  ls_above P g D (job :: q) ls -> ls_body P job ls = Done (ls', pushed) ->
  ls_above P g (job :: D) (q ++ pushed) ls'.
Proof.
  intros Hacy Hfits Hprec [Hq Hle] Hb.
  assert (Hjob : 0 <= job < njobs P) by (apply Hq; now left).
  unfold ls_body in Hb.
  destruct (move_start P (start_rounds (ls job)) (capacities P) job (ls job))
    as [s0| | |] eqn:Hm; try discriminate.
  cbn [bind] in Hb. injection Hb as Hb.
  apply move_start_done in Hm. destruct Hm as ([_ Hs0] & _ & Hfirst).
  pose proof (lower_predecessors_pushed P job (predecessors P job) (upd ls job s0) [])
    as Hpushed.
  rewrite Hb in Hpushed. cbn [snd app] in Hpushed. subst pushed.
  split.
  - intros j Hj. apply in_app_or in Hj. destruct Hj as [Hj|Hj].
    + apply Hq. now right.
    + apply (predecessor_ranked P rk Hacy job j Hjob Hj).
  - apply (lower_predecessors_above P g job _ _ _ _ _ Hb Hjob).
    + intros p Hp. split; [apply (predecessor_ranked P rk Hacy job p Hjob Hp)|auto].
    + intros j Hj. unfold upd. destruct (Z.eqb_spec j job) as [->|]; [|auto].
      destruct (Z_le_gt_dec (g job) s0) as [|Hgt]; [auto|].
      specialize (Hle job Hjob).
      pose proof (Hfits job Hjob) as Hfj.
      rewrite (Hfirst (g job)) in Hfj by lia. discriminate.
Qed.

Lemma ef_pass_below (m : Memory) (fuel : nat) (ef : Z -> Z) :
  linked P = true -> 1 <= njobs P ->
  (forall j, 0 <= j < njobs P -> 0 <= g j) ->
  (forall j, 0 <= j < njobs P -> fits_finish P (capacities P) j (g j) = true) ->
  (forall j s, 0 <= j < njobs P -> In s (succ_list P j) ->
               g j + durations P s <= g s) ->
  ef_pass P m fuel = Done ef ->
  forall j, 0 <= j < njobs P -> ef j <= g j.
Proof.
  intros Hlinked Hn Hpos Hfits Hprec Hrun. unfold ef_pass in Hrun.
  assert (Hend : exists D, ef_below P g D [] ef).
  { eapply (bfs_invariant (ef_body P) (ef_below P g)
                          (fun D job q ef ef' pushed =>
                             ef_below_step D job q ef ef' pushed Hlinked Hfits Hprec)
                          fuel [] [0]); [|exact Hrun].
    split.
    - intros j [<-|[]]. lia.
    - intros j Hj. unfold fill. pose proof Hj as Hr. apply in_range_iff in Hr.
      rewrite Hr. auto. }
  destruct Hend as (D & _ & Hle). exact Hle.
Qed.

Lemma ls_pass_above (rk : Z -> nat) (m : Memory) (fuel : nat) (ls : Z -> Z) :
  acyclic P rk = true -> 1 <= njobs P ->
  (forall j, 0 <= j < njobs P -> g j <= horizon P) ->
  (forall j, 0 <= j < njobs P -> fits_start P (capacities P) j (g j) = true) ->
  (forall j p, 0 <= j < njobs P -> In p (predecessors P j) ->
               g p + durations P p <= g j) ->
  ls_pass P m fuel = Done ls ->
  forall j, 0 <= j < njobs P -> g j <= ls j.
Proof.
  intros Hacy Hn Hup Hfits Hprec Hrun. unfold ls_pass in Hrun.
  assert (Hend : exists D, ls_above P g D [] ls).
  { eapply (bfs_invariant (ls_body P) (ls_above P g)
                          (fun D job q ls ls' pushed =>
                             ls_above_step rk D job q ls ls' pushed Hacy Hfits Hprec)
                          fuel [] [njobs P - 1]); [|exact Hrun].
    split.
    - intros j [<-|[]]. lia.
    - intros j Hj. unfold fill. pose proof Hj as Hr. apply in_range_iff in Hr.
      rewrite Hr. auto. }
  destruct Hend as (D & _ & Hle). exact Hle.
Qed.
End Bounds.

(** X6. The earliest-finish pass ends at a fixed point: on a well-formed
    instance (acyclic, arcs stored consistently, job 0 the only source and
    of zero duration), when the pass ends without [return false] every job
    [j] has a finish [ef[j]] at which its requests fit the capacities, no
    later than the horizon, and every successor [s] of [j] has
    [ef[s] >= ef[j] + durations[s]], although jobs are visited again and
    again and in no topological order. *)
Theorem ef_pass_settles (P : Problem) (rk : Z -> nat) (m : Memory) (fuel : nat)
        (ef : Z -> Z) :
  acyclic P rk = true -> linked P = true -> single_source P = true ->
  durations P 0 = 0 ->
  ef_pass P m fuel = Done ef ->
  forall j, 0 <= j < njobs P ->
            fits_finish P (capacities P) j (ef j) = true /\
            ef j <= horizon P /\
            forall s, In s (succ_list P j) -> ef j + durations P s <= ef s.
Proof.
  intros Hacy Hlink Hsrc H0 Hrun j Hj.
  exact (ef_pass_fixpoint P rk Hacy Hlink m fuel ef Hsrc H0 Hrun j Hj).
Qed.

Lemma ef_pass_settles_witness :
  match ef_pass diamond zero_memory 20 with
  | Done ef =>
      fits_finish diamond (capacities diamond) 1 (ef 1) = true /\
      ef 1 <= horizon diamond /\
      forall s, In s (succ_list diamond 1) -> ef 1 + durations diamond s <= ef s
  | _ => False
  end.
Proof.
  destruct (ef_pass diamond zero_memory 20) as [ef| | |] eqn:Hef;
    try (vm_compute in Hef; discriminate).
  apply (ef_pass_settles diamond rank_by_index zero_memory 20 ef);
    try (vm_compute; reflexivity).
  - exact Hef.
  - vm_compute. split; [discriminate|reflexivity].
Defined.

(** X7. [ef] is a lower bound, hence "earliest": if finish times [g], not
    negative, let every job fit the capacities on its own and leave every
    successor [s] of [j] at least [durations[s]] after [j], then the
    earliest-finish pass ends with [ef[j] <= g[j]] for every job. *)
Theorem ef_pass_earliest (P : Problem) (m : Memory) (fuel : nat) (ef g : Z -> Z) :
  linked P = true -> 1 <= njobs P ->
  (forall j, 0 <= j < njobs P -> 0 <= g j) ->
  (forall j, 0 <= j < njobs P -> fits_finish P (capacities P) j (g j) = true) ->
  (forall j s, 0 <= j < njobs P -> In s (succ_list P j) ->
               g j + durations P s <= g s) ->
  ef_pass P m fuel = Done ef ->
  forall j, 0 <= j < njobs P -> ef j <= g j.
Proof.
  intros Hlink Hn Hpos Hfits Hprec Hrun.
  exact (ef_pass_below P g m fuel ef Hlink Hn Hpos Hfits Hprec Hrun).
Qed.

Lemma ef_pass_earliest_witness :
  match ef_pass diamond zero_memory 20 with
  | Done ef => ef 2 <= nthZ 0 [0; 3; 6; 6] 2
  | _ => False
  end.
Proof.
  destruct (ef_pass diamond zero_memory 20) as [ef| | |] eqn:Hef;
    try (vm_compute in Hef; discriminate).
  apply (ef_pass_earliest diamond zero_memory 20 ef (nthZ 0 [0; 3; 6; 6]));
    try (vm_compute; reflexivity).
  - vm_compute. discriminate.
  - intros j Hj. change (njobs diamond) with 4 in Hj.
    assert (Hcases : j = 0 \/ j = 1 \/ j = 2 \/ j = 3) by lia.
    destruct Hcases as [-> | [-> | [-> | ->]]]; vm_compute; discriminate.
  - intros j Hj. change (njobs diamond) with 4 in Hj.
    assert (Hcases : j = 0 \/ j = 1 \/ j = 2 \/ j = 3) by lia.
    destruct Hcases as [-> | [-> | [-> | ->]]]; vm_compute; reflexivity.
  - intros j s Hj Hs. change (njobs diamond) with 4 in Hj.
    assert (Hcases : j = 0 \/ j = 1 \/ j = 2 \/ j = 3) by lia.
    destruct Hcases as [-> | [-> | [-> | ->]]]; vm_compute in Hs;
      repeat (destruct Hs as [<- | Hs]; [vm_compute; discriminate|]);
      destruct Hs.
  - exact Hef.
  - vm_compute. split; [discriminate|reflexivity].
Defined.

(** X8. The latest-start pass ends at a fixed point: on a well-formed
    instance (acyclic, arcs stored consistently, job [njobs - 1] the only
    sink and of zero duration), when the pass ends without [return false]
    every job [j] has a start [ls[j] >= 0] at which its requests fit the
    capacities, and every predecessor [p] of [j] has
    [ls[p] <= ls[j] - durations[p]]. *)
Theorem ls_pass_settles (P : Problem) (rk : Z -> nat) (m : Memory) (fuel : nat)
        (ls : Z -> Z) :
  acyclic P rk = true -> linked P = true -> single_sink P rk = true ->
  1 <= njobs P -> durations P (njobs P - 1) = 0 ->
  ls_pass P m fuel = Done ls ->
  forall j, 0 <= j < njobs P ->
            fits_start P (capacities P) j (ls j) = true /\
            0 <= ls j /\
            forall p, In p (predecessors P j) -> ls p <= ls j - durations P p.
Proof.
  intros Hacy Hlink Hsnk Hn Hdn Hrun j Hj.
  exact (ls_pass_fixpoint P rk Hacy Hlink m fuel ls Hsnk Hn Hdn Hrun j Hj).
Qed.

Lemma ls_pass_settles_witness :
  match ls_pass diamond zero_memory 20 with
  | Done ls =>
      fits_start diamond (capacities diamond) 3 (ls 3) = true /\
      0 <= ls 3 /\
      forall p, In p (predecessors diamond 3) -> ls p <= ls 3 - durations diamond p
  | _ => False
  end.
Proof.
  destruct (ls_pass diamond zero_memory 20) as [ls| | |] eqn:Hls;
    try (vm_compute in Hls; discriminate).
  apply (ls_pass_settles diamond rank_by_index zero_memory 20 ls);
    try (vm_compute; reflexivity).
  - vm_compute. discriminate.
  - exact Hls.
  - vm_compute. split; [discriminate|reflexivity].
Defined.

(** X9. [ls] is an upper bound, hence "latest": if starts [g], none after
    the horizon, let every job fit the capacities on its own and leave every
    predecessor [p] of [j] finished ([g[p] + durations[p] <= g[j]]), then
    the latest-start pass ends with [g[j] <= ls[j]] for every job. *)
Theorem ls_pass_latest (P : Problem) (rk : Z -> nat) (m : Memory) (fuel : nat)
        (ls g : Z -> Z) :
  acyclic P rk = true -> 1 <= njobs P ->
  (forall j, 0 <= j < njobs P -> g j <= horizon P) ->
  (forall j, 0 <= j < njobs P -> fits_start P (capacities P) j (g j) = true) ->
  (forall j p, 0 <= j < njobs P -> In p (predecessors P j) ->
               g p + durations P p <= g j) ->
  ls_pass P m fuel = Done ls ->
  forall j, 0 <= j < njobs P -> g j <= ls j.
Proof.
  intros Hacy Hn Hup Hfits Hprec Hrun.
  exact (ls_pass_above P g rk m fuel ls Hacy Hn Hup Hfits Hprec Hrun).
Qed.

Lemma ls_pass_latest_witness :
  match ls_pass diamond zero_memory 20 with
  | Done ls => nthZ 0 [0; 0; 3; 6] 1 <= ls 1
  | _ => False
  end.
Proof.
  destruct (ls_pass diamond zero_memory 20) as [ls| | |] eqn:Hls;
    try (vm_compute in Hls; discriminate).
  apply (ls_pass_latest diamond rank_by_index zero_memory 20 ls (nthZ 0 [0; 0; 3; 6]));
    try (vm_compute; reflexivity).
  - vm_compute. discriminate.
  - intros j Hj. change (njobs diamond) with 4 in Hj.
    assert (Hcases : j = 0 \/ j = 1 \/ j = 2 \/ j = 3) by lia.
    destruct Hcases as [-> | [-> | [-> | ->]]]; vm_compute; discriminate.
  - intros j Hj. change (njobs diamond) with 4 in Hj.
    assert (Hcases : j = 0 \/ j = 1 \/ j = 2 \/ j = 3) by lia.
    destruct Hcases as [-> | [-> | [-> | ->]]]; vm_compute; reflexivity.
  - intros j p Hj Hp. change (njobs diamond) with 4 in Hj.
    assert (Hcases : j = 0 \/ j = 1 \/ j = 2 \/ j = 3) by lia.
    destruct Hcases as [-> | [-> | [-> | ->]]]; vm_compute in Hp;
      repeat (destruct Hp as [<- | Hp]; [vm_compute; discriminate|]);
      destruct Hp.
  - exact Hls.
  - vm_compute. split; [discriminate|reflexivity].
Defined.

Lemma fits_start_finish (P : Problem) (grid : Z -> Z -> Z) (j e : Z) :
  fits_start P grid j (e - durations P j) = fits_finish P grid j e.
Proof.
  apply eq_true_iff_eq. rewrite fits_start_iff, fits_finish_iff. reflexivity.
Qed.

(** X10. The time windows are never empty: on a well-formed instance, when
    preprocessing ends without [return false], every job can start at
    [ef[j] - durations[j]] at the earliest and this is not after its latest
    start [ls[j]]; the periods [ef[j] - durations[j] .. ls[j] + durations[j])
    over which line 150 adds up the availability are at least
    [durations[j]] many. *)
Theorem window_not_empty
        (P : Problem) (rk : Z -> nat) (m : Memory) (fuel : nat) (pr : Priorities) :
  acyclic P rk = true -> linked P = true -> single_source P = true ->
  durations_ok P = true -> durations P 0 = 0 ->
  preprocess P m fuel = Done pr ->
  forall j, 0 <= j < njobs P -> p_ef pr j - durations P j <= p_ls pr j.
Proof.
  intros Hacy Hlink Hsrc Hdur H0 Hpre.
  pose proof (njobs_ge_2 P Hsrc) as Hn.
  unfold preprocess in Hpre.
  destruct (ef_pass P m fuel) as [ef| | |] eqn:Hef; try discriminate. cbn [bind] in Hpre.
  destruct (ls_pass P m fuel) as [ls| | |] eqn:Hls; try discriminate. cbn [bind] in Hpre.
  destruct (ru_pass P ef ls m fuel) as [ru| | |] eqn:Hru; try discriminate.
  cbn [bind] in Hpre. injection Hpre as <-. cbn [p_ef p_ls].
  pose proof (ef_pass_fixpoint P rk Hacy Hlink m fuel ef Hsrc H0 Hef) as Hfix.
  apply (ls_pass_above P (fun j => ef j - durations P j) rk m fuel ls Hacy);
    auto; try lia.
  - intros j Hj. destruct (Hfix j Hj) as (_ & Hh & _).
    pose proof (duration_nonneg P Hdur j Hj). lia.
  - intros j Hj. destruct (Hfix j Hj) as (Hf & _). now rewrite fits_start_finish.
  - intros j p Hj Hp. destruct (predecessor_ranked P rk Hacy j p Hj Hp) as [Hpr _].
    destruct (Hfix p Hpr) as (_ & _ & Hs).
    specialize (Hs j (predecessor_arc P Hlink j p Hj Hp)). lia.
Qed.

Lemma window_not_empty_witness :
  match preprocess diamond zero_memory 20 with
  | Done pr => p_ef pr 2 - durations diamond 2 <= p_ls pr 2
  | _ => False
  end.
Proof.
  destruct (preprocess diamond zero_memory 20) as [pr| | |] eqn:Hpre;
    try (vm_compute in Hpre; discriminate).
  apply (window_not_empty diamond rank_by_index zero_memory 20 pr);
    try (vm_compute; reflexivity).
  - exact Hpre.
  - vm_compute. split; [discriminate|reflexivity].
Defined.

(** ** The result and the time windows *)

Lemma sumZ_member (f : Z -> Z) (l : list Z) (j : Z) :
  (forall x, In x l -> 0 <= f x) -> In j l -> f j <= sumZ (map f l).
Proof.
  induction l as [|x l IH]; intros Hpos Hin; [destruct Hin|].
  cbn [map sumZ fold_right]. fold (sumZ (map f l)).
  assert (Hrest : 0 <= sumZ (map f l)).
  { clear IH Hin. induction l as [|y l IHl]; [cbn; lia|].
    cbn [map sumZ fold_right]. fold (sumZ (map f l)).
    pose proof (Hpos y (or_intror (or_introl eq_refl))).
    assert (0 <= sumZ (map f l)); [|lia].
    apply IHl. intros z [<-|Hz]; apply Hpos; [now left|right; now right]. }
  destruct Hin as [<-|Hin]; [lia|].
  pose proof (Hpos x (or_introl eq_refl)).
  assert (f j <= sumZ (map f l)); [|lia].
  apply IH; auto. intros z Hz. apply Hpos. now right.
Qed.

(** In a schedule that keeps the load within the capacities, every job
    fits the capacities on its own. *)
Lemma own_requests_fit (P : Problem) (fin : Z -> Z) (j : Z) :
  requests_ok P = true -> runs_within P fin ->
  (forall k t, 0 <= k < nresources P -> 0 <= t < horizon P ->
               load P fin k t <= capacities P k t) ->
  0 <= j < njobs P ->
  fits_finish P (capacities P) j (fin j) = true.
Proof.
  intros Hreq Hwithin Hload Hj. apply fits_finish_iff. intros k t Hk Ht.
  destruct (Hwithin j Hj ltac:(lia)) as [Hs Hf].
  specialize (Hload k (fin j - durations P j + t) Hk ltac:(lia)).
  unfold load in Hload.
  pose proof (sumZ_member (request_at P fin k (fin j - durations P j + t))
                          (range (njobs P)) j) as Hmem.
  assert (Hat : request_at P fin k (fin j - durations P j + t) j = requests P j k t).
  { unfold request_at.
    destruct (Z.leb_spec (fin j - durations P j) (fin j - durations P j + t)); [|lia].
    destruct (Z.ltb_spec (fin j - durations P j + t) (fin j)); [|lia].
    cbn [andb]. f_equal. lia. }
  rewrite Hat in Hmem.
  assert (requests P j k t
          <= sumZ (map (request_at P fin k (fin j - durations P j + t))
                       (range (njobs P)))); [|lia].
  apply Hmem; [|now apply In_range].
  intros x Hx. apply In_range in Hx. now apply request_at_nonneg.
Qed.

(** X11. The result lies within the time windows: on a well-formed
    instance (acyclic, arcs stored consistently, job 0 the only source and
    of zero duration, no negative duration, capacity or request), every
    finish time that a successful call has written to [out] is at least
    [ef[j]], and the job starts at [ls[j]] at the latest. *)
Theorem found_within_windows
        (P : Problem) (rk : Z -> nat) (m : Memory) (rnd : nat -> Q)
        (fuel : nat) (pr : Priorities) (result : list (option Z)) (fin : Z -> Z) :
  acyclic P rk = true -> linked P = true -> single_source P = true ->
  durations_ok P = true -> durations P 0 = 0 ->
  capacities_ok P = true -> requests_ok P = true ->
  unit_draws rnd ->
  preprocess P m fuel = Done pr ->
  solve P m rnd fuel = Found result ->
  (forall j, 0 <= j < njobs P -> nthZ None result j = Some (fin j)) ->
  forall j, 0 <= j < njobs P ->
            p_ef pr j <= fin j /\ fin j - durations P j <= p_ls pr j.
Proof.
  intros Hacy Hlink Hsrc Hdur H0 Hcap Hreq Hdraws Hpre Hsolve Hfin.
  pose proof (njobs_ge_2 P Hsrc) as Hn.
  destruct (found_schedule P rk m rnd fuel result fin Hacy Hsrc Hdur Hdraws Hsolve Hfin)
    as (fin' & ((Hpos & Hprec & Hload) & Hf0 & Hup) & Heq).
  assert (Hpos' : forall j, 0 <= j < njobs P -> 0 <= fin j)
    by (intros j Hj; rewrite (Heq j Hj); auto).
  assert (Hup' : forall j, 0 <= j < njobs P -> fin j <= horizon P)
    by (intros j Hj; rewrite (Heq j Hj); auto).
  assert (Hpred : forall j p, 0 <= j < njobs P -> In p (predecessors P j) ->
                              fin p <= fin j - durations P j).
  { intros j p Hj Hp. destruct (predecessor_ranked P rk Hacy j p Hj Hp) as [Hpr _].
    rewrite (Heq j Hj), (Heq p Hpr). auto. }
  assert (Hwithin : runs_within P fin).
  { intros j Hj Hd. split; [|auto].
    assert (Hj1 : 1 <= j < njobs P) by (destruct (Z.eq_dec j 0); [subst; lia|lia]).
    destruct (has_predecessor P Hsrc j Hj1) as (p & Hp).
    destruct (predecessor_ranked P rk Hacy j p Hj Hp) as [Hpr _].
    specialize (Hpred j p Hj Hp). specialize (Hpos' p Hpr). lia. }
  assert (Hload' : forall k t, 0 <= k < nresources P -> 0 <= t < horizon P ->
                               load P fin k t <= capacities P k t).
  { intros k t Hk Ht. specialize (Hload Hcap k t Hk Ht). unfold load in *.
    rewrite (sumZ_request_ext P fin' fin); [exact Hload|].
    intros j Hj. apply In_range in Hj. auto. }
  assert (Hfits : forall j, 0 <= j < njobs P ->
                            fits_finish P (capacities P) j (fin j) = true)
    by (intros j Hj; now apply own_requests_fit).
  unfold preprocess in Hpre.
  destruct (ef_pass P m fuel) as [ef| | |] eqn:Hef; try discriminate. cbn [bind] in Hpre.
  destruct (ls_pass P m fuel) as [ls| | |] eqn:Hls; try discriminate. cbn [bind] in Hpre.
  destruct (ru_pass P ef ls m fuel) as [ru| | |] eqn:Hru; try discriminate.
  cbn [bind] in Hpre. injection Hpre as <-. cbn [p_ef p_ls].
  intros j Hj. split.
  - apply (ef_pass_below P fin m fuel ef Hlink); auto; try lia.
    intros i s Hi Hs. destruct (successor_arc P Hlink i s Hi Hs) as [Hsr Hp].
    specialize (Hpred s i Hsr Hp). lia.
  - apply (ls_pass_above P (fun j => fin j - durations P j) rk m fuel ls Hacy);
      auto; try lia.
    + intros i Hi. specialize (Hup' i Hi). pose proof (duration_nonneg P Hdur i Hi). lia.
    + intros i Hi. rewrite fits_start_finish. auto.
    + intros i p Hi Hp. specialize (Hpred i p Hi Hp). lia.
Qed.

Lemma found_within_windows_witness :
  match preprocess diamond zero_memory 20 with
  | Done pr =>
      p_ef pr 2 <= nthZ 0 [0; 3; 6; 6] 2 /\
      nthZ 0 [0; 3; 6; 6] 2 - durations diamond 2 <= p_ls pr 2
  | _ => False
  end.
Proof.
  destruct (preprocess diamond zero_memory 20) as [pr| | |] eqn:Hpre;
    try (vm_compute in Hpre; discriminate).
  apply (found_within_windows diamond rank_by_index zero_memory (fun _ => 0%Q) 20 pr
                              [Some 0; Some 3; Some 6; Some 6]);
    try (vm_compute; reflexivity).
  - intros i. split; [discriminate|reflexivity].
  - exact Hpre.
  - intros j Hj. change (njobs diamond) with 4 in Hj.
    assert (Hcases : j = 0 \/ j = 1 \/ j = 2 \/ j = 3) by lia.
    destruct Hcases as [-> | [-> | [-> | ->]]]; reflexivity.
  - vm_compute. split; [discriminate|reflexivity].
Defined.

(** ** Priorities that are not numbers *)

Lemma scan_selected_nan (cpru : Z -> float) (selected : list Z) :
  forall start,
    (forall s, In s selected -> PrimFloat.is_nan (cpru s) = true) ->
    scan_selected cpru selected start = start.
Proof.
  induction selected as [|s l IH]; intros [w b] Hnan; [reflexivity|].
  rewrite scan_selected_cons.
  destruct (PrimFloat.leb b (cpru s)) eqn:Hle.
  - apply leb_numbers in Hle. destruct Hle as [_ Hs].
    rewrite (Hnan s (or_introl eq_refl)) in Hs. discriminate.
  - apply IH. intros s' Hs'. apply Hnan. now right.
Qed.

Lemma passes_fault_first (P : Problem) (cpru : Z -> float) (rnd : nat -> Q)
      (n : nat) (s : SolveState) :
  run_pass P cpru rnd (pass_state s) = Fault -> passes P cpru rnd (S n) s = Fault.
Proof.
  intros H.
  change (passes P cpru rnd (S n) s)
    with (st <- run_pass P cpru rnd (pass_state s) ;;
          passes P cpru rnd n (keep_best P s st)).
  now rewrite H.
Qed.

Section NanPriorities.
Variable P : Problem.
Variable cpru : Z -> float.
Variable rnd : nat -> Q.
Hypothesis Hdraws : unit_draws rnd.

(** A step in which no eligible job has a number for its priority leaves
    [winner = -1]. *)
Lemma nan_step_fault (st : PassState) :
  eligible_jobs P (schedule st) <> [] ->
  (forall j, In j (eligible_jobs P (schedule st)) ->
             PrimFloat.is_nan (cpru j) = true) ->
  schedule_step P cpru rnd st = Fault.
Proof.
  intros Hne Hnan. unfold schedule_step.
  destruct (collect_eligible P (schedule st) (eligible st)) as [el ne] eqn:Hc.
  apply collect_eligible_spec in Hc. destruct Hc as [Hlen Hel].
  assert (Hw : pick_winner cpru (draw_selected rnd el ne (drawn st)) = -1).
  { unfold pick_winner. rewrite scan_selected_nan; [reflexivity|].
    intros s Hs. apply Hnan. unfold draw_selected in Hs. apply in_map_iff in Hs.
    destruct Hs as (j & <- & _). apply Hel.
    destruct (Hdraws (drawn st + j)%nat) as [H0 H1].
    apply choice_in_range; auto.
    rewrite Hlen. unfold len.
    destruct (eligible_jobs P (schedule st)); [congruence|cbn; lia]. }
  rewrite Hw. reflexivity.
Qed.
End NanPriorities.

(** X12. Priorities that are not numbers crash the call: on an acyclic
    instance with job 0 the only source, if [cpru] is NaN for every job that
    is eligible when a pass starts, the scan of lines 218-226 accepts no
    sample, [winner] keeps its initial value [-1] and line 230 uses it as an
    index: the call has no defined result. *)
Theorem nan_priorities_fault
        (P : Problem) (rk : Z -> nat) (m : Memory) (rnd : nat -> Q)
        (fuel : nat) (pr : Priorities) :
  acyclic P rk = true -> single_source P = true -> unit_draws rnd ->
  preprocess P m fuel = Done pr ->
  (forall j, In j (eligible_jobs P (schedule (reset_pass P (pass_state (initial_state m)))))
             -> PrimFloat.is_nan (p_cpru pr j) = true) ->
  solve P m rnd fuel = Undefined.
Proof.
  intros Hacy Hsrc Hdraws Hpre Hnan. unfold solve. rewrite Hpre. cbn [bind].
  pose proof (njobs_ge_2 P Hsrc) as Hn.
  assert (Hreset : step_inv P 0 (reset_pass P (pass_state (initial_state m))))
    by now apply step_inv_reset.
  assert (Hne : eligible_jobs P (schedule (reset_pass P (pass_state (initial_state m))))
                <> [])
    by (apply (step_inv_eligible P rk Hacy 0); [exact Hreset|lia]).
  assert (Hpass : run_pass P (p_cpru pr) rnd (pass_state (initial_state m)) = Fault).
  { unfold run_pass.
    replace (Z.to_nat (njobs P - 1)) with (S (Z.to_nat (njobs P - 2))) by lia.
    cbn [schedule_steps].
    rewrite (nan_step_fault P (p_cpru pr) rnd Hdraws _ Hne Hnan). reflexivity. }
  change NPASSES with (S 999).
  rewrite (passes_fault_first P (p_cpru pr) rnd 999 (initial_state m) Hpass).
  reflexivity.
Qed.

Lemma nan_priorities_fault_witness :
  solve idle3 hot_memory (fun _ => 0%Q) 20 = Undefined.
Proof.
  destruct (preprocess idle3 hot_memory 20) as [pr| | |] eqn:Hpre;
    try (vm_compute in Hpre; discriminate).
  apply (nan_priorities_fault idle3 rank_by_index hot_memory (fun _ => 0%Q) 20 pr);
    try (vm_compute; reflexivity).
  - intros i. split; [discriminate|reflexivity].
  - exact Hpre.
  - intros j Hj. vm_compute in Hj. destruct Hj as [<-|[]].
    vm_compute in Hpre. injection Hpre as <-. vm_compute. reflexivity.
Defined.

(** ** The loops that look for a feasible time *)

(** X13. The loop of lines 66-82 and 235-259 finds the first feasible
    finish whenever there is one: if the requests of [job] fit [grid] at
    some finish [x] with [e <= x <= horizon], the loop started at [e] ends
    with the least such finish, and does not leave [solve]. *)
Theorem move_finish_least (P : Problem) (grid : Z -> Z -> Z) (job e x : Z) :
  e <= x <= horizon P -> fits_finish P grid job x = true ->
  exists r, move_finish P (finish_rounds P e) grid job e = Done r /\
            e <= r <= x /\ fits_finish P grid job r = true /\
            forall y, e <= y < r -> fits_finish P grid job y = false.
Proof.
  intros Hx Hfit.
  destruct (move_finish P (finish_rounds P e) grid job e) as [r| | |] eqn:Hm.
  - exists r. split; [reflexivity|].
    apply move_finish_done in Hm. destruct Hm as (Hr & Hfr & Hfirst).
    split; [|split; auto].
    destruct (Z_le_gt_dec r x); [lia|]. rewrite (Hfirst x) in Hfit by lia. discriminate.
  - rewrite (move_finish_infeasible P grid job _ e Hm x Hx) in Hfit. discriminate.
  - now apply move_finish_no_fault in Hm.
  - apply move_finish_rounds in Hm; [destruct Hm|]. unfold finish_rounds. lia.
Qed.

Lemma move_finish_least_witness :
  exists r, move_finish diamond (finish_rounds diamond 1) (capacities diamond) 1 1
            = Done r /\
            1 <= r <= 5 /\ fits_finish diamond (capacities diamond) 1 r = true /\
            forall y, 1 <= y < r -> fits_finish diamond (capacities diamond) 1 y = false.
Proof.
  apply (move_finish_least diamond (capacities diamond) 1 1 5).
  - vm_compute. split; discriminate.
  - vm_compute. reflexivity.
Defined.

(** X14. The loop of lines 107-124 finds the last feasible start whenever
    there is one: if the requests of [job] fit [grid] at some start [x] with
    [0 <= x <= s], the loop started at [s] ends with the greatest such
    start, and does not leave [solve]. *)
Theorem move_start_greatest (P : Problem) (grid : Z -> Z -> Z) (job s x : Z) :
  0 <= x <= s -> fits_start P grid job x = true ->
  exists r, move_start P (start_rounds s) grid job s = Done r /\
            x <= r <= s /\ fits_start P grid job r = true /\
            forall y, r < y <= s -> fits_start P grid job y = false.
Proof.
  intros Hx Hfit.
  destruct (move_start P (start_rounds s) grid job s) as [r| | |] eqn:Hm.
  - exists r. split; [reflexivity|].
    apply move_start_done in Hm. destruct Hm as (Hr & Hfr & Hfirst).
    split; [|split; auto].
    destruct (Z_le_gt_dec x r); [lia|]. rewrite (Hfirst x) in Hfit by lia. discriminate.
  - rewrite (move_start_infeasible P grid job _ s Hm x Hx) in Hfit. discriminate.
  - now apply move_start_no_fault in Hm.
  - apply move_start_rounds in Hm; [destruct Hm|]. unfold start_rounds. lia.
Qed.

Lemma move_start_greatest_witness :
  exists r, move_start (window3 6) (start_rounds 4) (capacities (window3 6)) 1 4
            = Done r /\
            1 <= r <= 4 /\ fits_start (window3 6) (capacities (window3 6)) 1 r = true /\
            forall y, r < y <= 4 ->
                      fits_start (window3 6) (capacities (window3 6)) 1 y = false.
Proof.
  apply (move_start_greatest (window3 6) (capacities (window3 6)) 1 4 1).
  - vm_compute. split; discriminate.
  - vm_compute. reflexivity.
Defined.

(** ** The buffer of eligible jobs *)

Lemma range_from_sorted (lo hi : Z) : StronglySorted Z.lt (range_from lo hi).
Proof.
  remember (Z.to_nat (hi - lo)) as n eqn:Hn. revert lo Hn.
  induction n as [|n IH]; intros lo Hn.
  - rewrite range_from_nil by lia. constructor.
  - rewrite range_from_cons by lia. constructor; [apply IH; lia|].
    apply Forall_forall. intros x Hx. apply In_range_from in Hx. lia.
Qed.

Lemma filter_sorted (f : Z -> bool) (l : list Z) :
  StronglySorted Z.lt l -> StronglySorted Z.lt (filter f l).
Proof.
  induction 1 as [|a l Hl IH Ha]; cbn [filter]; [constructor|].
  destruct (f a); [|exact IH]. constructor; [exact IH|].
  apply Forall_forall. intros x Hx. apply filter_In in Hx.
  rewrite Forall_forall in Ha. now apply Ha.
Qed.

Lemma sorted_nth (l : list Z) :
  StronglySorted Z.lt l ->
  forall i i', (i < i')%nat -> (i' < length l)%nat -> nth i l 0 < nth i' l 0.
Proof.
  induction 1 as [|a l Hl IH Ha]; intros i i' Hi Hi'; [cbn in Hi'; lia|].
  cbn [length] in Hi'. destruct i' as [|i']; [lia|]. destruct i as [|i]; cbn [nth].
  - rewrite Forall_forall in Ha. apply Ha. apply nth_In. lia.
  - apply IH; lia.
Qed.

Lemma collect_fold_rest (P : Problem) (schedule : Z -> Z) (l : list Z) :
  forall el n el' n',
    fold_left (note_eligible P schedule) l (el, n) = (el', n') ->
    forall i, n' <= i -> el' i = el i.
Proof.
  induction l as [|j l IH]; intros el n el' n' H; cbn [fold_left] in H.
  - injection H as <- <-. auto.
  - cbn [note_eligible] in H. destruct (is_eligible P schedule j).
    + pose proof (collect_fold P schedule l _ _ _ _ H) as (Hn & _).
      intros i Hi. rewrite (IH _ _ _ _ H i Hi). apply upd_other.
      unfold len in Hn. lia.
    + apply (IH _ _ _ _ H).
Qed.

(** X15. The loop of lines 201-209 leaves in [eligible[0 .. neligible)]
    exactly the jobs that have no finish yet and whose predecessors all
    have one, each once and in increasing order, never the source; the
    cells from [neligible] on keep what they held. *)
Theorem eligible_buffer (P : Problem) (schedule el el' : Z -> Z) (n' : Z) :
  collect_eligible P schedule el = (el', n') ->
  0 <= n' /\
  (forall j, (exists i, 0 <= i < n' /\ el' i = j) <->
             (1 <= j < njobs P /\ schedule j < 0 /\
              forall p, In p (predecessors P j) -> 0 <= schedule p)) /\
  (forall i i', 0 <= i < i' -> i' < n' -> el' i < el' i') /\
  (forall i, n' <= i -> el' i = el i).
Proof.
  unfold collect_eligible. intros H.
  pose proof (collect_fold_rest P schedule _ _ _ _ _ H) as Hrest.
  apply collect_fold in H. destruct H as (Hn & _ & Hnth).
  fold (eligible_jobs P schedule) in *. unfold len in Hn.
  split; [lia|]. split; [|split; [|exact Hrest]].
  - intros j. rewrite <- In_eligible_jobs. split.
    + intros (i & Hi & <-). rewrite Hnth by lia. apply nth_In. lia.
    + intros Hin. apply (In_nth _ _ 0) in Hin. destruct Hin as (i & Hi & Hj).
      exists (Z.of_nat i). split; [lia|]. rewrite Hnth by lia.
      replace (Z.to_nat (Z.of_nat i - 0)) with i by lia. exact Hj.
  - intros i i' Hi Hi'. rewrite !Hnth by lia.
    apply sorted_nth; [|lia|lia].
    apply filter_sorted, range_from_sorted.
Qed.

Lemma eligible_buffer_witness :
  match collect_eligible diamond (nthZ 0 [0; -1; -1; -1]) (fun _ => 7) with
  | (el', n') =>
      0 <= n' /\
      (forall j, (exists i, 0 <= i < n' /\ el' i = j) <->
                 (1 <= j < njobs diamond /\ nthZ 0 [0; -1; -1; -1] j < 0 /\
                  forall p, In p (predecessors diamond j) ->
                            0 <= nthZ 0 [0; -1; -1; -1] p)) /\
      (forall i i', 0 <= i < i' -> i' < n' -> el' i < el' i') /\
      (forall i, n' <= i -> el' i = 7)
  end.
Proof.
  destruct (collect_eligible diamond (nthZ 0 [0; -1; -1; -1]) (fun _ => 7))
    as [el' n'] eqn:Hc.
  apply (eligible_buffer diamond (nthZ 0 [0; -1; -1; -1]) (fun _ => 7) el' n' Hc).
Defined.

(** ** What was in the arrays before the call *)

Section BfsAgree.
Context {St : Type}.
Variables body body2 : Z -> St -> outcome (St * list Z).
Variable R : St -> St -> Prop.
Variable ok : Z -> Prop.
Hypothesis Hbody :
  forall job st st2,
    ok job -> R st st2 ->
    same_outcome (fun r r2 => R (fst r) (fst r2) /\ snd r = snd r2 /\
                              forall j, In j (snd r) -> ok j)
                 (body job st) (body2 job st2).

Lemma bfs_agree (fuel : nat) :
  forall q st st2,
    (forall j, In j q -> ok j) -> R st st2 ->
    same_outcome R (bfs body fuel q st) (bfs body2 fuel q st2).
Proof.
  induction fuel as [|fuel IH]; intros q st st2 Hq HR.
  - destruct q; cbn [bfs same_outcome]; auto.
  - destruct q as [|job q]; cbn [bfs]; [exact HR|].
    pose proof (Hbody job st st2 (Hq job (or_introl eq_refl)) HR) as Hb.
    destruct (body job st) as [[s1 p1]| | |], (body2 job st2) as [[s2 p2]| | |];
      cbn [same_outcome bind fst snd] in *; try tauto.
    destruct Hb as (HR1 & <- & Hp). apply IH; [|exact HR1].
    intros j Hj. apply in_app_or in Hj. destruct Hj as [Hj|Hj]; [|auto].
    apply Hq. now right.
Qed.
End BfsAgree.

Lemma raise_successors_agree (P : Problem) (job : Z) (l : list Z) :
  forall ef ef2 pushed,
    0 <= job < njobs P -> (forall s, In s l -> 0 <= s < njobs P) ->
    agree (njobs P) ef ef2 ->
    agree (njobs P) (fst (fold_left (raise_successor P job) l (ef, pushed)))
          (fst (fold_left (raise_successor P job) l (ef2, pushed))).
Proof.
  induction l as [|s l IH]; intros ef ef2 pushed Hjob Hl Hag; [exact Hag|].
  cbn [fold_left raise_successor]. apply IH; auto.
  - intros s' Hs'. apply Hl. now right.
  - rewrite <- (Hag job Hjob), <- (Hag s (Hl s (or_introl eq_refl))).
    destruct (ef job + durations P s >? ef s); [|exact Hag].
    intros x Hx. unfold upd. destruct (x =? s); [reflexivity|auto].
Qed.

Lemma lower_predecessors_agree (P : Problem) (job : Z) (l : list Z) :
  forall ls ls2 pushed,
    0 <= job < njobs P -> (forall p, In p l -> 0 <= p < njobs P) ->
    agree (njobs P) ls ls2 ->
    agree (njobs P) (fst (fold_left (lower_predecessor P job) l (ls, pushed)))
          (fst (fold_left (lower_predecessor P job) l (ls2, pushed))).
Proof.
  induction l as [|p l IH]; intros ls ls2 pushed Hjob Hl Hag; [exact Hag|].
  cbn [fold_left lower_predecessor]. apply IH; auto.
  - intros p' Hp'. apply Hl. now right.
  - rewrite <- (Hag job Hjob), <- (Hag p (Hl p (or_introl eq_refl))).
    destruct (ls job - durations P p <? ls p); [|exact Hag].
    intros x Hx. unfold upd. destruct (x =? p); [reflexivity|auto].
Qed.

Lemma agree_upd {A : Type} (n : Z) (f g : Z -> A) (i : Z) (v : A) :
  agree n f g -> agree n (upd f i v) (upd g i v).
Proof. intros H x Hx. unfold upd. destruct (x =? i); [reflexivity|auto]. Qed.

Section PreprocessAgree.
Variable P : Problem.
Variable rk : Z -> nat.
Hypothesis Hacyclic : acyclic P rk = true.
Hypothesis Hlinked : linked P = true.

Lemma ef_body_agree (job : Z) (ef ef2 : Z -> Z) :
  0 <= job < njobs P -> agree (njobs P) ef ef2 ->
  same_outcome (fun r r2 => agree (njobs P) (fst r) (fst r2) /\ snd r = snd r2 /\
                            forall j, In j (snd r) -> 0 <= j < njobs P)
               (ef_body P job ef) (ef_body P job ef2).
Proof.
  intros Hjob Hag. unfold ef_body. rewrite <- (Hag job Hjob).
  destruct (move_finish P (finish_rounds P (ef job)) (capacities P) job (ef job))
    as [e| | |]; cbn [bind same_outcome]; auto.
  assert (Hsucc : forall s, In s (succ_list P job) -> 0 <= s < njobs P)
    by (intros s Hs; apply (successor_arc P Hlinked job s Hjob Hs)).
  split; [|split].
  - apply raise_successors_agree; auto. now apply agree_upd.
  - now rewrite !raise_successors_pushed.
  - rewrite raise_successors_pushed. exact Hsucc.
Qed.

Lemma ls_body_agree (job : Z) (ls ls2 : Z -> Z) :
  0 <= job < njobs P -> agree (njobs P) ls ls2 ->
  same_outcome (fun r r2 => agree (njobs P) (fst r) (fst r2) /\ snd r = snd r2 /\
                            forall j, In j (snd r) -> 0 <= j < njobs P)
               (ls_body P job ls) (ls_body P job ls2).
Proof.
  intros Hjob Hag. unfold ls_body. rewrite <- (Hag job Hjob).
  destruct (move_start P (start_rounds (ls job)) (capacities P) job (ls job))
    as [s0| | |]; cbn [bind same_outcome]; auto.
  assert (Hpred : forall p, In p (predecessors P job) -> 0 <= p < njobs P)
    by (intros p Hp; apply (predecessor_ranked P rk Hacyclic job p Hjob Hp)).
  split; [|split].
  - apply lower_predecessors_agree; auto. now apply agree_upd.
  - now rewrite !lower_predecessors_pushed.
  - rewrite lower_predecessors_pushed. exact Hpred.
Qed.

Lemma ru_body_agree (ef ef2 ls ls2 : Z -> Z) (job : Z) (ru ru2 : Z -> float) :
  agree (njobs P) ef ef2 -> agree (njobs P) ls ls2 ->
  0 <= job < njobs P -> ru = ru2 ->
  same_outcome (fun r r2 => fst r = fst r2 /\ snd r = snd r2 /\
                            forall j, In j (snd r) -> 0 <= j < njobs P)
               (ru_body P ef ls job ru) (ru_body P ef2 ls2 job ru2).
Proof.
  intros Hef Hls Hjob <-.
  assert (Hd : demand_availability P ef2 ls2 job = demand_availability P ef ls job)
    by (unfold demand_availability; now rewrite <- (Hef job Hjob), <- (Hls job Hjob)).
  unfold ru_body. rewrite Hd.
  destruct (demand_availability P ef ls job) as [demand availability].
  cbn [same_outcome fst snd]. split; [reflexivity|]. split; [reflexivity|].
  intros p Hp. apply (predecessor_ranked P rk Hacyclic job p Hjob Hp).
Qed.

(** Preprocessing ends the same way whatever the arrays held, the cells of
    [ru] apart, and with the same priorities for the jobs. *)
Lemma preprocess_agree (m m' : Memory) (fuel : nat) :
  1 <= njobs P -> ru0 m = ru0 m' ->
  same_outcome (fun pr pr2 => agree (njobs P) (p_cpru pr) (p_cpru pr2))
               (preprocess P m fuel) (preprocess P m' fuel).
Proof.
  intros Hn Hru. unfold preprocess.
  assert (Hone : forall x j, In j [x] -> 0 <= x < njobs P -> 0 <= j < njobs P)
    by (intros x j [<-|[]]; auto).
  assert (Hef : same_outcome (agree (njobs P)) (ef_pass P m fuel) (ef_pass P m' fuel)).
  { unfold ef_pass.
    apply (bfs_agree (ef_body P) (ef_body P) (agree (njobs P))
                     (fun j => 0 <= j < njobs P)).
    - intros job st st2. apply ef_body_agree.
    - intros j Hj. apply (Hone 0 j Hj). lia.
    - intros j Hj. unfold fill. apply in_range_iff in Hj. now rewrite Hj. }
  destruct (ef_pass P m fuel) as [ef| | |], (ef_pass P m' fuel) as [ef2| | |];
    cbn [same_outcome bind] in *; try tauto.
  assert (Hls : same_outcome (agree (njobs P)) (ls_pass P m fuel) (ls_pass P m' fuel)).
  { unfold ls_pass.
    apply (bfs_agree (ls_body P) (ls_body P) (agree (njobs P))
                     (fun j => 0 <= j < njobs P)).
    - intros job st st2. apply ls_body_agree.
    - intros j Hj. apply (Hone (njobs P - 1) j Hj). lia.
    - intros j Hj. unfold fill. apply in_range_iff in Hj. now rewrite Hj. }
  destruct (ls_pass P m fuel) as [ls| | |], (ls_pass P m' fuel) as [ls2| | |];
    cbn [same_outcome bind] in *; try tauto.
  assert (Hrun : same_outcome eq (ru_pass P ef ls m fuel) (ru_pass P ef2 ls2 m' fuel)).
  { unfold ru_pass.
    apply (bfs_agree (ru_body P ef ls) (ru_body P ef2 ls2) eq
                     (fun j => 0 <= j < njobs P)).
    - intros job st st2. now apply ru_body_agree.
    - intros j Hj. apply (Hone (njobs P - 1) j Hj). lia.
    - exact Hru. }
  destruct (ru_pass P ef ls m fuel) as [ru| | |],
           (ru_pass P ef2 ls2 m' fuel) as [ru2| | |];
    cbn [same_outcome bind] in *; try tauto.
  subst ru2. cbn [p_cpru]. intros j Hj. unfold cpru_of.
  pose proof Hj as Hr. apply in_range_iff in Hr. rewrite Hr.
  now rewrite (Hls j Hj).
Qed.
End PreprocessAgree.

Lemma scan_selected_agree (cpru cpru2 : Z -> float) (selected : list Z) :
  forall start,
    (forall s, In s selected -> cpru s = cpru2 s) ->
    scan_selected cpru selected start = scan_selected cpru2 selected start.
Proof.
  induction selected as [|s l IH]; intros [w b] H; [reflexivity|].
  rewrite !scan_selected_cons, <- (H s (or_introl eq_refl)).
  apply IH. intros s' Hs'. apply H. now right.
Qed.

Lemma initial_finish_agree (P : Problem) (schedule schedule2 : Z -> Z) (w : Z) :
  (forall p, In p (predecessors P w) -> schedule p = schedule2 p) ->
  initial_finish P schedule w = initial_finish P schedule2 w.
Proof.
  unfold initial_finish. generalize (-1). induction (predecessors P w) as [|p l IH];
    intros f H; [reflexivity|].
  cbn [fold_left]. rewrite <- (H p (or_introl eq_refl)).
  apply IH. intros p' Hp'. apply H. now right.
Qed.

Lemma fits_finish_agree (P : Problem) (grid grid2 : Z -> Z -> Z) (job e : Z) :
  agree_grid P grid grid2 -> 0 <= e - durations P job -> e <= horizon P ->
  fits_finish P grid job e = fits_finish P grid2 job e.
Proof.
  intros Hag Hlow Hup. apply eq_true_iff_eq. rewrite !fits_finish_iff.
  split; intros H k t Hk Ht; specialize (H k t Hk Ht);
    [rewrite <- Hag by lia | rewrite Hag by lia]; exact H.
Qed.

Lemma move_finish_agree (P : Problem) (grid grid2 : Z -> Z -> Z) (job : Z) :
  agree_grid P grid grid2 ->
  forall fuel e,
    0 <= e - durations P job ->
    move_finish P fuel grid job e = move_finish P fuel grid2 job e.
Proof.
  intros Hag fuel. induction fuel as [|fuel IH]; intros e Hlow; [reflexivity|].
  cbn [move_finish]. destruct (Z_le_gt_dec e (horizon P)) as [Hle|Hgt].
  - rewrite <- (fits_finish_agree P grid grid2 job e Hag Hlow Hle).
    destruct (fits_finish P grid job e); [reflexivity|].
    destruct (e + 1 >? horizon P); [reflexivity|]. apply IH. lia.
  - assert (H1 : (e >? horizon P) = true) by (apply Z.gtb_lt; lia).
    assert (H2 : (e + 1 >? horizon P) = true) by (apply Z.gtb_lt; lia).
    destruct (fits_finish P grid job e), (fits_finish P grid2 job e);
      rewrite ?H1, ?H2; reflexivity.
Qed.

Lemma commit_agree (P : Problem) (av av2 : Z -> Z -> Z) (w f : Z) :
  agree_grid P av av2 -> agree_grid P (commit P av w f) (commit P av2 w f).
Proof.
  intros Hag k t Hk Ht. rewrite !commit_at, (Hag k t Hk Ht). reflexivity.
Qed.

Section PassesAgree.
Variable P : Problem.
Variable rk : Z -> nat.
Variables cpru cpru2 : Z -> float.
Variable rnd : nat -> Q.
Hypothesis Hacyclic : acyclic P rk = true.
Hypothesis Hsource : single_source P = true.
Hypothesis Hdurations : durations_ok P = true.
Hypothesis Hdraws : unit_draws rnd.
Hypothesis Hcpru : agree (njobs P) cpru cpru2.

Lemma eligible_jobs_agree (schedule schedule2 : Z -> Z) :
  agree (njobs P) schedule schedule2 ->
  eligible_jobs P schedule = eligible_jobs P schedule2.
Proof.
  intros Hag. unfold eligible_jobs. apply filter_ext_in. intros j Hj.
  apply In_range_from in Hj. apply eq_true_iff_eq. rewrite !is_eligible_iff.
  assert (Hj' : 0 <= j < njobs P) by lia.
  rewrite <- (Hag j Hj'). split; intros [H1 H2]; (split; [exact H1|]);
    intros p Hp; specialize (H2 p Hp);
    destruct (predecessor_ranked P rk Hacyclic j p Hj' Hp) as [Hpr _];
    [rewrite <- (Hag p Hpr) | rewrite (Hag p Hpr)]; exact H2.
Qed.

(** A step does the same in two passes that have placed the same jobs,
    whatever else the buffers hold. *)
Lemma schedule_step_agree (st st2 : PassState) :
  same_pass P st st2 -> eligible_jobs P (schedule st) <> [] ->
  same_outcome (same_pass P) (schedule_step P cpru rnd st)
               (schedule_step P cpru2 rnd st2).
Proof.
  intros (Hsched & Hav & Hdrawn) Hne. unfold schedule_step.
  pose proof (eligible_jobs_agree _ _ Hsched) as Hel.
  destruct (collect_eligible P (schedule st) (eligible st)) as [el ne] eqn:Hc.
  destruct (collect_eligible P (schedule st2) (eligible st2)) as [el2 ne2] eqn:Hc2.
  pose proof (collect_eligible_spec P _ _ _ _ Hc) as [Hlen Hin].
  unfold collect_eligible in Hc, Hc2.
  apply collect_fold in Hc. apply collect_fold in Hc2.
  destruct Hc as (Hn & _ & Hnth). destruct Hc2 as (Hn2 & _ & Hnth2).
  fold (eligible_jobs P (schedule st)) in Hn, Hnth.
  fold (eligible_jobs P (schedule st2)) in Hn2, Hnth2.
  rewrite <- Hel in Hn2, Hnth2. assert (Heq : ne2 = ne) by lia. clear Hn2. subst ne2.
  assert (Hpos : 0 < ne).
  { rewrite Hlen. unfold len.
    destruct (eligible_jobs P (schedule st)); [congruence|cbn; lia]. }
  assert (Hsel : draw_selected rnd el2 ne (drawn st2)
                 = draw_selected rnd el ne (drawn st)).
  { unfold draw_selected. rewrite <- Hdrawn. apply map_ext. intros j.
    destruct (Hdraws (drawn st + j)%nat) as [H0 H1].
    pose proof (choice_in_range ne _ H0 H1 Hpos) as Hch.
    rewrite Hnth, Hnth2 by lia. reflexivity. }
  rewrite Hsel.
  assert (Hsamples : forall s, In s (draw_selected rnd el ne (drawn st)) ->
                               In s (eligible_jobs P (schedule st))).
  { intros s Hs. unfold draw_selected in Hs. apply in_map_iff in Hs.
    destruct Hs as (j & <- & _). apply Hin.
    destruct (Hdraws (drawn st + j)%nat) as [H0 H1].
    now apply choice_in_range. }
  assert (Hwin : pick_winner cpru2 (draw_selected rnd el ne (drawn st))
                 = pick_winner cpru (draw_selected rnd el ne (drawn st))).
  { unfold pick_winner. f_equal. symmetry. apply scan_selected_agree.
    intros s Hs. apply Hsamples, In_eligible_jobs in Hs. apply Hcpru. lia. }
  rewrite Hwin.
  remember (pick_winner cpru (draw_selected rnd el ne (drawn st))) as w eqn:Ew.
  destruct (Z.ltb_spec w 0) as [|Hw]; [exact I|].
  assert (Hwel : In w (eligible_jobs P (schedule st))).
  { apply Hsamples. rewrite Ew. apply pick_winner_in. now rewrite <- Ew. }
  apply In_eligible_jobs in Hwel. destruct Hwel as (Hwr & _ & Hplaced).
  assert (Hwr' : 0 <= w < njobs P) by lia.
  assert (Hfin : initial_finish P (schedule st2) w = initial_finish P (schedule st) w).
  { symmetry. apply initial_finish_agree. intros p Hp. apply Hsched.
    apply (predecessor_ranked P rk Hacyclic w p Hwr' Hp). }
  rewrite Hfin.
  assert (Hlow : 0 <= initial_finish P (schedule st) w - durations P w).
  { destruct (has_predecessor P Hsource w Hwr) as (p & Hp).
    destruct (initial_finish_bounds P (schedule st) w) as (_ & Hge & _).
    specialize (Hge p Hp). specialize (Hplaced p Hp). lia. }
  rewrite <- (move_finish_agree P (available st) (available st2) w Hav _ _ Hlow).
  destruct (move_finish P (finish_rounds P (initial_finish P (schedule st) w))
                        (available st) w (initial_finish P (schedule st) w))
    as [f| | |]; cbn [bind same_outcome]; auto.
  split; [|split]; cbn [schedule available drawn].
  - now apply agree_upd.
  - now apply commit_agree.
  - now rewrite Hdrawn.
Qed.

Lemma schedule_steps_agree (n : nat) :
  forall i st st2,
    step_inv P i st -> (i + n <= Z.to_nat (njobs P - 1))%nat ->
    same_pass P st st2 ->
    same_outcome (same_pass P) (schedule_steps P cpru rnd n st)
                 (schedule_steps P cpru2 rnd n st2).
Proof.
  induction n as [|n IH]; intros i st st2 Hinv Hi Hsame; cbn [schedule_steps];
    [exact Hsame|].
  pose proof (step_inv_eligible P rk Hacyclic i st Hinv ltac:(lia)) as Hne.
  pose proof (schedule_step_agree st st2 Hsame Hne) as Hstep.
  destruct (schedule_step P cpru rnd st) as [st1| | |] eqn:H1,
           (schedule_step P cpru2 rnd st2) as [st1'| | |];
    cbn [same_outcome bind] in *; try tauto.
  apply (IH (S i)); [|lia|exact Hstep].
  apply (step_inv_step P rk cpru rnd Hacyclic Hsource Hdurations Hdraws i st); auto.
  lia.
Qed.

Lemma run_pass_agree (st st2 : PassState) :
  drawn st = drawn st2 ->
  same_outcome (same_pass P) (run_pass P cpru rnd st) (run_pass P cpru2 rnd st2).
Proof.
  intros Hdrawn. unfold run_pass.
  apply (schedule_steps_agree _ 0); [now apply step_inv_reset|lia|].
  split; [|split]; cbn [reset_pass schedule available drawn]; [| |exact Hdrawn].
  - intros j Hj. unfold upd, fill. apply in_range_iff in Hj. now rewrite Hj.
  - intros k t Hk Ht. unfold copy_grid.
    apply in_range_iff in Hk. apply in_range_iff in Ht. now rewrite Hk, Ht.
Qed.

Lemma passes_agree (n : nat) :
  forall s s2,
    same_solve P s s2 ->
    same_outcome (same_solve P) (passes P cpru rnd n s) (passes P cpru2 rnd n s2).
Proof.
  pose proof (njobs_ge_2 P Hsource) as Hjobs.
  induction n as [|n IH]; intros s s2 Hsame; cbn [passes]; [exact Hsame|].
  destruct Hsame as (Hdrawn & Hbest & Hout).
  pose proof (run_pass_agree (pass_state s) (pass_state s2) Hdrawn) as Hpass.
  destruct (run_pass P cpru rnd (pass_state s)) as [st| | |],
           (run_pass P cpru2 rnd (pass_state s2)) as [st2| | |];
    cbn [same_outcome bind] in *; try tauto.
  apply IH. destruct Hpass as (Hsched & _ & Hd). unfold keep_best.
  rewrite <- Hbest, <- (Hsched (njobs P - 1)) by lia.
  destruct (schedule st (njobs P - 1) <? bestMakespan s);
    (split; [|split]); cbn [pass_state bestMakespan out]; auto.
  intros j Hj. unfold copy. destruct (in_range (njobs P) j); [|auto].
  now rewrite (Hsched j Hj).
Qed.
End PassesAgree.

(** X17. What the arrays held before the call does not matter, the cells of
    [ru] apart: on an instance whose precedence is acyclic, with the arcs
    stored consistently, job 0 the only source and no negative duration,
    two calls that draw the same random numbers and find the same cells in
    the array [ru], which line 158 reads before writing, return the same
    and leave the same schedule in [out], whatever [new] has left in [ef],
    [ls], [cpru], [available], [eligible] and [schedule]. *)
Theorem solve_ignores_memory
        (P : Problem) (rk : Z -> nat) (m m' : Memory) (rnd : nat -> Q) (fuel : nat) :
  acyclic P rk = true -> linked P = true -> single_source P = true ->
  durations_ok P = true -> unit_draws rnd ->
  ru0 m = ru0 m' ->
  solve P m rnd fuel = solve P m' rnd fuel.
Proof.
  intros Hacy Hlink Hsrc Hdur Hdraws Hru. unfold solve.
  pose proof (njobs_ge_2 P Hsrc) as Hn.
  pose proof (preprocess_agree P rk Hacy Hlink m m' fuel ltac:(lia) Hru) as Hpre.
  destruct (preprocess P m fuel) as [pr| | |], (preprocess P m' fuel) as [pr2| | |];
    cbn [same_outcome bind] in *; try (exfalso; exact Hpre);
    [|reflexivity|reflexivity|reflexivity].
  assert (Hinit : same_solve P (initial_state m) (initial_state m'))
    by (split; [reflexivity|split; [reflexivity|intros j Hj; reflexivity]]).
  pose proof (passes_agree P rk (p_cpru pr) (p_cpru pr2) rnd Hacy Hsrc Hdur Hdraws Hpre
                           NPASSES _ _ Hinit) as Hpasses.
  destruct (passes P (p_cpru pr) rnd NPASSES (initial_state m)) as [s| | |],
           (passes P (p_cpru pr2) rnd NPASSES (initial_state m')) as [s2| | |];
    cbn [same_outcome] in *; try (exfalso; exact Hpasses);
    [|reflexivity|reflexivity|reflexivity].
  destruct Hpasses as (_ & Hbest & Hout). rewrite <- Hbest.
  destruct (bestMakespan s <=? horizon P); [|reflexivity].
  f_equal. apply map_ext_in. intros j Hj. apply In_range in Hj. auto.
Qed.

Lemma solve_ignores_memory_witness :
  solve diamond zero_memory (fun _ => 0%Q) 20
  = solve diamond stale_memory (fun _ => 0%Q) 20.
Proof.
  apply (solve_ignores_memory diamond rank_by_index zero_memory stale_memory
                              (fun _ => 0%Q) 20);
    try (vm_compute; reflexivity).
  intros i. split; [discriminate|reflexivity].
Defined.

(** ** The driver *)

(** Below the initial [bestMakespan] the first pass writes [out]. *)
Lemma found_written (P : Problem) (m : Memory) (rnd : nat -> Q) (fuel : nat)
      (out : list (option Z)) (result0 : Z -> Z) :
  2 <= njobs P -> horizon P < INIT_MAKESPAN ->
  solve P m rnd fuel = Found out ->
  forall j, 0 <= j < njobs P -> nthZ None out j = Some (result_array result0 out j).
Proof.
  intros Hn Hhor Hsolve. unfold solve in Hsolve.
  destruct (preprocess P m fuel) as [pr| | |]; try discriminate. cbn [bind] in Hsolve.
  destruct (passes P (p_cpru pr) rnd NPASSES (initial_state m)) as [s| | |] eqn:Hp;
    try discriminate.
  destruct (bestMakespan s <=? horizon P); [|discriminate].
  injection Hsolve as <-.
  destruct (passes_first_best P (p_cpru pr) rnd m NPASSES s Hp) as [Hall Hout].
  destruct (Hall 0%nat) as (st0 & H0 & Hbest0); [unfold NPASSES; lia|].
  unfold nth_pass, before_pass in H0. cbn [passes bind] in H0.
  apply (run_pass_sink P (p_cpru pr) rnd Hn) in H0.
  destruct Hout as [[_ Hinit]|(i & st & _ & _ & _ & Hout & _)]; [lia|].
  intros j Hj. unfold result_array. rewrite nthZ_map_range by auto.
  now rewrite (Hout j Hj).
Qed.

(** X18. The driver never reports an invalid schedule for a well-formed
    instance: if the instance is acyclic with job 0 the only source and of
    zero duration, has no negative duration, capacity or request and a
    horizon below [INT32_MAX / 2], then whenever a makespan is reported it
    is between 0 and the horizon and [checkValid] has accepted the array
    [result]. *)
Theorem reported_schedule_valid
        (P : Problem) (rk : Z -> nat) (m : Memory) (rnd : nat -> Q) (fuel : nat)
        (result0 : Z -> Z) (makespan : Z) (valid : bool) :
  acyclic P rk = true -> single_source P = true -> durations_ok P = true ->
  dummy_ends P = true -> capacities_ok P = true -> requests_ok P = true ->
  unit_draws rnd -> horizon P < INIT_MAKESPAN ->
  run_instance P m rnd fuel result0 = Some (Makespan makespan valid) ->
  valid = true /\ 0 <= makespan <= horizon P.
Proof.
  intros Hacy Hsrc Hdur Hends Hcap Hreq Hdraws Hhor Hrun.
  pose proof (njobs_ge_2 P Hsrc) as Hn. unfold run_instance in Hrun.
  destruct (solve P m rnd fuel) as [out| | |] eqn:Hsolve; try discriminate.
  cbn zeta in Hrun. injection Hrun as <- <-.
  pose proof (found_written P m rnd fuel out result0 Hn Hhor Hsolve) as Hfin.
  destruct (found_schedule P rk m rnd fuel out (result_array result0 out)
                           Hacy Hsrc Hdur Hdraws Hsolve Hfin)
    as (fin' & ((Hpos & Hprec & Hload) & H0 & Hup) & Heq).
  split.
  - assert (Hpred : forall j p, 0 <= j < njobs P -> In p (predecessors P j) ->
                                result_array result0 out p
                                <= result_array result0 out j - durations P j).
    { intros j p Hj Hp. destruct (predecessor_ranked P rk Hacy j p Hj Hp) as [Hpr _].
      rewrite (Heq j Hj), (Heq p Hpr). auto. }
    apply checkValid_accepts; auto.
    + intros j Hj Hd. split; [|rewrite (Heq j Hj); auto].
      assert (Hj1 : 1 <= j < njobs P).
      { unfold dummy_ends in Hends. apply andb_true_iff in Hends.
        destruct Hends as [He _]. apply Z.eqb_eq in He.
        destruct (Z.eq_dec j 0); [subst; lia|lia]. }
      destruct (has_predecessor P Hsrc j Hj1) as (p & Hp).
      destruct (predecessor_ranked P rk Hacy j p Hj Hp) as [Hpr _].
      specialize (Hpred j p Hj Hp). specialize (Hpos p Hpr).
      rewrite <- (Heq p Hpr) in Hpos. lia.
    + intros k t Hk Ht. specialize (Hload Hcap k t Hk Ht). unfold load in *.
      rewrite (sumZ_request_ext P fin' (result_array result0 out)); [exact Hload|].
      intros j Hj. apply In_range in Hj. auto.
  - rewrite (Heq (njobs P - 1)) by lia. split; [apply Hpos|apply Hup]; lia.
Qed.

Lemma reported_schedule_valid_witness : true = true /\ 0 <= 6 <= horizon diamond.
Proof.
  apply (reported_schedule_valid diamond rank_by_index zero_memory (fun _ => 0%Q) 20
                                 (fun _ => 42));
    try (vm_compute; reflexivity).
  intros i. split; [discriminate|reflexivity].
Defined.

(** ** The sign of the priorities *)

Lemma round_not_negative (mx ex : Z) (lx : location) :
  not_negative (binary_round_aux prec emax false mx ex lx).
Proof.
  unfold binary_round_aux.
  destruct (shr_fexp prec emax mx ex lx) as [m1 e1].
  destruct (shr_fexp prec emax (round_nearest_even (shr_m m1) (loc_of_shr_record m1))
                     e1 loc_Exact) as [m2 e2].
  destruct (shr_m m2); [exact I| |exact I].
  destruct (e2 <=? emax - prec); exact I.
Qed.

Lemma mul_not_negative (x y : float) :
  not_negative (Prim2SF x) -> not_negative (Prim2SF y) ->
  not_negative (Prim2SF (x * y)).
Proof.
  rewrite FloatAxioms.mul_spec. unfold SF64mul.
  destruct (Prim2SF x) as [[]|[]| |[] mx ex], (Prim2SF y) as [[]|[]| |[] my ey];
    cbn [SFmul not_negative xorb]; try tauto; intros _ _; apply round_not_negative.
Qed.

Lemma double_of_int_not_negative (z : Z) :
  0 <= z -> not_negative (Prim2SF (double_of_int z)).
Proof.
  intros Hz. unfold double_of_int. destruct (Z.ltb_spec z 0); [lia|].
  rewrite FloatAxioms.of_uint63_spec. unfold binary_normalize.
  destruct (Uint63Axioms.to_Z (Uint63.of_Z z)) as [|p|p] eqn:Hp; [exact I| |].
  - unfold binary_round.
    destruct (shl_align p 0 (fexp prec emax (Z.pos (digits2_pos p) + 0))).
    apply round_not_negative.
  - pose proof (Uint63.to_Z_bounded (Uint63.of_Z z)) as Hb.
    change Uint63.to_Z with Uint63Axioms.to_Z in Hb. rewrite Hp in Hb. lia.
Qed.

Lemma clamped_not_negative (x : float) : clamped x -> not_negative (Prim2SF x).
Proof.
  intros [_ Hlt]. rewrite FloatAxioms.ltb_spec in Hlt.
  change (Prim2SF 0) with (S754_zero false) in Hlt.
  destruct (Prim2SF x) as [[]|[]| |[] mx ex]; cbn in *; try exact I; discriminate.
Qed.

Lemma not_negative_leb (x : float) :
  not_negative (Prim2SF x) ->
  PrimFloat.is_nan x = true \/ PrimFloat.leb 0 x = true.
Proof.
  intros H. destruct (PrimFloat.is_nan x) eqn:Hnan; [now left|right].
  apply is_nan_spec in Hnan. rewrite FloatAxioms.leb_spec.
  change (Prim2SF 0) with (S754_zero false).
  destruct (Prim2SF x) as [[]|[]| |[] mx ex]; cbn in *; try reflexivity; tauto.
Qed.

Lemma lower_predecessors_mono (P : Problem) (job : Z) (l : list Z) :
  forall ls pushed x,
    fst (fold_left (lower_predecessor P job) l (ls, pushed)) x <= ls x.
Proof.
  induction l as [|p l IH]; intros ls pushed x; cbn [fold_left]; [cbn; lia|].
  cbn [lower_predecessor]. etransitivity; [apply IH|].
  destruct (Z.ltb_spec (ls job - durations P p) (ls p)); [|lia].
  unfold upd. destruct (Z.eqb_spec x p) as [->|]; lia.
Qed.

Lemma ls_body_lowers (P : Problem) (job : Z) (ls ls' : Z -> Z) (pushed : list Z) :
  ls_body P job ls = Done (ls', pushed) -> forall x, ls' x <= ls x.
Proof.
  intros Hb x. unfold ls_body in Hb.
  destruct (move_start P (start_rounds (ls job)) (capacities P) job (ls job))
    as [s0| | |] eqn:Hm; try discriminate.
  cbn [bind] in Hb. injection Hb as Hb.
  apply move_start_done in Hm. destruct Hm as ([_ Hs0] & _).
  pose proof (lower_predecessors_mono P job (predecessors P job) (upd ls job s0) [] x)
    as Hmono.
  rewrite Hb in Hmono. cbn [fst] in Hmono.
  assert (upd ls job s0 x <= ls x); [|lia].
  unfold upd. destruct (Z.eqb_spec x job) as [->|]; lia.
Qed.

(** The latest-start pass only lowers [ls]. *)
Lemma ls_pass_upper (P : Problem) (m : Memory) (fuel : nat) (ls : Z -> Z) :
  ls_pass P m fuel = Done ls ->
  forall j, 0 <= j < njobs P -> ls j <= horizon P.
Proof.
  intros Hrun. unfold ls_pass in Hrun.
  destruct (bfs_invariant (ls_body P)
              (fun _ _ ls => forall x, ls x <= fill (njobs P) (horizon P) (ls0 m) x))
    with (fuel := fuel) (D := @nil Z) (q := [njobs P - 1])
         (st := fill (njobs P) (horizon P) (ls0 m)) (st' := ls) as (_ & Hle); auto.
  - intros _ job _ st st' pushed Hinv Hb x.
    pose proof (ls_body_lowers P job st st' pushed Hb x). specialize (Hinv x). lia.
  - intros x. lia.
  - intros j Hj. specialize (Hle j). unfold fill in Hle.
    apply in_range_iff in Hj. now rewrite Hj in Hle.
Qed.

(** X19. No priority is negative: on an instance whose precedence is
    acyclic, with the arcs stored consistently and job [njobs - 1] the only
    sink, when preprocessing ends without [return false] the priority
    [cpru[j]] of every job is NaN, or is a number that is at least 0 and so
    passes the first comparison of the scan, against [-DBL_MAX / 2]. *)
Theorem priorities_not_negative
        (P : Problem) (rk : Z -> nat) (m : Memory) (fuel : nat) (pr : Priorities) :
  acyclic P rk = true -> linked P = true -> single_sink P rk = true ->
  preprocess P m fuel = Done pr ->
  forall j, 0 <= j < njobs P ->
            PrimFloat.is_nan (p_cpru pr j) = true \/
            (PrimFloat.leb 0 (p_cpru pr j) = true /\
             PrimFloat.leb (- DBL_MAX / 2)%float (p_cpru pr j) = true).
Proof.
  intros Hacy Hlink Hsnk Hpre.
  unfold preprocess in Hpre.
  destruct (ef_pass P m fuel) as [ef| | |] eqn:Hef; try discriminate. cbn [bind] in Hpre.
  destruct (ls_pass P m fuel) as [ls| | |] eqn:Hls; try discriminate. cbn [bind] in Hpre.
  destruct (ru_pass P ef ls m fuel) as [ru| | |] eqn:Hru; try discriminate.
  cbn [bind] in Hpre. injection Hpre as <-. cbn [p_cpru].
  unfold ru_pass in Hru.
  destruct (bfs_invariant (ru_body P ef ls) (ru_inv P) (ru_inv_step P ef ls) fuel []
                          [njobs P - 1] (ru0 m) ru) as (D & Hclean & Hsink & Hcl); auto.
  { split; [intros j []|]. split; [now left|intros j p []]. }
  cbn [app] in Hsink, Hcl.
  intros j Hj.
  assert (HD : In j D)
    by (apply (closed_from_sink P rk Hacy Hlink (fun j => In j D)); auto).
  pose proof (ls_pass_upper P m fuel ls Hls j Hj) as Hup.
  unfold cpru_of. pose proof Hj as Hr. apply in_range_iff in Hr. rewrite Hr.
  assert (Hsign : not_negative (Prim2SF (double_of_int (horizon P - ls j) * ru j)%float)).
  { apply mul_not_negative.
    - apply double_of_int_not_negative. lia.
    - apply clamped_not_negative. now apply Hclean. }
  destruct (not_negative_leb _ Hsign) as [Hnan|Hle]; [now left|right].
  split; [exact Hle|].
  apply (leb_trans (- DBL_MAX / 2)%float 0%float); [|exact Hle].
  vm_compute. reflexivity.
Qed.

Lemma priorities_not_negative_witness :
  match preprocess chain4 zero_memory 20 with
  | Done pr =>
      PrimFloat.is_nan (p_cpru pr 1) = true \/
      (PrimFloat.leb 0 (p_cpru pr 1) = true /\
       PrimFloat.leb (- DBL_MAX / 2)%float (p_cpru pr 1) = true)
  | _ => False
  end.
Proof.
  destruct (preprocess chain4 zero_memory 20) as [pr| | |] eqn:Hpre;
    try (vm_compute in Hpre; discriminate).
  apply (priorities_not_negative chain4 rank_by_index zero_memory 20 pr);
    try (vm_compute; reflexivity).
  - exact Hpre.
  - vm_compute. split; [discriminate|reflexivity].
Defined.

(** ** A job whose priority is not a number *)

(** The scan keeps its start, or ends on a job whose priority is a number. *)
Lemma scan_selected_number (cpru : Z -> float) (selected : list Z) :
  forall start,
    scan_selected cpru selected start = start \/
    PrimFloat.is_nan (cpru (fst (scan_selected cpru selected start))) = false.
Proof.
  induction selected as [|s l IH]; intros [w b]; [now left|].
  rewrite scan_selected_cons.
  destruct (PrimFloat.leb b (cpru s)) eqn:Hle.
  - destruct (IH (s, cpru s)) as [->|H]; [|now right].
    right. cbn [fst]. now apply leb_numbers in Hle.
  - apply IH.
Qed.

Lemma winner_is_number (cpru : Z -> float) (selected : list Z) :
  0 <= pick_winner cpru selected ->
  PrimFloat.is_nan (cpru (pick_winner cpru selected)) = false.
Proof.
  unfold pick_winner. intros Hw.
  destruct (scan_selected_number cpru selected (-1, (- DBL_MAX / 2)%float)) as [H|H];
    [|exact H].
  rewrite H in Hw. cbn [fst] in Hw. lia.
Qed.

Section NanJob.
Variable P : Problem.
Variable cpru : Z -> float.
Variable rnd : nat -> Q.
Variable j : Z.
Hypothesis Hnan : PrimFloat.is_nan (cpru j) = true.

(** No step places [j]. *)
Lemma steps_skip_nan (n : nat) :
  forall st st',
    schedule_steps P cpru rnd n st = Done st' ->
    schedule st' j = schedule st j.
Proof.
  induction n as [|n IH]; intros st st' Hrun; cbn [schedule_steps] in Hrun.
  - now injection Hrun as <-.
  - destruct (schedule_step P cpru rnd st) as [st1| | |] eqn:Hstep; try discriminate.
    cbn [bind] in Hrun. rewrite (IH st1 st' Hrun).
    apply schedule_step_done in Hstep. cbn zeta in Hstep.
    destruct Hstep as (Hw & f & _ & Hsched & _). rewrite Hsched.
    apply upd_other. intros ->. unfold step_winner in Hw, Hnan.
    destruct (collect_eligible P (schedule st) (eligible st)) as [el ne].
    apply winner_is_number in Hw. congruence.
Qed.

Lemma run_pass_skips_nan (st st' : PassState) :
  1 <= j < njobs P ->
  run_pass P cpru rnd st = Done st' -> schedule st' j = -1.
Proof.
  intros Hj Hrun. unfold run_pass in Hrun. rewrite (steps_skip_nan _ _ _ Hrun).
  cbn [reset_pass schedule]. rewrite upd_other by lia. unfold fill.
  assert (Hr : in_range (njobs P) j = true) by (apply in_range_iff; lia).
  now rewrite Hr.
Qed.
End NanJob.

(** X20. A job whose priority is NaN is never placed, so the call cannot
    succeed: on an acyclic instance with job 0 the only source, if
    preprocessing leaves [cpru[j]] NaN for some job [j] other than the
    source, no pass runs to its end and [solve] does not return [true],
    whatever the random numbers. *)
Theorem nan_priority_never_found
        (P : Problem) (rk : Z -> nat) (m : Memory) (rnd : nat -> Q)
        (fuel : nat) (pr : Priorities) (j : Z) (result : list (option Z)) :
  acyclic P rk = true -> single_source P = true -> durations_ok P = true ->
  unit_draws rnd ->
  preprocess P m fuel = Done pr ->
  1 <= j < njobs P -> PrimFloat.is_nan (p_cpru pr j) = true ->
  solve P m rnd fuel <> Found result.
Proof.
  intros Hacy Hsrc Hdur Hdraws Hpre Hj Hnan Hsolve.
  unfold solve in Hsolve. rewrite Hpre in Hsolve. cbn [bind] in Hsolve.
  destruct (passes P (p_cpru pr) rnd NPASSES (initial_state m)) as [s| | |] eqn:Hp;
    try discriminate.
  destruct (passes_prefix P (p_cpru pr) rnd NPASSES (initial_state m) s 0 Hp)
    as (s0 & st & _ & Hpass); [unfold NPASSES; lia|].
  pose proof (run_pass_skips_nan P (p_cpru pr) rnd j Hnan _ _ Hj Hpass) as Hskip.
  pose proof (run_pass_valid P rk (p_cpru pr) rnd Hacy Hsrc Hdur Hdraws _ _ Hpass)
    as (Hpos & _).
  specialize (Hpos j ltac:(lia)). lia.
Qed.

Lemma nan_priority_never_found_witness :
  solve idle3 hot_memory (fun _ => 0%Q) 20 <> Found [Some 0; Some 0; Some 0].
Proof.
  destruct (preprocess idle3 hot_memory 20) as [pr| | |] eqn:Hpre;
    try (vm_compute in Hpre; discriminate Hpre).
  apply (nan_priority_never_found idle3 rank_by_index hot_memory (fun _ => 0%Q) 20 pr 1);
    try (vm_compute; reflexivity).
  - intros i. split; [discriminate|reflexivity].
  - exact Hpre.
  - vm_compute. split; [discriminate|reflexivity].
  - vm_compute in Hpre. injection Hpre as <-. vm_compute. reflexivity.
Defined.

(** ** When a step finds no winner *)

(** A sample that reaches the priority the scan starts from makes the scan
    end on a sample. *)
Lemma scan_selected_accepts (cpru : Z -> float) (selected : list Z) :
  forall w b,
    (exists s, In s selected /\ PrimFloat.leb b (cpru s) = true) ->
    In (fst (scan_selected cpru selected (w, b))) selected.
Proof.
  induction selected as [|s0 l IH]; intros w b (s & Hin & Hle); [destruct Hin|].
  rewrite scan_selected_cons.
  destruct (PrimFloat.leb b (cpru s0)) eqn:H0.
  - destruct (scan_selected_in cpru l (s0, cpru s0)) as [->|H];
      [now left|now right].
  - right. apply IH. exists s. split; [|exact Hle].
    destruct Hin as [<-|Hin]; [congruence|exact Hin].
Qed.

(** X21. When a step crashes: in a step with eligible jobs whose priorities
    are NaN or at least [-DBL_MAX / 2], and draws in [0, 1), the scan leaves
    [winner = -1], which line 230 then uses as an index, if and only if the
    priority of every sample is NaN; one sample with a number for its
    priority is enough for the step to choose a job. *)
Theorem step_fault_iff
        (P : Problem) (cpru : Z -> float) (rnd : nat -> Q) (st : PassState) :
  unit_draws rnd ->
  eligible_jobs P (schedule st) <> [] ->
  (forall j, In j (eligible_jobs P (schedule st)) ->
             PrimFloat.is_nan (cpru j) = true \/
             PrimFloat.leb (- DBL_MAX / 2)%float (cpru j) = true) ->
  let el := fst (collect_eligible P (schedule st) (eligible st)) in
  let ne := snd (collect_eligible P (schedule st) (eligible st)) in
  schedule_step P cpru rnd st = Fault <->
  forall s, In s (draw_selected rnd el ne (drawn st)) ->
            PrimFloat.is_nan (cpru s) = true.
Proof.
  intros Hdraws Hne Hsign. cbn zeta. unfold schedule_step.
  destruct (collect_eligible P (schedule st) (eligible st)) as [el ne] eqn:Hc.
  cbn [fst snd].
  apply collect_eligible_spec in Hc. destruct Hc as [Hlen Hel].
  assert (Hsamples : forall s, In s (draw_selected rnd el ne (drawn st)) ->
                               In s (eligible_jobs P (schedule st))).
  { intros s Hs. unfold draw_selected in Hs. apply in_map_iff in Hs.
    destruct Hs as (j & <- & _). apply Hel.
    destruct (Hdraws (drawn st + j)%nat) as [H0 H1].
    apply choice_in_range; auto.
    rewrite Hlen. unfold len.
    destruct (eligible_jobs P (schedule st)); [congruence|cbn; lia]. }
  remember (draw_selected rnd el ne (drawn st)) as selected eqn:Esel.
  split.
  - intros Hfault s Hs.
    destruct (Hsign s (Hsamples s Hs)) as [Hnan|Hle]; [exact Hnan|exfalso].
    assert (Hin : In (pick_winner cpru selected) selected)
      by (apply scan_selected_accepts; exists s; auto).
    apply Hsamples, In_eligible_jobs in Hin. destruct Hin as (Hw & _).
    destruct (Z.ltb_spec (pick_winner cpru selected) 0) as [|_]; [lia|].
    destruct (move_finish P _ (available st) (pick_winner cpru selected) _)
      as [f| | |] eqn:Hm; cbn [bind] in Hfault; try discriminate.
    now apply move_finish_no_fault in Hm.
  - intros Hnan. unfold pick_winner. rewrite scan_selected_nan by exact Hnan.
    reflexivity.
Qed.

Lemma step_fault_iff_witness :
  schedule_step idle3 (fun _ => nan) (fun _ => 0%Q)
                (reset_pass idle3 (pass_state (initial_state zero_memory))) = Fault <->
  forall s,
    In s (draw_selected
            (fun _ => 0%Q)
            (fst (collect_eligible idle3
                    (schedule (reset_pass idle3 (pass_state (initial_state zero_memory))))
                    (eligible (reset_pass idle3 (pass_state (initial_state zero_memory))))))
            (snd (collect_eligible idle3
                    (schedule (reset_pass idle3 (pass_state (initial_state zero_memory))))
                    (eligible (reset_pass idle3 (pass_state (initial_state zero_memory))))))
            (drawn (reset_pass idle3 (pass_state (initial_state zero_memory))))) ->
    PrimFloat.is_nan nan = true.
Proof.
  apply (step_fault_iff idle3 (fun _ => nan) (fun _ => 0%Q)
                        (reset_pass idle3 (pass_state (initial_state zero_memory)))).
  - intros i. split; [discriminate|reflexivity].
  - vm_compute. discriminate.
  - intros j _. left. reflexivity.
Defined.

(** ** The time windows, job by job *)

(** X22. How [ef] is determined: on a well-formed instance, when the
    earliest-finish pass ends without [return false], [ef[j]] is the first
    finish at which the requests of [j] fit the capacities and which leaves
    every predecessor [p] finished by its own [ef[p]]: no finish [x >= 0]
    with [ef[p] + durations[j] <= x] for every predecessor fits before
    [ef[j]]. *)
Theorem ef_first_fit (P : Problem) (rk : Z -> nat) (m : Memory) (fuel : nat)
        (ef : Z -> Z) (j x : Z) :
  acyclic P rk = true -> linked P = true -> single_source P = true ->
  durations P 0 = 0 ->
  ef_pass P m fuel = Done ef ->
  0 <= j < njobs P -> 0 <= x ->
  (forall p, In p (predecessors P j) -> ef p + durations P j <= x) ->
  fits_finish P (capacities P) j x = true ->
  ef j <= x.
Proof.
  intros Hacy Hlink Hsrc H0 Hrun Hj Hx Hpred Hfit.
  pose proof (njobs_ge_2 P Hsrc) as Hn.
  pose proof (ef_pass_fixpoint P rk Hacy Hlink m fuel ef Hsrc H0 Hrun) as Hfix.
  destruct (Z_le_gt_dec (ef j) x) as [|Hgt]; [assumption|exfalso].
  assert (Hpos : forall i, 0 <= i < njobs P -> 0 <= ef i).
  { destruct (ef_pass_closed P Hlink m fuel ef ltac:(lia) H0 Hrun) as (D & Hp & _).
    exact Hp. }
  assert (Hle : upd ef j x j <= ef j - 1) by (rewrite upd_same; lia).
  assert (Hbelow : ef j <= upd ef j x j); [|lia].
  apply (ef_pass_below P (upd ef j x) m fuel ef Hlink); auto; try lia.
  - intros i Hi. unfold upd. destruct (i =? j); auto.
  - intros i Hi. unfold upd. destruct (Z.eqb_spec i j) as [->|]; [exact Hfit|].
    now apply Hfix.
  - intros i s Hi Hs. destruct (successor_arc P Hlink i s Hi Hs) as [Hsr Hp].
    destruct (Hfix i Hi) as (_ & _ & Hsucc). specialize (Hsucc s Hs).
    unfold upd. destruct (Z.eqb_spec i j) as [->|Hij], (Z.eqb_spec s j) as [->|Hsj].
    + exfalso. now apply (not_own_successor P rk Hacy Hlink j Hj).
    + lia.
    + now apply Hpred.
    + exact Hsucc.
Qed.

Lemma ef_first_fit_witness :
  match ef_pass diamond zero_memory 20 with
  | Done ef => ef 3 <= 5
  | _ => False
  end.
Proof.
  destruct (ef_pass diamond zero_memory 20) as [ef| | |] eqn:Hef;
    try (vm_compute in Hef; discriminate Hef).
  apply (ef_first_fit diamond rank_by_index zero_memory 20 ef 3 5);
    try (vm_compute; reflexivity).
  - exact Hef.
  - vm_compute. split; [discriminate|reflexivity].
  - discriminate.
  - intros p Hp. vm_compute in Hp. vm_compute in Hef. injection Hef as <-.
    destruct Hp as [<-|[<-|[]]]; vm_compute; discriminate.
Defined.

(** X23. How [ls] is determined: on a well-formed instance, when the
    latest-start pass ends without [return false], [ls[j]] is the last start
    at which the requests of [j] fit the capacities and which lets every
    successor [s] start by its own [ls[s]]: no start [x <= horizon] with
    [x + durations[j] <= ls[s]] for every successor fits after [ls[j]]. *)
Theorem ls_last_fit (P : Problem) (rk : Z -> nat) (m : Memory) (fuel : nat)
        (ls : Z -> Z) (j x : Z) :
  acyclic P rk = true -> linked P = true -> single_sink P rk = true ->
  1 <= njobs P -> durations P (njobs P - 1) = 0 ->
  ls_pass P m fuel = Done ls ->
  0 <= j < njobs P -> x <= horizon P ->
  (forall s, In s (succ_list P j) -> x + durations P j <= ls s) ->
  fits_start P (capacities P) j x = true ->
  x <= ls j.
Proof.
  intros Hacy Hlink Hsnk Hn Hdn Hrun Hj Hx Hsucc Hfit.
  pose proof (ls_pass_fixpoint P rk Hacy Hlink m fuel ls Hsnk Hn Hdn Hrun) as Hfix.
  destruct (Z_le_gt_dec x (ls j)) as [|Hgt]; [assumption|exfalso].
  pose proof (ls_pass_upper P m fuel ls Hrun) as Hup.
  assert (Hge : ls j + 1 <= upd ls j x j) by (rewrite upd_same; lia).
  assert (Habove : upd ls j x j <= ls j); [|lia].
  apply (ls_pass_above P (upd ls j x) rk m fuel ls Hacy); auto.
  - intros i Hi. unfold upd. destruct (i =? j); auto.
  - intros i Hi. unfold upd. destruct (Z.eqb_spec i j) as [->|]; [exact Hfit|].
    now apply Hfix.
  - intros i p Hi Hp. destruct (predecessor_ranked P rk Hacy i p Hi Hp) as [Hpr _].
    destruct (Hfix i Hi) as (_ & _ & Hpred). specialize (Hpred p Hp).
    unfold upd. destruct (Z.eqb_spec p j) as [->|Hpj], (Z.eqb_spec i j) as [->|Hij].
    + exfalso. now apply (not_own_predecessor P rk Hacy j Hj).
    + apply Hsucc. now apply (predecessor_arc P Hlink i j Hi).
    + lia.
    + lia.
Qed.

Lemma ls_last_fit_witness :
  match ls_pass diamond zero_memory 20 with
  | Done ls => 1 <= ls 1
  | _ => False
  end.
Proof.
  destruct (ls_pass diamond zero_memory 20) as [ls| | |] eqn:Hls;
    try (vm_compute in Hls; discriminate Hls).
  apply (ls_last_fit diamond rank_by_index zero_memory 20 ls 1 1);
    try (vm_compute; reflexivity).
  - discriminate.
  - exact Hls.
  - vm_compute. split; [discriminate|reflexivity].
  - discriminate.
  - intros s Hs. vm_compute in Hs. vm_compute in Hls. injection Hls as <-.
    destruct Hs as [<-|[]]; vm_compute; discriminate.
Defined.
